(** * ai-chatbot: the retrieval (RAG) pipeline and its chat caller

    A shallow embedding of
    - [src/app/api/rag/route.ts]: the inline [/api/rag] handler [POST], and
      the later version of the handler that delegates to the library;
    - [src/unnamed/part_000] (imported as [@/lib/rag]): [getRAGContext],
      the importable twin of the inline handler;
    - the retrieval block of [POST] in [src/app/(chat)/api/chat/route.ts],
    together with the properties the specification states about them;
    and, with further properties read off the code,
    - the whole of [src/app/(chat)/api/chat/route.ts]: [POST], [DELETE]
      and [getStreamContext];
    - [src/unnamed/part_001]: the hook [useMessages].

    JavaScript numbers are IEEE 754 binary64 values; they are modelled by
    the standard library's [spec_float] with [prec = 53] and [emax = 1024],
    so that [NaN], the infinities and both zeros are present and the
    arithmetic of the source ([b.similarity - a.similarity]) is the real
    one.  Asynchronous calls are modelled by their outcomes: what a run
    reads from its surroundings is an argument ([Env]), what it does to
    them a trace of events. *)

From Stdlib Require Import ZArith List Bool String Ascii Lia Permutation Sorted.
From Stdlib Require Import Floats.SpecFloat.
From Stdlib Require Reals Lra.
Import ListNotations.

Local Open Scope Z_scope.

(** ** Binary floating-point numbers

    Vocabulary over [spec_float], for any format ([prec], [emax]). *)

Module Float.

Section Format.

Variables prec emax : Z.

(** The exact value of a valid non-NaN number, scaled by [2^(-emin)]:
    every valid finite number [m * 2^e] has [e >= emin], so the scaled
    value is an integer; the infinities sit just outside the finite range. *)
Definition scaled (x : spec_float) : Z :=
  match x with
  | S754_zero _ => 0
  | S754_nan => 0
  | S754_infinity s => cond_Zopp s (2 ^ (emax - emin prec emax))
  | S754_finite s m e => cond_Zopp s (Zpos m * 2 ^ (e - emin prec emax))
  end.

Definition is_nan (x : spec_float) : bool :=
  match x with S754_nan => true | _ => false end.

(** The sign of a number as a [comparison] with zero; NaN and the zeros
    give [Eq]. *)
Definition sign (x : spec_float) : comparison :=
  match x with
  | S754_zero _ | S754_nan => Eq
  | S754_infinity s | S754_finite s _ _ => if s then Lt else Gt
  end.

Definition has_sign (s : bool) (x : spec_float) : Prop :=
  match x with
  | S754_finite s' _ _ | S754_infinity s' => s' = s
  | _ => False
  end.

(** Numbers that take part in the order: valid in the format, and not NaN. *)
Definition ordered (x : spec_float) : bool :=
  valid_binary prec emax x && negb (is_nan x).

End Format.

End Float.

(** ** The real number a binary float stands for *)

Module FloatR.
Import Reals.
Local Open Scope R_scope.

Definition pow2 (e : Z) : R := powerRZ 2 e.

(** The value of a finite number; the other numbers are given 0. *)
Definition value (x : spec_float) : R :=
  match x with
  | S754_finite s m e => (if s then -1 else 1) * IZR (Zpos m) * pow2 e
  | _ => 0
  end.

(** The relative error allowed to one rounding at precision [prec]. *)
Definition eps (prec : Z) : R := pow2 (1 - prec).

End FloatR.

(** ** The JavaScript fragment the sources use *)

Module JS.

(** A number is a binary64 value. *)
Definition number : Type := spec_float.
Definition prec : Z := 53.
Definition emax : Z := 1024.

Definition NaN : number := S754_nan.
Definition of_Z (z : Z) : number := binary_normalize prec emax z 0 false.

(** A number that is not [NaN] (and is a well-formed binary64 value). *)
Definition ordered (x : number) : bool := Float.ordered prec emax x.

(** [a >= b] and [a === b] on numbers. *)
Definition ge (a b : number) : bool := SFleb b a.
Definition strict_eq (a b : number) : bool := SFeqb a b.

(** The values a JSON request body can put in a field, and [undefined] for
    a field that is absent.  Arrays and objects are not told apart: the
    sources only test them for truthiness and [typeof]. *)
Inductive value : Type :=
| Undefined
| Null
| Bool (b : bool)
| Num (n : number)
| Str (s : string)
| Obj.

Definition ToBoolean (v : value) : bool :=
  match v with
  | Undefined | Null => false
  | Bool b => b
  | Num (S754_zero _) | Num S754_nan => false
  | Num _ => true
  | Str s => negb (s =? "")%string
  | Obj => true
  end.

Definition typeof (v : value) : string :=
  match v with
  | Undefined => "undefined"
  | Null => "object"
  | Bool _ => "boolean"
  | Num _ => "number"
  | Str _ => "string"
  | Obj => "object"
  end.

(** The string held by a value whose [typeof] is ["string"]. *)
Definition string_of (v : value) : string :=
  match v with Str s => s | _ => "" end.

(** ECMAScript [ToIntegerOrInfinity]: NaN and the zeros give 0, the
    infinities stay, any other number is truncated towards zero. *)
Inductive integer_or_infinity : Type :=
| NegInfinity
| Integer (z : Z)
| PosInfinity.

Definition ToIntegerOrInfinity (n : number) : integer_or_infinity :=
  match n with
  | S754_nan | S754_zero _ => Integer 0
  | S754_infinity s => if s then NegInfinity else PosInfinity
  | S754_finite s m e => Integer (cond_Zopp s (Z.shiftl (Zpos m) e))
  end.

(** [Array.prototype.slice(0, end)] with a number for [end]. *)
Definition slice0 {A : Type} (arr : list A) (end_ : number) : list A :=
  let len := Z.of_nat (List.length arr) in
  let final :=
    match ToIntegerOrInfinity end_ with
    | NegInfinity => 0
    | Integer relativeEnd =>
        if relativeEnd <? 0 then Z.max (len + relativeEnd) 0
        else Z.min relativeEnd len
    | PosInfinity => len
    end in
  firstn (Z.to_nat final) arr.

(** [Array.prototype.join(separator)] on an array of strings. *)
Fixpoint join (separator : string) (arr : list string) : string :=
  match arr with
  | [] => ""
  | [s] => s
  | s :: rest => (s ++ separator ++ join separator rest)%string
  end.

(** [Array.prototype.sort(comparefn)], as V8, the engine of Node.js, runs
    it on an array of fewer than 64 elements (its [ArrayTimSortImpl] with
    a single run): [CountAndMakeRun] takes the longest run that starts the
    array, non-descending or strictly descending in the comparator's
    order, and reverses it when it is descending; [BinaryInsertionSort]
    then inserts the remaining elements one by one, each at the place a
    binary search finds.  The comparator's answer is read by its sign, NaN
    counting as +0.  Longer arrays are sorted here by the same procedure;
    V8 cuts them into runs that it sorts this way and then merges, which
    gives the same array whenever the comparator is consistent on the
    elements: the sorted arrangement that keeps the order of equal
    elements is unique (see [sort_unique] below). *)
Section Sort.

Context {A : Type}.
Variable comparefn : A -> A -> number.

Definition SortCompare (x y : A) : comparison := Float.sign (comparefn x y).

(** [order < 0], for [order] the comparator's answer on [x] and [y]. *)
Definition before (x y : A) : bool :=
  match SortCompare x y with
  | Lt => true
  | _ => false
  end.

(** The loop of [CountAndMakeRun]: how many of the elements that follow
    [previousElement] continue the run. *)
Fixpoint run_rest (isDescending : bool) (previousElement : A) (arr : list A) : nat :=
  match arr with
  | [] => 0
  | currentElement :: rest =>
      if Bool.eqb (before currentElement previousElement) isDescending
      then S (run_rest isDescending currentElement rest)
      else 0
  end.

(** The run that starts the array, made non-descending, and the rest. *)
Definition CountAndMakeRun (arr : list A) : list A * list A :=
  match arr with
  | elementHigh :: elementLow :: rest =>
      let isDescending := before elementLow elementHigh in
      let runLength := (2 + run_rest isDescending elementLow rest)%nat in
      let run := firstn runLength arr in
      (if isDescending then rev run else run, skipn runLength arr)
  | _ => (arr, [])
  end.

(** The binary search of [BinaryInsertionSort] for the place of [pivot]
    between [left] and [right]; the interval shrinks at every step, so
    [right - left] steps are enough. *)
Fixpoint search (steps : nat) (pivot : A) (arr : list A) (left right : nat) : nat :=
  match steps with
  | O => left
  | S steps =>
      if (left <? right)%nat then
        let mid := (left + (right - left) / 2)%nat in
        match nth_error arr mid with
        | Some element =>
            if before pivot element then search steps pivot arr left mid
            else search steps pivot arr (S mid) right
        | None => left
        end
      else left
  end.

Definition BinaryInsert (arr : list A) (pivot : A) : list A :=
  let left := search (List.length arr) pivot arr 0 (List.length arr) in
  (firstn left arr ++ pivot :: skipn left arr)%list.

Definition BinaryInsertionSort (run rest : list A) : list A :=
  fold_left BinaryInsert rest run.

Definition sort (arr : list A) : list A :=
  let (run, rest) := CountAndMakeRun arr in
  BinaryInsertionSort run rest.

End Sort.

(** Thrown values are [Error] objects; only their message is read. *)
Record Error : Type := { message : string }.

(** The outcome of evaluating an expression that may throw. *)
Inductive completion (A : Type) : Type :=
| Normal (a : A)
| Throw (e : Error).
Arguments Normal {A} a.
Arguments Throw {A} e.

End JS.

(** ** Effects of the retrieval pipeline

    A run reads the corpus file, may call the embedding service and
    computes one similarity per chunk.  A computation is modelled by the
    events it performs, in order, and its completion. *)

Module Eff.
Import JS.

Inductive Event : Type :=
| ReadFile (path : string)
| EmbeddingsCreate (model input : string)
| CosineSimilarity (a b : list number).

Definition M (A : Type) : Type := (list Event * completion A)%type.

Definition ret {A : Type} (a : A) : M A := ([], Normal a).

Definition throw {A : Type} (e : Error) : M A := ([], Throw e).

Definition perform (ev : Event) : M unit := ([ev], Normal tt).

Definition lift {A : Type} (c : completion A) : M A := ([], c).

Definition bind {A B : Type} (m : M A) (k : A -> M B) : M B :=
  match m with
  | (t, Normal a) => let (t', c) := k a in (t ++ t', c)
  | (t, Throw e) => (t, Throw e)
  end.

(** [try { x = m } catch (e) { handler e }; k x], where the handler may
    itself return from the function or throw. *)
Definition attempt {A B : Type} (m : M A) (k : A -> M B) (handler : Error -> M B) : M B :=
  match m with
  | (t, Normal a) => let (t', c) := k a in (t ++ t', c)
  | (t, Throw e) => let (t', c) := handler e in (t ++ t', c)
  end.

(** [try { return m } catch (err) { return handler err }]. *)
Definition handle {A : Type} (m : M A) (handler : Error -> A) : list Event * A :=
  match m with
  | (t, Normal a) => (t, a)
  | (t, Throw e) => (t, handler e)
  end.

End Eff.

Declare Scope eff_scope.
Delimit Scope eff_scope with eff.
Notation "x <- m ;; k" := (Eff.bind m (fun x => k))
  (at level 61, m at next level, right associativity) : eff_scope.
Notation "m ;; k" := (Eff.bind m (fun _ => k))
  (at level 61, right associativity) : eff_scope.

(** ** The retrieval pipeline: [/api/rag] and [getRAGContext] *)

Module Rag.
Import JS Eff.

(** A chunk of the corpus file.  Identifiers are integers in the file and
    are only copied. *)
Record SyllabusChunk : Type := {
  chunk_id : Z;
  text : string;
  embedding : list number
}.

(** [{ ...chunk, similarity }] *)
Record ScoredChunk : Type := {
  chunk : SyllabusChunk;
  similarity : number
}.

(** [{ chunk_id, text, similarity }]: an entry of [topChunks]. *)
Record TopChunk : Type := {
  top_chunk_id : Z;
  top_text : string;
  top_similarity : number
}.

Record RetrievalResult : Type := {
  topChunks : list TopChunk;
  context : string;
  question : string
}.

(** What a run depends on besides its arguments: the credential in the
    process environment, the outcome of reading and parsing the corpus
    file, and the outcome of the embedding request for each text. *)
Record Env : Type := {
  OPENAI_API_KEY : option string;
  corpus_file : completion (list SyllabusChunk);
  embeddings_create : string -> completion (list number)
}.

(** The fields the handler reads from the parsed body: [question], any
    value, and [topK], absent or a number. *)
Record RequestBody : Type := {
  req_question : value;
  req_topK : option number
}.

(** A request, by the outcome of [await req.json()]. *)
Record Request : Type := { json : completion RequestBody }.

Inductive ResponseBody : Type :=
| ErrorBody (error : string)
| ResultBody (result : RetrievalResult).

Record Response : Type := {
  status : Z;
  body : ResponseBody
}.

(** [NextResponse.json(body, { status })]; the status defaults to 200. *)
Definition NextResponse_json (b : ResponseBody) (st : option Z) : Response :=
  {| status := match st with Some n => n | None => 200 end; body := b |}.

Definition LF : string := String (ascii_of_nat 10) EmptyString.

(** The literal ['\n---\n']. *)
Definition separator : string := (LF ++ "---" ++ LF)%string.

Definition corpus_path : string := "data/cs61a_syllabus_embeddings.json".

(** [topK = 4] *)
Definition default_topK : number := Eval vm_compute in of_Z 4.

Definition truthy_env (v : option string) : bool :=
  match v with
  | None => false
  | Some s => negb (s =? "")%string
  end.

Section Pipeline.

(** [cosineSimilarity] is imported from [@/lib/utils]. *)
Variable cosineSimilarity : list number -> list number -> number.

Local Open Scope eff_scope.
Local Open Scope string_scope.

Definition getEmbedding (env : Env) (text : string) : M (list number) :=
  if negb (truthy_env (OPENAI_API_KEY env)) then
    throw {| message := "OPENAI_API_KEY not set in environment" |}
  else
    perform (EmbeddingsCreate "text-embedding-ada-002" text) ;;
    lift (embeddings_create env text).

(** [fs.readFile(filePath, 'utf8')] followed by [JSON.parse(file)]. *)
Definition loadChunks (env : Env) : M (list SyllabusChunk) :=
  perform (ReadFile corpus_path) ;;
  lift (corpus_file env).

(** [chunks.map(chunk => ({ ...chunk, similarity: cosineSimilarity(...) }))] *)
Definition scoreChunks (questionEmbedding : list number) (chunks : list SyllabusChunk)
  : M (list ScoredChunk) :=
  (map (fun c => CosineSimilarity questionEmbedding (embedding c)) chunks,
   Normal (map (fun c => {| chunk := c;
                            similarity := cosineSimilarity questionEmbedding (embedding c) |})
               chunks)).

(** [(a, b) => b.similarity - a.similarity] *)
Definition compareFn (a b : ScoredChunk) : number :=
  SFsub prec emax (similarity b) (similarity a).

(** [({ chunk_id, text, similarity }) => ({ chunk_id, text, similarity })] *)
Definition pick (c : ScoredChunk) : TopChunk :=
  {| top_chunk_id := chunk_id (chunk c);
     top_text := text (chunk c);
     top_similarity := similarity c |}.

(** The inline handler of [src/app/api/rag/route.ts]. *)
Definition POST (env : Env) (req : Request) : list Event * Response :=
  handle
    (b <- lift (json req) ;;
     let question := req_question b in
     let topK := match req_topK b with Some k => k | None => default_topK end in
     if negb (ToBoolean question) || negb (typeof question =? "string") then
       ret (NextResponse_json (ErrorBody "Missing or invalid question") (Some 400))
     else
       chunks <- loadChunks env ;;
       attempt (getEmbedding env (string_of question))
         (fun questionEmbedding =>
            similarities <- scoreChunks questionEmbedding chunks ;;
            let similarities := sort compareFn similarities in
            let topChunks := slice0 similarities topK in
            let context := join separator (map (fun c => text (chunk c)) topChunks) in
            ret (NextResponse_json
                   (ResultBody {| topChunks := map pick topChunks;
                                  context := context;
                                  question := string_of question |})
                   None))
         (fun e =>
            ret (NextResponse_json (ErrorBody "Embedding API not implemented") (Some 500))))
    (fun err => NextResponse_json (ErrorBody (message err)) (Some 500)).

(** [getRAGContext(question, topK = 4)] of [lib/rag]. *)
Definition getRAGContext (env : Env) (question : value) (topK : option number)
  : M RetrievalResult :=
  let topK := match topK with Some k => k | None => default_topK end in
  attempt
    (if negb (ToBoolean question) || negb (typeof question =? "string") then
       throw {| message := "Missing or invalid question" |}
     else
       chunks <- loadChunks env ;;
       attempt (getEmbedding env (string_of question))
         (fun questionEmbedding =>
            similarities <- scoreChunks questionEmbedding chunks ;;
            let similarities := sort compareFn similarities in
            let topChunks := slice0 similarities topK in
            let context := join separator (map (fun c => text (chunk c)) topChunks) in
            ret {| topChunks := map pick topChunks;
                   context := context;
                   question := string_of question |})
         (fun e => throw {| message := "Failed to get embedding for question" |}))
    ret
    (fun err => throw {| message := "RAG processing failed: " ++ message err |}).

(** The handler of the second version of the route, which delegates to
    [getRAGContext]. *)
Definition POST_delegating (env : Env) (req : Request) : list Event * Response :=
  handle
    (b <- lift (json req) ;;
     result <- getRAGContext env (req_question b) (req_topK b) ;;
     ret (NextResponse_json (ResultBody result) None))
    (fun err => NextResponse_json (ErrorBody (message err)) (Some 500)).

End Pipeline.

End Rag.

(** ** [cosineSimilarity] *)

Module Utils.
Import JS.

Definition zero : number := S754_zero false.

(** Modelled from the spec: [cosineSimilarity] lives in [@/lib/utils], which
    is not among the sources.  The specification describes it as the dot
    product divided by the product of the two vectors' magnitudes, with no
    guard against a zero magnitude; this is that formula in binary64
    arithmetic, summing from 0 in index order (over the common indices,
    should the lengths differ: the specification is silent on that). *)
Definition dot (a b : list number) : number :=
  fold_left (fun sum xy => SFadd prec emax sum (SFmul prec emax (fst xy) (snd xy)))
            (combine a b) zero.

Definition magnitude (a : list number) : number :=
  SFsqrt prec emax (dot a a).

Definition cosineSimilarity (a b : list number) : number :=
  SFdiv prec emax (dot a b) (SFmul prec emax (magnitude a) (magnitude b)).

(** A positive normal number [m * 2^e] (53 bits in [m]) with
    [-1021 <= e <= 967], that is a value from [2^-969] up to [2^1020]: its
    square root, the square of that and their quotient stay clear of
    underflow and overflow. *)
Definition mid_range (x : number) : Prop :=
  exists m e,
    x = S754_finite false m e /\ Zpos (digits2_pos m) = prec /\ -1021 <= e <= 967.

End Utils.

(** Modelled from the spec: the same formula in exact arithmetic, the
    vectors being lists of real numbers.  It states what the specification
    means by cosine similarity, apart from the rounding of binary64. *)
Module UtilsR.
Import Reals.
Local Open Scope R_scope.

Definition dot (a b : list R) : R :=
  fold_left (fun sum xy => sum + fst xy * snd xy) (combine a b) 0.

Definition magnitude (a : list R) : R := sqrt (dot a a).

Definition cosineSimilarity (a b : list R) : R :=
  dot a b / (magnitude a * magnitude b).

End UtilsR.

(** ** The retrieval block of the chat endpoint *)

Module Chat.
Import JS Rag.
Local Open Scope string_scope.

(** A part of the user's message: a text part, or a part of another type. *)
Inductive Part : Type :=
| TextPart (text : string)
| OtherPart.

Definition is_text (p : Part) : bool :=
  match p with TextPart _ => true | OtherPart => false end.

Definition part_text (p : Part) : string :=
  match p with TextPart t => t | OtherPart => "" end.

(** White space as [String.prototype.trim] removes it, for a string of
    one-byte characters. *)
Definition is_white_space (c : ascii) : bool :=
  let n := nat_of_ascii c in
  ((9 <=? n) && (n <=? 13) || (n =? 32) || (n =? 160))%nat.

(** [!s.trim()] *)
Fixpoint blank (s : string) : bool :=
  match s with
  | EmptyString => true
  | String.String c rest => is_white_space c && blank rest
  end.

(** What [await fetch(...)] gives: a rejection, or a response whose body
    can be read as JSON or as text (either read may throw). *)
Record FetchResponse : Type := {
  res_status : Z;
  res_json : completion ResponseBody;
  res_text : completion string
}.

Inductive FetchOutcome : Type :=
| Rejected (e : Error)
| Resolved (res : FetchResponse).

(** [ragRes.ok] *)
Definition ok (res : FetchResponse) : bool :=
  ((200 <=? res_status res) && (res_status res <=? 299))%Z.

(** [ragData.context]: a string for a result, [undefined] for an error body. *)
Definition ragData_context (ragData : ResponseBody) : value :=
  match ragData with
  | ResultBody r => Str (context r)
  | ErrorBody _ => Undefined
  end.

Definition framing_before : string :=
  (LF ++ LF ++ "IMPORTANT: Use the following course information to answer the user's question. If the information is relevant to their question, base your answer on this context:" ++ LF ++ LF)%string.

Definition framing_after : string :=
  (LF ++ LF ++ "When answering, reference specific details from the provided course information when applicable.")%string.

Section Handler.

(** The [fetch] of [/api/rag] with body [{ question }], and the value of
    [systemPrompt({ selectedChatModel, requestHints })]. *)
Variable fetch_rag : string -> FetchOutcome.
Variable systemPrompt : string.

Definition userMessageText (parts : list Part) : string :=
  join " " (map part_text (filter is_text parts)).

(** The body of the [try] block, by the value it leaves in [ragContext]. *)
Definition tryRag (parts : list Part) : completion string :=
  if negb (blank (userMessageText parts)) then
    match fetch_rag (userMessageText parts) with
    | Rejected e => Throw e
    | Resolved ragRes =>
        if ok ragRes then
          match res_json ragRes with
          | Throw e => Throw e
          | Normal ragData =>
              if ToBoolean (ragData_context ragData) then
                Normal (framing_before ++ string_of (ragData_context ragData) ++ framing_after)
              else Normal ""
          end
        else
          match res_text ragRes with
          | Throw e => Throw e
          | Normal _ => Normal ""
          end
    end
  else Normal "".

(** [let ragContext = ''; try { ... } catch (error) { console.error(...) }] *)
Definition ragBlock (parts : list Part) : completion string :=
  match tryRag parts with
  | Normal ragContext => Normal ragContext
  | Throw _ => Normal ""
  end.

(** The [system] argument of the [streamText] call that follows. *)
Definition streamText_system (parts : list Part) : completion string :=
  match ragBlock parts with
  | Normal ragContext => Normal (systemPrompt ++ ragContext)
  | Throw e => Throw e
  end.

(** The ways the retrieval call can fail: the fetch rejects, the response
    status is not ok, or reading the response body throws. *)
Definition failed (o : FetchOutcome) : bool :=
  match o with
  | Rejected _ => true
  | Resolved res =>
      if ok res then
        match res_json res with Throw _ => true | Normal _ => false end
      else true
  end.

End Handler.

(** The chat endpoint reaches the route over HTTP; when the request gets
    through, the response is the handler's, its body serialised by
    [JSON_stringify]. *)
Definition fetch_route (cosineSimilarity : list number -> list number -> number)
    (JSON_stringify : ResponseBody -> string)
    (env : Env) (text : string) : FetchOutcome :=
  let res := snd (POST cosineSimilarity env
                    {| json := Normal {| req_question := Str text; req_topK := None |} |}) in
  Resolved {| res_status := status res;
              res_json := Normal (body res);
              res_text := Normal (JSON_stringify (body res)) |}.

End Chat.

(** ** Runs and results: the vocabulary of the properties *)

Module Run.
Import JS Eff Rag.

Definition topK_or_default (topK : option number) : number :=
  match topK with Some k => k | None => default_topK end.

Definition request (question : value) (topK : option number) : Request :=
  {| json := Normal {| req_question := question; req_topK := topK |} |}.

(** The conditions under which a run reaches the ranking step. *)
Record reaches_ranking (env : Env) (question : value) (q : string)
    (questionEmbedding : list number) (chunks : list SyllabusChunk) : Prop := {
  question_string : question = Str q;
  question_nonempty : q <> ""%string;
  credential_set : truthy_env (OPENAI_API_KEY env) = true;
  corpus_loaded : corpus_file env = Normal chunks;
  question_embedded : embeddings_create env q = Normal questionEmbedding
}.

(** [l] is sorted non-increasing: every element is [>=] every later one. *)
Definition non_increasing (l : list number) : Prop :=
  StronglySorted (fun a b => ge a b = true) l.

(** [x] may come before [y] in an array sorted by [key], largest first. *)
Definition descending {A : Type} (key : A -> Z) (x y : A) : Prop := key y <= key x.

(** The value of a score, scaled to an integer. *)
Definition score_key (c : ScoredChunk) : Z := Float.scaled prec emax (similarity c).

Definition score_ordered (c : ScoredChunk) : Prop := ordered (similarity c) = true.

(** The entries of a list whose similarity [=== s]. *)
Definition with_similarity (s : number) (l : list TopChunk) : list TopChunk :=
  filter (fun t => strict_eq (top_similarity t) s) l.

Section Pipeline.

Variable cosineSimilarity : list number -> list number -> number.

(** The chunks of the corpus with their scores, in file order. *)
Definition scored (questionEmbedding : list number) (chunks : list SyllabusChunk)
  : list ScoredChunk :=
  map (fun c => {| chunk := c;
                   similarity := cosineSimilarity questionEmbedding (embedding c) |})
      chunks.

Definition ranked (questionEmbedding : list number) (chunks : list SyllabusChunk)
    (topK : number) : list ScoredChunk :=
  slice0 (sort compareFn (scored questionEmbedding chunks)) topK.

Definition result_of (q : string) (questionEmbedding : list number)
    (chunks : list SyllabusChunk) (topK : number) : RetrievalResult :=
  {| topChunks := map pick (ranked questionEmbedding chunks topK);
     context := join separator
                  (map (fun c => text (chunk c)) (ranked questionEmbedding chunks topK));
     question := q |}.

Definition trace_of (q : string) (questionEmbedding : list number)
    (chunks : list SyllabusChunk) : list Event :=
  ReadFile corpus_path
  :: EmbeddingsCreate "text-embedding-ada-002" q
  :: map (fun c => CosineSimilarity questionEmbedding (embedding c)) chunks.

(** A retrieval result, from either implementation. *)
Inductive retrieval (env : Env) (question : value) (topK : option number)
    (r : RetrievalResult) : Prop :=
| from_getRAGContext (t : list Event) :
    Rag.getRAGContext cosineSimilarity env question topK = (t, Normal r) ->
    retrieval env question topK r
| from_POST (t : list Event) (st : Z) :
    Rag.POST cosineSimilarity env (request question topK) = (t, {| status := st; body := ResultBody r |}) ->
    retrieval env question topK r.

(** No chunk of the corpus scores NaN against the query. *)
Definition scores_ordered (questionEmbedding : list number) (chunks : list SyllabusChunk)
  : Prop :=
  Forall (fun c => ordered (cosineSimilarity questionEmbedding (embedding c)) = true) chunks.

(** The entry a chunk of the corpus gives when it is among the top chunks. *)
Definition entry (questionEmbedding : list number) (c : SyllabusChunk) : TopChunk :=
  {| top_chunk_id := chunk_id c;
     top_text := text c;
     top_similarity := cosineSimilarity questionEmbedding (embedding c) |}.

(** The corpus in file order, each chunk as its entry. *)
Definition corpus_entries (questionEmbedding : list number)
    (chunks : list SyllabusChunk) : list TopChunk :=
  map (entry questionEmbedding) chunks.

End Pipeline.

End Run.

(** ** Concrete runs *)

Module Examples.
Import JS Rag.
Local Open Scope string_scope.

Definition zero : number := S754_zero false.
Definition one : number := Eval vm_compute in of_Z 1.
Definition two : number := Eval vm_compute in of_Z 2.
Definition three : number := Eval vm_compute in of_Z 3.

Definition query : list number := [one; zero].

Definition chunk1 : SyllabusChunk :=
  {| chunk_id := 1; text := "Lectures are on Monday."; embedding := [zero; one] |}.
Definition chunk2 : SyllabusChunk :=
  {| chunk_id := 2; text := "Homework is due on Friday."; embedding := [one; one] |}.
Definition chunk3 : SyllabusChunk :=
  {| chunk_id := 3; text := "The midterm is in week 7."; embedding := [one; zero] |}.

(** A chunk whose stored embedding is the zero vector. *)
Definition chunk_zero : SyllabusChunk :=
  {| chunk_id := 2; text := "Office hours are on Tuesday."; embedding := [zero; zero] |}.

Definition env_of (key : option string) (corpus : completion (list SyllabusChunk))
    (embed : completion (list number)) : Env :=
  {| OPENAI_API_KEY := key; corpus_file := corpus; embeddings_create := fun _ => embed |}.

(** The credential is set, the corpus loads and the service answers. *)
Definition env : Env :=
  env_of (Some "sk-test") (Normal [chunk1; chunk2; chunk3]) (Normal query).

(** The same, with a zero vector in the corpus. *)
Definition env_zero_vector : Env :=
  env_of (Some "sk-test") (Normal [chunk1; chunk_zero; chunk3]) (Normal query).

(** No credential. *)
Definition env_no_key : Env :=
  env_of None (Normal [chunk1; chunk2; chunk3]) (Normal query).

(** The credential is set and the embedding request fails. *)
Definition env_service_down : Env :=
  env_of (Some "sk-test") (Normal [chunk1; chunk2; chunk3])
         (Throw {| message := "429 You exceeded your current quota" |}).

(** A corpus in which two chunks tie for the best score. *)
Definition chunk4 : SyllabusChunk :=
  {| chunk_id := 4; text := "The midterm covers weeks 1 to 6."; embedding := [two; zero] |}.

Definition env_tie : Env :=
  env_of (Some "sk-test") (Normal [chunk1; chunk4; chunk2; chunk3]) (Normal query).

Definition when : value := Str "When is the midterm?".

(** What [getRAGContext] returns in [env] for [topK = 2]. *)
Definition result_top2 : RetrievalResult :=
  {| topChunks :=
       [ {| top_chunk_id := 3; top_text := text chunk3; top_similarity := one |};
         {| top_chunk_id := 2; top_text := text chunk2;
            top_similarity := Utils.cosineSimilarity query (embedding chunk2) |} ];
     context := text chunk3 ++ separator ++ text chunk2;
     question := "When is the midterm?" |}.

(** What it returns in [env_zero_vector] for [topK = 3]: the chunk that
    matches the query exactly comes last. *)
Definition result_zero_vector : RetrievalResult :=
  {| topChunks :=
       [ {| top_chunk_id := 1; top_text := text chunk1; top_similarity := zero |};
         {| top_chunk_id := 2; top_text := text chunk_zero; top_similarity := NaN |};
         {| top_chunk_id := 3; top_text := text chunk3; top_similarity := one |} ];
     context := text chunk1 ++ separator ++ text chunk_zero ++ separator ++ text chunk3;
     question := "When is the midterm?" |}.

(** What it returns in [env_tie] for [topK = 1] and for [topK = 2]. *)
Definition result_tie : RetrievalResult :=
  {| topChunks :=
       [ {| top_chunk_id := 4; top_text := text chunk4; top_similarity := one |} ];
     context := text chunk4;
     question := "When is the midterm?" |}.

Definition result_tie2 : RetrievalResult :=
  {| topChunks :=
       [ {| top_chunk_id := 4; top_text := text chunk4; top_similarity := one |};
         {| top_chunk_id := 3; top_text := text chunk3; top_similarity := one |} ];
     context := text chunk4 ++ separator ++ text chunk3;
     question := "When is the midterm?" |}.

(** A corpus of seven chunks: one that scores 0 against [query], three
    that score 1, one with the zero vector for its embedding, which scores
    NaN, and two more that score 1. *)
Definition chunk5 : SyllabusChunk :=
  {| chunk_id := 5; text := "The midterm is closed book."; embedding := [three; zero] |}.
Definition chunk6 : SyllabusChunk :=
  {| chunk_id := 6; text := "The midterm lasts two hours."; embedding := [one; zero] |}.
Definition chunk7 : SyllabusChunk :=
  {| chunk_id := 7; text := "The midterm is worth 30%."; embedding := [two; zero] |}.
Definition chunk_unembedded : SyllabusChunk :=
  {| chunk_id := 8; text := "Office hours are on Tuesday."; embedding := [zero; zero] |}.

Definition corpus_tie_NaN : list SyllabusChunk :=
  [chunk1; chunk3; chunk4; chunk5; chunk_unembedded; chunk6; chunk7].

Definition env_tie_NaN : Env :=
  env_of (Some "sk-test") (Normal corpus_tie_NaN) (Normal query).

Definition top_of (c : SyllabusChunk) (similarity : number) : TopChunk :=
  {| top_chunk_id := chunk_id c; top_text := text c; top_similarity := similarity |}.

(** What [getRAGContext] returns in [env_tie_NaN] for the default [topK]
    and for [topK = 7]. *)
Definition result_tie_NaN : RetrievalResult :=
  {| topChunks := [top_of chunk3 one; top_of chunk4 one; top_of chunk5 one; top_of chunk7 one];
     context := text chunk3 ++ separator ++ text chunk4 ++ separator ++ text chunk5
                ++ separator ++ text chunk7;
     question := "When is the midterm?" |}.

Definition result_tie_NaN_all : RetrievalResult :=
  {| topChunks := [top_of chunk3 one; top_of chunk4 one; top_of chunk5 one; top_of chunk7 one;
                   top_of chunk1 zero; top_of chunk_unembedded NaN; top_of chunk6 one];
     context := text chunk3 ++ separator ++ text chunk4 ++ separator ++ text chunk5
                ++ separator ++ text chunk7 ++ separator ++ text chunk1
                ++ separator ++ text chunk_unembedded ++ separator ++ text chunk6;
     question := "When is the midterm?" |}.

Definition seven : number := Eval vm_compute in of_Z 7.

End Examples.

(** ** The effects of a run of the retrieval pipeline *)

Module Effects.
Import JS Eff Rag Run.

(** The trace of a run on [question] and [topK], whichever of the three
    implementations ran: [getRAGContext], the inline handler or the
    delegating handler. *)
Inductive effects (cosineSimilarity : list number -> list number -> number)
    (env : Env) (question : value) (topK : option number) : list Event -> Prop :=
| of_getRAGContext :
    effects cosineSimilarity env question topK
      (fst (Rag.getRAGContext cosineSimilarity env question topK))
| of_POST :
    effects cosineSimilarity env question topK
      (fst (Rag.POST cosineSimilarity env (request question topK)))
| of_POST_delegating :
    effects cosineSimilarity env question topK
      (fst (Rag.POST_delegating cosineSimilarity env (request question topK))).

(** The events that compute a similarity. *)
Definition is_similarity (ev : Event) : bool :=
  match ev with
  | CosineSimilarity _ _ => true
  | _ => false
  end.

(** The events that read a file. *)
Definition is_read (ev : Event) : bool :=
  match ev with
  | ReadFile _ => true
  | _ => false
  end.

End Effects.

(** ** The chat endpoint: [POST], [DELETE] and [getStreamContext]

    [src/app/(chat)/api/chat/route.ts].  The handlers call the session, the
    database queries, the title generator, the retrieval route and the
    resumable-stream library, none of which is among the sources: each call
    is an event of the trace, with its arguments, and its outcome is read
    from [Env].  The module-level variable [globalStreamContext] is the
    state that is threaded through.  Console output is not recorded, nor
    are the [onFinish] and [onError] callbacks of the stream, which the
    library calls after the handler has returned. *)

Declare Scope route_scope.
Delimit Scope route_scope with route.

Module ChatRoute.
Import JS.
Local Open Scope string_scope.

Record User : Type := { user_id : string; user_type : string }.

Record Session : Type := { user : option User }.

(** [session?.user] *)
Definition user_of (session : option Session) : option User :=
  match session with
  | Some s => user s
  | None => None
  end.

Record ChatMessage : Type := {
  message_id : string;
  message_role : string;
  message_parts : list Chat.Part
}.

Record PostRequestBody : Type := {
  id : string;
  message : ChatMessage;
  selectedChatModel : string;
  selectedVisibilityType : string
}.

Record RequestHints : Type := {
  longitude : option string;
  latitude : option string;
  city : option string;
  country : option string
}.

(** A chat of the database; [saveChat] is given one. *)
Record ChatRow : Type := {
  chat_id : string;
  userId : string;
  title : string;
  visibility : string
}.

(** A message as [saveMessages] takes it and [getMessagesByChatId] returns it. *)
Record DBMessage : Type := {
  msg_chatId : string;
  msg_id : string;
  msg_role : string;
  msg_parts : list Chat.Part;
  msg_attachments : list string;
  msg_createdAt : Z
}.

(** A JSON body, by what [postRequestBodySchema.parse] makes of it. *)
Record JSONBody : Type := { postRequestBodySchema_parse : completion PostRequestBody }.

(** A request: the outcome of [request.json()], the [id] parameter of the
    query string of [request.url], and what [geolocation(request)] reads. *)
Record Request : Type := {
  json : completion JSONBody;
  searchParams_id : option string;
  geolocation : RequestHints
}.

(** The context [createResumableStreamContext] makes, by a handle. *)
Inductive StreamContext : Type := Context (handle : Z).

(** The arguments of the [streamText] call of the stream's [execute]. *)
Record StreamText : Type := {
  model : string;
  system : string;
  messages : list ChatMessage;
  experimental_activeTools : list string
}.

Inductive Response : Type :=
| ErrorResponse (code : string)
  (** [new ChatSDKError(code).toResponse()] *)
| StreamResponse (resumable : option (StreamContext * string)) (stream : StreamText)
  (** [new Response(...)] over the stream, resumable under a stream id or not *)
| JsonResponse (chat : ChatRow) (status : Z)
  (** [Response.json(chat, { status })] *).

(** What a call can throw: a [ChatSDKError] with its code, the [TypeError]
    of the engine, or another [Error]. *)
Inductive Thrown : Type :=
| ChatSDKError (code : string)
| TypeError
| OtherError (e : Error).

Inductive outcome (A : Type) : Type :=
| Returned (a : A)
| Threw (t : Thrown).
Arguments Returned {A} a.
Arguments Threw {A} t.

Inductive Event : Type :=
| Auth
| GetMessageCountByUserId (id : string) (differenceInHours : Z)
| GetChatById (id : string)
| GenerateTitleFromUserMessage (message : ChatMessage)
| SaveChat (chat : ChatRow)
| GetMessagesByChatId (id : string)
| SaveMessages (messages : list DBMessage)
| CreateStreamId (streamId chatId : string)
| Fetch (url question : string)
| CreateResumableStreamContext
| ResumableStream (context : StreamContext) (streamId : string)
| DeleteChatById (id : string).

(** The surroundings of a request: the outcome of each call, the values of
    [new Date()] and [generateUUID()], the environment variable
    [NEXTAUTH_URL], and the functions imported from [@/lib]. *)
Record Env : Type := {
  auth : outcome (option Session);
  getMessageCountByUserId : string -> Z -> outcome Z;
  maxMessagesPerDay : string -> Z;
  getChatById : string -> outcome (option ChatRow);
  generateTitleFromUserMessage : ChatMessage -> outcome string;
  saveChat : ChatRow -> outcome unit;
  getMessagesByChatId : string -> outcome (list DBMessage);
  convertToUIMessages : list DBMessage -> list ChatMessage;
  saveMessages : list DBMessage -> outcome unit;
  now : Z;
  generateUUID : string;
  createStreamId : string -> string -> outcome unit;
  NEXTAUTH_URL : option string;
  fetch : string -> string -> Chat.FetchOutcome;
  systemPrompt : string -> RequestHints -> string;
  createResumableStreamContext : completion StreamContext;
  resumableStream : StreamContext -> string -> outcome unit;
  deleteChatById : string -> outcome ChatRow
}.

(** The value of [globalStreamContext]. *)
Definition State : Type := option StreamContext.

Definition M (A : Type) : Type := State -> list Event * State * outcome A.

Definition ret {A : Type} (a : A) : M A := fun g => ([], g, Returned a).

Definition throw {A : Type} (t : Thrown) : M A := fun g => ([], g, Threw t).

Definition call {A : Type} (ev : Event) (o : outcome A) : M A := fun g => ([ev], g, o).

Definition lift {A : Type} (c : completion A) : M A :=
  fun g => ([], g, match c with Normal a => Returned a | Throw e => Threw (OtherError e) end).

Definition bind {A B : Type} (m : M A) (k : A -> M B) : M B :=
  fun g =>
    match m g with
    | (t, g', Returned a) => let '(t', g'', o) := k a g' in ((t ++ t')%list, g'', o)
    | (t, g', Threw e) => (t, g', Threw e)
    end.

(** [try { m } catch (error) { handler error }] *)
Definition catch {A : Type} (m : M A) (handler : Thrown -> M A) : M A :=
  fun g =>
    match m g with
    | (t, g', Returned a) => (t, g', Returned a)
    | (t, g', Threw e) => let '(t', g'', o) := handler e g' in ((t ++ t')%list, g'', o)
    end.

Notation "x <- m ;; k" := (bind m (fun x => k))
  (at level 61, m at next level, right associativity) : route_scope.

Local Open Scope route_scope.

(** Thrown values are taken to be [Error] objects, so that reading
    [error.message] in the handler does not itself throw. *)
Definition getStreamContext (env : Env) : M (option StreamContext) :=
  fun globalStreamContext =>
    match globalStreamContext with
    | Some c => ([], Some c, Returned (Some c))
    | None =>
        match createResumableStreamContext env with
        | Normal c => ([CreateResumableStreamContext], Some c, Returned (Some c))
        | Throw error => ([CreateResumableStreamContext], None, Returned None)
        end
    end.

(** [`${process.env.NEXTAUTH_URL || 'http://localhost:3000'}/api/rag`] *)
Definition rag_url (env : Env) : string :=
  match NEXTAUTH_URL env with
  | Some base => if base =? "" then "http://localhost:3000" else base
  | None => "http://localhost:3000"
  end ++ "/api/rag".

Definition fetch_rag (env : Env) (question : string) : M Chat.FetchResponse :=
  call (Fetch (rag_url env) question)
       match fetch env (rag_url env) question with
       | Chat.Rejected e => Threw (OtherError e)
       | Chat.Resolved res => Returned res
       end.

(** The retrieval block of [POST], by the value it leaves in [ragContext]. *)
Definition ragContext_of (env : Env) (parts : list Chat.Part) : M string :=
  let userMessageText := Chat.userMessageText parts in
  catch
    (if negb (Chat.blank userMessageText) then
       ragRes <- fetch_rag env userMessageText ;;
       if Chat.ok ragRes then
         ragData <- lift (Chat.res_json ragRes) ;;
         if ToBoolean (Chat.ragData_context ragData) then
           ret (Chat.framing_before ++ string_of (Chat.ragData_context ragData)
                  ++ Chat.framing_after)
         else ret ""
       else
         errorText <- lift (Chat.res_text ragRes) ;;
         ret ""
     else ret "")
    (fun error => ret "").

Definition activeTools (selectedChatModel : string) : list string :=
  if selectedChatModel =? "chat-model-reasoning" then []
  else ["getWeather"; "createDocument"; "updateDocument"; "requestSuggestions"].

(** [POST] from [getMessagesByChatId] on, once the chat is known to be the
    user's own. *)
Definition respond (env : Env) (request : Request) (requestBody : PostRequestBody)
  : M Response :=
  messagesFromDb <- call (GetMessagesByChatId (id requestBody))
                         (getMessagesByChatId env (id requestBody)) ;;
  let uiMessages := (convertToUIMessages env messagesFromDb ++ [message requestBody])%list in
  let requestHints := geolocation request in
  let saved := [ {| msg_chatId := id requestBody;
                    msg_id := message_id (message requestBody);
                    msg_role := "user";
                    msg_parts := message_parts (message requestBody);
                    msg_attachments := [];
                    msg_createdAt := now env |} ] in
  _ <- call (SaveMessages saved) (saveMessages env saved) ;;
  let streamId := generateUUID env in
  _ <- call (CreateStreamId streamId (id requestBody))
            (createStreamId env streamId (id requestBody)) ;;
  ragContext <- ragContext_of env (message_parts (message requestBody)) ;;
  let stream :=
    {| model := selectedChatModel requestBody;
       system := systemPrompt env (selectedChatModel requestBody) requestHints ++ ragContext;
       messages := uiMessages;
       experimental_activeTools := activeTools (selectedChatModel requestBody) |} in
  streamContext <- getStreamContext env ;;
  match streamContext with
  | Some context =>
      _ <- call (ResumableStream context streamId) (resumableStream env context streamId) ;;
      ret (StreamResponse (Some (context, streamId)) stream)
  | None => ret (StreamResponse None stream)
  end.

(** The second [try] block of [POST]. *)
Definition process (env : Env) (request : Request) (requestBody : PostRequestBody)
  : M Response :=
  session <- call Auth (auth env) ;;
  match user_of session with
  | None => ret (ErrorResponse "unauthorized:chat")
  | Some session_user =>
      messageCount <- call (GetMessageCountByUserId (user_id session_user) 24)
                           (getMessageCountByUserId env (user_id session_user) 24) ;;
      if (messageCount >? maxMessagesPerDay env (user_type session_user))%Z then
        ret (ErrorResponse "rate_limit:chat")
      else
        chat <- call (GetChatById (id requestBody)) (getChatById env (id requestBody)) ;;
        match chat with
        | None =>
            title <- call (GenerateTitleFromUserMessage (message requestBody))
                          (generateTitleFromUserMessage env (message requestBody)) ;;
            let created := {| chat_id := id requestBody;
                              userId := user_id session_user;
                              title := title;
                              visibility := selectedVisibilityType requestBody |} in
            _ <- call (SaveChat created) (saveChat env created) ;;
            respond env request requestBody
        | Some chat =>
            if negb (userId chat =? user_id session_user) then
              ret (ErrorResponse "forbidden:chat")
            else respond env request requestBody
        end
  end.

(** [request.json()] followed by [postRequestBodySchema.parse(json)]. *)
Definition requestBody_of (request : Request) : completion PostRequestBody :=
  match json request with
  | Normal j => postRequestBodySchema_parse j
  | Throw e => Throw e
  end.

(** [POST]: the response, or [None] when the handler returns without one
    (the last [catch] returns only for a [ChatSDKError]). *)
Definition POST (env : Env) (request : Request)
  : State -> list Event * State * option Response :=
  fun g =>
    match requestBody_of request with
    | Throw error => ([], g, Some (ErrorResponse "bad_request:api"))
    | Normal requestBody =>
        match process env request requestBody g with
        | (t, g', Returned response) => (t, g', Some response)
        | (t, g', Threw (ChatSDKError code)) => (t, g', Some (ErrorResponse code))
        | (t, g', Threw _) => (t, g', None)
        end
    end.

(** [DELETE]; it has no [try], so what a call throws the handler throws. *)
Definition DELETE (env : Env) (request : Request) : M Response :=
  match searchParams_id request with
  | None => ret (ErrorResponse "bad_request:api")
  | Some id =>
      if id =? "" then ret (ErrorResponse "bad_request:api")
      else
        session <- call Auth (auth env) ;;
        match user_of session with
        | None => ret (ErrorResponse "unauthorized:chat")
        | Some session_user =>
            chat <- call (GetChatById id) (getChatById env id) ;;
            match chat with
            | None => throw TypeError
            | Some chat =>
                if negb (userId chat =? user_id session_user) then
                  ret (ErrorResponse "forbidden:chat")
                else
                  deletedChat <- call (DeleteChatById id) (deleteChatById env id) ;;
                  ret (JsonResponse deletedChat 200)
            end
        end
  end.

(** The calls that change the database. *)
Definition writes (ev : Event) : bool :=
  match ev with
  | SaveChat _ | SaveMessages _ | CreateStreamId _ _ | DeleteChatById _ => true
  | _ => false
  end.

(** The calls that make a new chat: its title and its row. *)
Definition creates (ev : Event) : bool :=
  match ev with
  | GenerateTitleFromUserMessage _ | SaveChat _ => true
  | _ => false
  end.

(** The requests to the retrieval route. *)
Definition is_fetch (ev : Event) : bool :=
  match ev with
  | Fetch _ _ => true
  | _ => false
  end.

(** The row [POST] saves for the user's message. *)
Definition user_message (env : Env) (requestBody : PostRequestBody) : DBMessage :=
  {| msg_chatId := id requestBody;
     msg_id := message_id (message requestBody);
     msg_role := "user";
     msg_parts := message_parts (message requestBody);
     msg_attachments := [];
     msg_createdAt := now env |}.

(** What a call threw, if it threw. *)
Definition thrown {A : Type} (o : outcome A) : option Thrown :=
  match o with
  | Returned _ => None
  | Threw x => Some x
  end.

(** What the call an event records threw to the handler.  A failure of the
    retrieval request or of the creation of the stream context is caught
    where the call is made and never reaches the handler. *)
Definition thrown_by (env : Env) (ev : Event) : option Thrown :=
  match ev with
  | Auth => thrown (auth env)
  | GetMessageCountByUserId id differenceInHours =>
      thrown (getMessageCountByUserId env id differenceInHours)
  | GetChatById id => thrown (getChatById env id)
  | GenerateTitleFromUserMessage message => thrown (generateTitleFromUserMessage env message)
  | SaveChat chat => thrown (saveChat env chat)
  | GetMessagesByChatId id => thrown (getMessagesByChatId env id)
  | SaveMessages messages => thrown (saveMessages env messages)
  | CreateStreamId streamId chatId => thrown (createStreamId env streamId chatId)
  | ResumableStream context streamId => thrown (resumableStream env context streamId)
  | DeleteChatById id => thrown (deleteChatById env id)
  | Fetch _ _ | CreateResumableStreamContext => None
  end.

(** The conditions under which [POST] gets past its checks: the body
    parses, the session has a user who is within the daily limit, and the
    chat is new or the user's own. *)
Record cleared (env : Env) (request : Request) (requestBody : PostRequestBody)
    (u : User) (chat : option ChatRow) : Prop := {
  body_parsed : requestBody_of request = Normal requestBody;
  signed_in : exists session, auth env = Returned session /\ user_of session = Some u;
  within_limit :
    exists messageCount,
      getMessageCountByUserId env (user_id u) 24 = Returned messageCount /\
      (messageCount <= maxMessagesPerDay env (user_type u))%Z;
  chat_found : getChatById env (id requestBody) = Returned chat;
  chat_own : forall c, chat = Some c -> userId c = user_id u
}.

(** The conditions under which the calls [POST] makes once the checks are
    passed, the retrieval request apart, all succeed: a new chat gets its
    title and is saved, the messages of the chat are read, the user's
    message is saved, the stream is registered and, where there is a
    stream context, the resumable stream is made. *)
Record answered (env : Env) (requestBody : PostRequestBody) (u : User)
    (chat : option ChatRow) (history : list DBMessage) (g : State) : Prop := {
  chat_made :
    chat = None ->
    exists generated,
      generateTitleFromUserMessage env (message requestBody) = Returned generated /\
      saveChat env {| chat_id := id requestBody; userId := user_id u; title := generated;
                      visibility := selectedVisibilityType requestBody |} = Returned tt;
  history_read : getMessagesByChatId env (id requestBody) = Returned history;
  message_saved : saveMessages env [user_message env requestBody] = Returned tt;
  stream_registered : createStreamId env (generateUUID env) (id requestBody) = Returned tt;
  stream_resumed :
    forall context,
      snd (getStreamContext env g) = Returned (Some context) ->
      resumableStream env context (generateUUID env) = Returned tt
}.

End ChatRoute.

(** ** The hook [useMessages]

    [src/unnamed/part_001].  The hook keeps one piece of state,
    [hasSentMessage], and registers two effects.  React's part is modelled
    as follows: after a render is committed, the effects whose dependency
    changed since the previous render (all of them on mount) run in the
    order of their declaration; the state updates they request are applied
    in that order; the render that follows sees the same properties and
    runs no effect.  [setHasSentMessage] never changes, so each effect
    depends on one property.  The fields of [useScrollToBottom] are passed
    through and are not modelled. *)

Module UseMessages.
Local Open Scope string_scope.

Record Props : Type := { chatId : string; status : string }.

(** The state after a commit: [hasSentMessage], and the properties of the
    last render, none before the first. *)
Record Hook : Type := { hasSentMessage : bool; rendered : option Props }.

(** [useState(false)] *)
Definition mount : Hook := {| hasSentMessage := false; rendered := None |}.

(** Whether a dependency differs from its value at the last render. *)
Definition changed (dep : Props -> string) (h : Hook) (p : Props) : bool :=
  match rendered h with
  | None => true
  | Some p0 => negb (dep p0 =? dep p)
  end.

(** [if (chatId) { setHasSentMessage(false) }] *)
Definition onChatId (p : Props) (sent : bool) : bool :=
  if negb (chatId p =? "") then false else sent.

(** [if (status === 'submitted') { setHasSentMessage(true) }] *)
Definition onStatus (p : Props) (sent : bool) : bool :=
  if status p =? "submitted" then true else sent.

(** A render with properties [p], its effects and the updates they request. *)
Definition render (h : Hook) (p : Props) : Hook :=
  let sent := hasSentMessage h in
  let sent := if changed chatId h p then onChatId p sent else sent in
  let sent := if changed status h p then onStatus p sent else sent in
  {| hasSentMessage := sent; rendered := Some p |}.

(** The hook after a sequence of renders, the first being the mount. *)
Definition useMessages (renders : list Props) : Hook :=
  fold_left render renders mount.

End UseMessages.

(** ** Concrete requests to the chat endpoint *)

Module RouteExamples.
Import JS ChatRoute.
Local Open Scope string_scope.

Definition alice : User := {| user_id := "alice"; user_type := "regular" |}.

Definition asked : ChatMessage :=
  {| message_id := "m1"; message_role := "user";
     message_parts := [Chat.TextPart "When is the midterm?"] |}.

Definition body : PostRequestBody :=
  {| id := "chat-1"; message := asked;
     selectedChatModel := "chat-model"; selectedVisibilityType := "private" |}.

Definition nowhere : RequestHints :=
  {| longitude := None; latitude := None; city := None; country := None |}.

Definition request : Request :=
  {| json := Normal {| postRequestBodySchema_parse := Normal body |};
     searchParams_id := Some "chat-1";
     geolocation := nowhere |}.

Definition chat_of (owner : string) : ChatRow :=
  {| chat_id := "chat-1"; userId := owner; title := "Midterm"; visibility := "private" |}.

(** Alice is signed in and has sent [sent] messages today, of the 100 she
    may send; the chat is [chat]; the database answers; the retrieval route
    is the inline handler over the corpus of [Examples.env]; the creation
    of the stream context has the outcome [context]. *)
Definition env_of (sent : Z) (chat : option ChatRow) (context : completion StreamContext)
  : Env :=
  {| auth := Returned (Some {| user := Some alice |});
     getMessageCountByUserId := fun _ _ => Returned sent;
     maxMessagesPerDay := fun _ => 100;
     getChatById := fun _ => Returned chat;
     generateTitleFromUserMessage := fun _ => Returned "Midterm";
     saveChat := fun _ => Returned tt;
     getMessagesByChatId := fun _ => Returned [];
     convertToUIMessages := fun _ => [];
     saveMessages := fun _ => Returned tt;
     now := 0;
     generateUUID := "stream-1";
     createStreamId := fun _ _ => Returned tt;
     NEXTAUTH_URL := None;
     fetch := fun _ => Chat.fetch_route Utils.cosineSimilarity (fun _ => "") Examples.env;
     systemPrompt := fun _ _ => "You are a friendly assistant!";
     createResumableStreamContext := context;
     resumableStream := fun _ _ => Returned tt;
     deleteChatById := fun _ => Returned (chat_of "alice") |}.

Definition no_redis : completion StreamContext :=
  Throw {| JS.message := "REDIS_URL environment variable is not set" |}.

(** A first message in a new chat, without Redis. *)
Definition env : Env := env_of 3 None no_redis.

(** The same, the list of messages failing to load with a plain error. *)
Definition env_db_down : Env :=
  {| auth := auth env;
     getMessageCountByUserId := getMessageCountByUserId env;
     maxMessagesPerDay := maxMessagesPerDay env;
     getChatById := getChatById env;
     generateTitleFromUserMessage := generateTitleFromUserMessage env;
     saveChat := saveChat env;
     getMessagesByChatId := fun _ => Threw (OtherError {| JS.message := "connection refused" |});
     convertToUIMessages := convertToUIMessages env;
     saveMessages := saveMessages env;
     now := now env;
     generateUUID := generateUUID env;
     createStreamId := createStreamId env;
     NEXTAUTH_URL := NEXTAUTH_URL env;
     fetch := fetch env;
     systemPrompt := systemPrompt env;
     createResumableStreamContext := createResumableStreamContext env;
     resumableStream := resumableStream env;
     deleteChatById := deleteChatById env |}.

(** A first message in a new chat while the retrieval is down: with the
    stream context [context] already made; the retrieval route either
    answers 500, having no credential for the embedding service, or
    cannot be reached at all. *)
Definition env_rag_down (context : completion StreamContext) (reachable : bool) : Env :=
  {| auth := auth env;
     getMessageCountByUserId := getMessageCountByUserId env;
     maxMessagesPerDay := maxMessagesPerDay env;
     getChatById := getChatById env;
     generateTitleFromUserMessage := generateTitleFromUserMessage env;
     saveChat := saveChat env;
     getMessagesByChatId := getMessagesByChatId env;
     convertToUIMessages := convertToUIMessages env;
     saveMessages := saveMessages env;
     now := now env;
     generateUUID := generateUUID env;
     createStreamId := createStreamId env;
     NEXTAUTH_URL := NEXTAUTH_URL env;
     fetch := fun _ question =>
                if reachable then
                  Chat.fetch_route Utils.cosineSimilarity (fun _ => "internal error")
                    Examples.env_no_key question
                else Chat.Rejected {| JS.message := "fetch failed" |};
     systemPrompt := systemPrompt env;
     createResumableStreamContext := context;
     resumableStream := resumableStream env;
     deleteChatById := deleteChatById env |}.

(** The arguments of [streamText] then: the system prompt is as it was. *)
Definition streamed_without_context : StreamText :=
  {| model := "chat-model";
     system := "You are a friendly assistant!";
     messages := [asked];
     experimental_activeTools :=
       ["getWeather"; "createDocument"; "updateDocument"; "requestSuggestions"] |}.

(** The arguments of [streamText] for the first message in [env]: the
    three chunks of the corpus, best first, are in the system prompt. *)
Definition streamed : StreamText :=
  {| model := "chat-model";
     system := "You are a friendly assistant!"
               ++ Chat.framing_before
               ++ (Rag.text Examples.chunk3 ++ Rag.separator ++ Rag.text Examples.chunk2
                   ++ Rag.separator ++ Rag.text Examples.chunk1)
               ++ Chat.framing_after;
     messages := [asked];
     experimental_activeTools :=
       ["getWeather"; "createDocument"; "updateDocument"; "requestSuggestions"] |}.

End RouteExamples.

(** * Properties *)

(** ** Binary floating-point facts

    The comparator of the ranking step is a subtraction whose sign alone is
    used.  This section shows, for any format, that on valid non-NaN
    numbers the sign of the rounded difference is the order of the two
    numbers, which is also what the IEEE comparison computes. *)

Module FloatFacts.
Import Float.

Section Format.

Variables prec emax : Z.
Hypothesis prec_pos : 0 < prec.
Hypothesis prec_lt_emax : prec < emax.

Local Abbreviation emin := (emin prec emax).
Local Abbreviation fexp := (fexp prec emax).

Lemma digits2_pos_bounds (m : positive) :
  2 ^ (Zpos (digits2_pos m) - 1) <= Zpos m < 2 ^ Zpos (digits2_pos m).
Proof.
  induction m as [m IH | m IH |]; cbn [digits2_pos].
  - rewrite Pos2Z.inj_succ, Z.pow_succ_r by lia.
    replace (Z.succ (Zpos (digits2_pos m)) - 1) with (Z.succ (Zpos (digits2_pos m) - 1)) by lia.
    rewrite Z.pow_succ_r by lia. lia.
  - rewrite Pos2Z.inj_succ, Z.pow_succ_r by lia.
    replace (Z.succ (Zpos (digits2_pos m)) - 1) with (Z.succ (Zpos (digits2_pos m) - 1)) by lia.
    rewrite Z.pow_succ_r by lia. lia.
  - cbn. lia.
Qed.

Lemma shl_align_value (m : positive) (e e' : Z) :
  e' <= e ->
  Zpos (fst (shl_align m e e')) = Zpos m * 2 ^ (e - e').
Proof.
  intros He. unfold shl_align.
  destruct (e' - e) as [| d | d] eqn:Hd; cbn [fst].
  - replace (e - e') with 0 by lia. lia.
  - lia.
  - replace (e - e') with (Zpos d) by lia.
    clear. revert m.
    induction d as [| d IH] using Pos.peano_ind; intros m.
    + cbn. lia.
    + rewrite Pos.iter_succ, Pos2Z.inj_succ, Z.pow_succ_r by lia.
      rewrite Pos2Z.inj_xO, IH. lia.
Qed.

Lemma shr_1_m (mrs : shr_record) :
  0 <= shr_m mrs -> shr_m (shr_1 mrs) = shr_m mrs / 2.
Proof.
  destruct mrs as [m r t]; cbn [shr_m shr_1]. intros Hm.
  destruct m as [| [p | p |] | p]; cbn [shr_m]; try lia.
  - reflexivity.
  - rewrite (Pos2Z.inj_xI p). apply Z.div_unique with (r := 1); lia.
  - rewrite (Pos2Z.inj_xO p). apply Z.div_unique with (r := 0); lia.
  - reflexivity.
Qed.

Lemma iter_pos_shr_m (p : positive) (mrs : shr_record) :
  0 <= shr_m mrs ->
  shr_m (iter_pos shr_1 p mrs) = shr_m mrs / 2 ^ Zpos p.
Proof.
  revert mrs.
  induction p as [p IH | p IH |]; intros mrs Hm; cbn [iter_pos].
  - assert (H1 : 0 <= shr_m (shr_1 mrs))
      by (rewrite shr_1_m by assumption; apply Z.div_pos; lia).
    assert (H2 : 0 <= shr_m (iter_pos shr_1 p (shr_1 mrs)))
      by (rewrite IH by assumption; apply Z.div_pos; [assumption | apply Z.pow_pos_nonneg; lia]).
    rewrite IH, IH, shr_1_m by assumption.
    rewrite !Z.div_div by (try apply Z.pow_pos_nonneg; lia).
    f_equal. rewrite (Pos2Z.inj_xI p), Z.pow_add_r, Z.pow_twice_r, Z.pow_1_r by lia. lia.
  - assert (H2 : 0 <= shr_m (iter_pos shr_1 p mrs))
      by (rewrite IH by assumption; apply Z.div_pos; [assumption | apply Z.pow_pos_nonneg; lia]).
    rewrite IH, IH by assumption.
    rewrite !Z.div_div by (try apply Z.pow_pos_nonneg; lia).
    f_equal. rewrite (Pos2Z.inj_xO p), Z.pow_twice_r by lia. lia.
  - rewrite shr_1_m by assumption. reflexivity.
Qed.

Lemma shr_record_of_loc_m (m : Z) (l : location) :
  shr_m (shr_record_of_loc m l) = m.
Proof. destruct l as [| []]; reflexivity. Qed.

(** Shifting a positive mantissa to its canonical exponent keeps it
    positive, provided no underflow is possible. *)
Lemma shr_fexp_pos (m e : Z) (l : location) :
  0 < m -> emin <= e ->
  0 < shr_m (fst (shr_fexp prec emax m e l)) /\
  emin <= snd (shr_fexp prec emax m e l).
Proof.
  intros Hm He. unfold shr_fexp, shr.
  destruct m as [| p | p]; try lia. cbn [Zdigits2].
  pose proof (digits2_pos_bounds p) as [Hlo Hhi].
  set (d := Zpos (digits2_pos p)) in *.
  destruct (fexp (d + e) - e) as [| n | n] eqn:Hn; cbn [fst snd];
    try (rewrite shr_record_of_loc_m; lia).
  rewrite iter_pos_shr_m by (rewrite shr_record_of_loc_m; lia).
  rewrite shr_record_of_loc_m.
  unfold SpecFloat.fexp in Hn.
  assert (Hd : Zpos n = d - prec) by lia.
  split; [| lia].
  apply Z.div_str_pos. split; [apply Z.pow_pos_nonneg; lia |].
  apply Z.le_trans with (2 ^ (d - 1)); [| assumption].
  apply Z.pow_le_mono_r; lia.
Qed.

Lemma round_nearest_even_ge (m : Z) (l : location) :
  m <= round_nearest_even m l.
Proof.
  destruct l as [| []]; cbn [round_nearest_even]; try lia.
  destruct (Z.even m); lia.
Qed.

Lemma binary_round_aux_sign (s : bool) (m e : Z) (l : location) :
  0 < m -> emin <= e ->
  has_sign s (binary_round_aux prec emax s m e l).
Proof.
  intros Hm He. unfold binary_round_aux.
  pose proof (shr_fexp_pos m e l Hm He) as [H1 H2].
  destruct (shr_fexp prec emax m e l) as [mrs' e'] eqn:E1. cbn [fst snd] in H1, H2.
  pose proof (round_nearest_even_ge (shr_m mrs') (loc_of_shr_record mrs')) as Hr.
  set (m2 := round_nearest_even (shr_m mrs') (loc_of_shr_record mrs')) in *.
  assert (Hm2 : 0 < m2) by lia.
  pose proof (shr_fexp_pos m2 e' loc_Exact Hm2 H2) as [H3 H4].
  destruct (shr_fexp prec emax m2 e' loc_Exact) as [mrs'' e''] eqn:E2.
  cbn [fst snd] in H3, H4.
  destruct (shr_m mrs'') as [| q | q]; try lia.
  destruct (e'' <=? emax - prec); reflexivity.
Qed.

Lemma binary_round_sign (s : bool) (m : positive) (e : Z) :
  emin <= e -> has_sign s (binary_round prec emax s m e).
Proof.
  intros He. unfold binary_round.
  destruct (shl_align m e (fexp (Zpos (digits2_pos m) + e))) as [mz ez] eqn:E.
  apply binary_round_aux_sign; [lia |].
  unfold shl_align in E.
  destruct (fexp (Zpos (digits2_pos m) + e) - e) eqn:Hn;
    injection E as <- <-; try lia.
  unfold SpecFloat.fexp. lia.
Qed.

Lemma binary_normalize_sign (m e : Z) (b : bool) :
  emin <= e -> sign (binary_normalize prec emax m e b) = (m ?= 0).
Proof.
  intros He. destruct m as [| p | p]; cbn [binary_normalize].
  - reflexivity.
  - pose proof (binary_round_sign false p e He) as H.
    destruct (binary_round prec emax false p e); cbn in H |- *; subst; tauto.
  - pose proof (binary_round_sign true p e He) as H.
    destruct (binary_round prec emax true p e); cbn in H |- *; subst; tauto.
Qed.

Lemma valid_finite (s : bool) (m : positive) (e : Z) :
  valid_binary prec emax (S754_finite s m e) = true ->
  emin <= e <= emax - prec /\
  Zpos (digits2_pos m) <= prec /\
  (emin < e -> Zpos (digits2_pos m) = prec).
Proof.
  cbn [valid_binary]. unfold bounded, canonical_mantissa, SpecFloat.fexp.
  rewrite andb_true_iff, Z.eqb_eq, Z.leb_le. lia.
Qed.

Lemma scaled_finite_bounds (s : bool) (m : positive) (e : Z) :
  valid_binary prec emax (S754_finite s m e) = true ->
  0 < Zpos m * 2 ^ (e - emin) < 2 ^ (emax - emin).
Proof.
  intros Hv. apply valid_finite in Hv as (He & Hd & _).
  pose proof (digits2_pos_bounds m) as [_ Hhi].
  assert (Hp : 0 < 2 ^ (e - emin)) by (apply Z.pow_pos_nonneg; lia).
  split; [lia |].
  apply Z.lt_le_trans with (2 ^ Zpos (digits2_pos m) * 2 ^ (e - emin)).
  - apply Z.mul_lt_mono_pos_r; assumption.
  - rewrite <- Z.pow_add_r by lia. apply Z.pow_le_mono_r; lia.
Qed.

Lemma compare_scale (a b c : Z) : 0 < c -> (a * c ?= b * c) = (a ?= b).
Proof.
  intros Hc. destruct (Z.compare_spec a b) as [H | H | H].
  - subst. apply Z.compare_refl.
  - apply Z.compare_lt_iff. nia.
  - apply Z.compare_gt_iff. nia.
Qed.

(** The sign of a rounded difference is the order of its operands. *)
Theorem SFsub_sign (x y : spec_float) :
  ordered prec emax x = true -> ordered prec emax y = true ->
  sign (SFsub prec emax x y) = (scaled prec emax x ?= scaled prec emax y).
Proof.
  unfold ordered. rewrite !andb_true_iff. intros [Hx Nx] [Hy Ny].
  destruct x as [sx | sx | | sx mx ex]; try discriminate Nx;
  destruct y as [sy | sy | | sy my ey]; try discriminate Ny;
  clear Nx Ny.
  - (* zero - zero *)
    destruct sx, sy; reflexivity.
  - (* zero - infinity *)
    assert (H : 0 < 2 ^ (emax - emin)) by (apply Z.pow_pos_nonneg; unfold SpecFloat.emin; lia).
    destruct sy; cbn [SFsub sign scaled cond_Zopp negb]; symmetry;
      [apply Z.compare_gt_iff | apply Z.compare_lt_iff]; lia.
  - (* zero - finite *)
    pose proof (scaled_finite_bounds sy my ey Hy) as [H _].
    destruct sy; cbn [SFsub sign scaled cond_Zopp negb]; symmetry;
      [apply Z.compare_gt_iff | apply Z.compare_lt_iff]; lia.
  - (* infinity - zero *)
    assert (H : 0 < 2 ^ (emax - emin)) by (apply Z.pow_pos_nonneg; unfold SpecFloat.emin; lia).
    destruct sx; cbn [SFsub sign scaled cond_Zopp]; symmetry;
      [apply Z.compare_lt_iff | apply Z.compare_gt_iff]; lia.
  - (* infinity - infinity *)
    assert (H : 0 < 2 ^ (emax - emin)) by (apply Z.pow_pos_nonneg; unfold SpecFloat.emin; lia).
    destruct sx, sy; cbn [SFsub sign scaled cond_Zopp]; symmetry;
      first [apply Z.compare_refl | apply Z.compare_lt_iff; lia | apply Z.compare_gt_iff; lia].
  - (* infinity - finite *)
    pose proof (scaled_finite_bounds sy my ey Hy) as H.
    destruct sx, sy; cbn [SFsub sign scaled cond_Zopp]; symmetry;
      first [apply Z.compare_lt_iff; lia | apply Z.compare_gt_iff; lia].
  - (* finite - zero *)
    pose proof (scaled_finite_bounds sx mx ex Hx) as [H _].
    destruct sx; cbn [SFsub sign scaled cond_Zopp]; symmetry;
      [apply Z.compare_lt_iff | apply Z.compare_gt_iff]; lia.
  - (* finite - infinity *)
    pose proof (scaled_finite_bounds sx mx ex Hx) as H.
    destruct sx, sy; cbn [SFsub sign scaled cond_Zopp negb]; symmetry;
      first [apply Z.compare_lt_iff; lia | apply Z.compare_gt_iff; lia].
  - (* finite - finite: the aligned integer difference decides *)
    apply valid_finite in Hx as (Hex & _). apply valid_finite in Hy as (Hey & _).
    cbn [SFsub scaled]. cbv zeta.
    set (ez := Z.min ex ey).
    rewrite binary_normalize_sign by lia.
    rewrite !shl_align_value by lia.
    assert (Hc : 0 < 2 ^ (ez - emin)) by (apply Z.pow_pos_nonneg; lia).
    replace (ex - emin) with ((ex - ez) + (ez - emin)) by lia.
    replace (ey - emin) with ((ey - ez) + (ez - emin)) by lia.
    rewrite !Z.pow_add_r by lia.
    set (ax := Zpos mx * 2 ^ (ex - ez)). set (ay := Zpos my * 2 ^ (ey - ez)).
    replace (cond_Zopp sx (Zpos mx * (2 ^ (ex - ez) * 2 ^ (ez - emin))))
      with (cond_Zopp sx ax * 2 ^ (ez - emin))
      by (subst ax; destruct sx; cbn [cond_Zopp]; ring).
    replace (cond_Zopp sy (Zpos my * (2 ^ (ey - ez) * 2 ^ (ez - emin))))
      with (cond_Zopp sy ay * 2 ^ (ez - emin))
      by (subst ay; destruct sy; cbn [cond_Zopp]; ring).
    rewrite compare_scale by assumption.
    rewrite (Z.compare_sub (cond_Zopp sx ax)). reflexivity.
Qed.

Lemma scaled_lt_of_exponent (s1 s2 : bool) (m1 m2 : positive) (e1 e2 : Z) :
  valid_binary prec emax (S754_finite s1 m1 e1) = true ->
  valid_binary prec emax (S754_finite s2 m2 e2) = true ->
  e1 < e2 ->
  Zpos m1 * 2 ^ (e1 - emin) < Zpos m2 * 2 ^ (e2 - emin).
Proof.
  intros H1 H2 Hlt.
  apply valid_finite in H1 as (He1 & Hd1 & _).
  apply valid_finite in H2 as (He2 & _ & Hd2).
  specialize (Hd2 ltac:(lia)).
  pose proof (digits2_pos_bounds m1) as [_ Hhi].
  pose proof (digits2_pos_bounds m2) as [Hlo _].
  rewrite Hd2 in Hlo.
  assert (Hc : 0 < 2 ^ (e1 - emin)) by (apply Z.pow_pos_nonneg; lia).
  assert (Hm1 : Zpos m1 < 2 ^ prec).
  { apply Z.lt_le_trans with (1 := Hhi). apply Z.pow_le_mono_r; lia. }
  assert (Hstep : 2 * 2 ^ (e1 - emin) <= 2 ^ (e2 - emin)).
  { rewrite <- Z.pow_succ_r by lia. apply Z.pow_le_mono_r; lia. }
  assert (Hp : 2 ^ prec = 2 * 2 ^ (prec - 1)).
  { rewrite <- Z.pow_succ_r by lia. f_equal. lia. }
  nia.
Qed.

Lemma compare_finite_pos (s1 s2 : bool) (m1 m2 : positive) (e1 e2 : Z) :
  valid_binary prec emax (S754_finite s1 m1 e1) = true ->
  valid_binary prec emax (S754_finite s2 m2 e2) = true ->
  (Zpos m1 * 2 ^ (e1 - emin) ?= Zpos m2 * 2 ^ (e2 - emin)) =
  match e1 ?= e2 with
  | Lt => Lt
  | Gt => Gt
  | Eq => Pos.compare_cont Eq m1 m2
  end.
Proof.
  intros H1 H2. destruct (Z.compare_spec e1 e2) as [He | He | He].
  - subst e2. pose proof (valid_finite _ _ _ H1) as (He & _).
    rewrite compare_scale by (apply Z.pow_pos_nonneg; lia). reflexivity.
  - apply Z.compare_lt_iff. eapply scaled_lt_of_exponent; eassumption.
  - apply Z.compare_gt_iff. eapply scaled_lt_of_exponent; eassumption.
Qed.

(** IEEE comparison of valid numbers is the comparison of their values. *)
Theorem SFcompare_scaled (x y : spec_float) :
  ordered prec emax x = true -> ordered prec emax y = true ->
  SFcompare x y = Some (scaled prec emax x ?= scaled prec emax y).
Proof.
  unfold ordered. rewrite !andb_true_iff. intros [Hx Nx] [Hy Ny].
  assert (Hinf : 0 < 2 ^ (emax - emin))
    by (apply Z.pow_pos_nonneg; unfold SpecFloat.emin; lia).
  destruct x as [sx | sx | | sx mx ex]; try discriminate Nx;
  destruct y as [sy | sy | | sy my ey]; try discriminate Ny;
  clear Nx Ny; cbn [SFcompare scaled]; f_equal; symmetry;
  try pose proof (scaled_finite_bounds _ _ _ Hx) as Bx;
  try pose proof (scaled_finite_bounds _ _ _ Hy) as By.
  - destruct sy; cbn [cond_Zopp]; [apply Z.compare_gt_iff | apply Z.compare_lt_iff]; lia.
  - destruct sy; cbn [cond_Zopp]; [apply Z.compare_gt_iff | apply Z.compare_lt_iff]; lia.
  - destruct sx; cbn [cond_Zopp]; [apply Z.compare_lt_iff | apply Z.compare_gt_iff]; lia.
  - destruct sx, sy; cbn [cond_Zopp];
      first [apply Z.compare_refl | apply Z.compare_lt_iff; lia | apply Z.compare_gt_iff; lia].
  - destruct sx, sy; cbn [cond_Zopp];
      first [apply Z.compare_lt_iff; lia | apply Z.compare_gt_iff; lia].
  - destruct sx; cbn [cond_Zopp]; [apply Z.compare_lt_iff | apply Z.compare_gt_iff]; lia.
  - destruct sx, sy; cbn [cond_Zopp];
      first [apply Z.compare_lt_iff; lia | apply Z.compare_gt_iff; lia].
  - destruct sx, sy; cbn [cond_Zopp].
    + rewrite Z.compare_opp, (compare_finite_pos _ _ _ _ _ _ Hy Hx).
      rewrite (Z.compare_antisym ex ey), (Pos.compare_cont_antisym mx my Eq).
      destruct (ex ?= ey); reflexivity.
    + apply Z.compare_lt_iff; lia.
    + apply Z.compare_gt_iff; lia.
    + apply (compare_finite_pos _ _ _ _ _ _ Hx Hy).
Qed.

(** Consequences used by the ranking step. *)
Corollary SFleb_scaled (x y : spec_float) :
  ordered prec emax x = true -> ordered prec emax y = true ->
  SFleb x y = (scaled prec emax x <=? scaled prec emax y).
Proof.
  intros Hx Hy. unfold SFleb. rewrite (SFcompare_scaled x y Hx Hy).
  unfold Z.leb. destruct (scaled prec emax x ?= scaled prec emax y); reflexivity.
Qed.

Corollary SFeqb_scaled (x y : spec_float) :
  ordered prec emax x = true -> ordered prec emax y = true ->
  SFeqb x y = (scaled prec emax x =? scaled prec emax y).
Proof.
  intros Hx Hy. unfold SFeqb. rewrite (SFcompare_scaled x y Hx Hy).
  rewrite Z.eqb_compare. reflexivity.
Qed.

End Format.

End FloatFacts.

(** ** The sort

    The lemmas are stated for a comparator that, on the elements at hand
    (those satisfying [P]), orders by a key in descending order.  That is
    what [b.similarity - a.similarity] does on numbers other than NaN. *)

Module SortFacts.
Import JS.

Section Keyed.

Context {A : Type}.
Variable comparefn : A -> A -> number.
Variable key : A -> Z.
Variable P : A -> Prop.
Hypothesis SortCompare_key :
  forall x y, P x -> P y -> SortCompare comparefn x y = (key y ?= key x).

Local Abbreviation descending := (Run.descending key).

Lemma before_key (x y : A) :
  P x -> P y -> before comparefn x y = (key y <? key x).
Proof.
  intros Px Py. unfold before. rewrite (SortCompare_key x y Px Py).
  unfold Z.ltb. destruct (key y ?= key x); reflexivity.
Qed.

(** *** The sort permutes *)

Lemma CountAndMakeRun_perm (l : list A) :
  Permutation (fst (CountAndMakeRun comparefn l) ++ snd (CountAndMakeRun comparefn l)) l.
Proof.
  unfold CountAndMakeRun. destruct l as [| x0 [| x1 rest]]; cbn [fst snd].
  - reflexivity.
  - reflexivity.
  - set (n := (2 + _)%nat).
    transitivity (firstn n (x0 :: x1 :: rest) ++ skipn n (x0 :: x1 :: rest))%list.
    + apply Permutation_app_tail.
      destruct (before comparefn x1 x0); [symmetry; apply Permutation_rev | reflexivity].
    + now rewrite firstn_skipn.
Qed.

Lemma BinaryInsert_perm (l : list A) (x : A) :
  Permutation (BinaryInsert comparefn l x) (x :: l).
Proof.
  unfold BinaryInsert. set (n := search _ _ _ _ _ _).
  transitivity (x :: firstn n l ++ skipn n l)%list.
  - symmetry. apply Permutation_middle.
  - now rewrite firstn_skipn.
Qed.

Lemma BinaryInsertionSort_perm (run rest : list A) :
  Permutation (BinaryInsertionSort comparefn run rest) (run ++ rest).
Proof.
  unfold BinaryInsertionSort. revert run.
  induction rest as [| x rest IH]; intros run; cbn [fold_left].
  - now rewrite app_nil_r.
  - rewrite IH, BinaryInsert_perm. apply Permutation_middle.
Qed.

Lemma sort_perm (l : list A) : Permutation (sort comparefn l) l.
Proof.
  unfold sort. pose proof (CountAndMakeRun_perm l) as H.
  destruct (CountAndMakeRun comparefn l) as [run rest]. cbn [fst snd] in H.
  now rewrite BinaryInsertionSort_perm.
Qed.

Lemma sort_length (l : list A) : List.length (sort comparefn l) = List.length l.
Proof. apply Permutation_length, sort_perm. Qed.

Lemma sort_In (x : A) (l : list A) : In x (sort comparefn l) <-> In x l.
Proof.
  split; apply Permutation_in; [| symmetry]; apply sort_perm.
Qed.

Lemma sort_Forall (Q : A -> Prop) (l : list A) :
  Forall Q l -> Forall Q (sort comparefn l).
Proof.
  intros H. eapply Permutation_Forall; [symmetry; apply sort_perm | exact H].
Qed.

(** *** The run that starts the array *)

(** The order of a run before it is made: non-descending, or strictly
    descending, in the comparator's order. *)
Local Abbreviation follows isDescending :=
  (fun a b : A => if isDescending : bool then key a < key b else key b <= key a).

Lemma run_rest_sorted (isDescending : bool) (previous : A) (l : list A) :
  P previous -> Forall P l ->
  Sorted (follows isDescending)
         (previous :: firstn (run_rest comparefn isDescending previous l) l).
Proof.
  revert previous. induction l as [| current l IH]; intros previous Pp Pl; cbn [run_rest].
  - cbn [firstn]. repeat constructor.
  - inversion Pl as [| ? ? Pc Pl']; subst.
    rewrite (before_key current previous Pc Pp).
    destruct (Bool.eqb (key previous <? key current) isDescending) eqn:E; cbn [firstn].
    + constructor; [now apply IH |]. constructor.
      apply eqb_prop in E. subst isDescending.
      destruct (Z.ltb_spec (key previous) (key current)); lia.
    + repeat constructor.
Qed.

Lemma filter_rev_singleton (f : A -> bool) (l : list A) :
  (List.length (filter f l) <= 1)%nat -> filter f (rev l) = filter f l.
Proof.
  intros H.
  assert (E : filter f (rev l) = rev (filter f l)).
  { clear H. induction l as [| a l IH]; [reflexivity |].
    cbn [rev filter]. rewrite filter_app, IH. cbn [filter].
    destruct (f a); cbn [rev]; [reflexivity | now rewrite app_nil_r]. }
  rewrite E. destruct (filter f l) as [| a [| b t]]; [reflexivity | reflexivity |].
  cbn in H. lia.
Qed.

Lemma ascending_filter (k : Z) (l : list A) :
  StronglySorted (fun a b => key a < key b) l ->
  (List.length (filter (fun a => (key a =? k)%Z) l) <= 1)%nat.
Proof.
  induction 1 as [| x l Hs IH Hx]; cbn [filter]; [cbn; lia |].
  destruct (Z.eqb_spec (key x) k) as [E | E]; [| exact IH].
  assert (Hnone : filter (fun a => key a =? k) l = []).
  { clear IH Hs. induction l as [| y l IHl]; [reflexivity |].
    inversion Hx as [| ? ? Hy Hl]; subst. cbn [filter].
    destruct (Z.eqb_spec (key y) (key x)); [lia | now apply IHl]. }
  rewrite Hnone. cbn. lia.
Qed.

Lemma StronglySorted_middle (R : A -> A -> Prop) (l1 l2 : list A) (p : A) :
  StronglySorted R (l1 ++ l2) ->
  Forall (fun x => R x p) l1 -> Forall (R p) l2 ->
  StronglySorted R (l1 ++ p :: l2).
Proof.
  induction l1 as [| a l1 IH]; cbn [app]; intros Hs H1 H2.
  - now constructor.
  - inversion Hs as [| ? ? Hs' Ha]; subst. inversion H1 as [| ? ? Hap H1']; subst.
    constructor; [now apply IH |].
    apply Forall_app in Ha as [Ha1 Ha2]. apply Forall_app. split; [exact Ha1 |].
    now constructor.
Qed.

Lemma rev_StronglySorted (R : A -> A -> Prop) (l : list A) :
  StronglySorted R l -> StronglySorted (fun a b => R b a) (rev l).
Proof.
  induction 1 as [| x l Hs IH Hx]; cbn [rev]; [constructor |].
  apply StronglySorted_middle.
  - now rewrite app_nil_r.
  - apply Forall_rev. exact Hx.
  - constructor.
Qed.

Lemma StronglySorted_strict (l : list A) :
  StronglySorted (fun a b => key b < key a) l -> StronglySorted descending l.
Proof.
  induction 1 as [| x l Hs IH Hx]; constructor; [exact IH |].
  eapply Forall_impl; [| exact Hx]. unfold Run.descending. intros; lia.
Qed.

Lemma run_made (l : list A) :
  Forall P l ->
  StronglySorted descending (fst (CountAndMakeRun comparefn l)) /\
  forall k, filter (fun a => key a =? k)
                   (fst (CountAndMakeRun comparefn l) ++ snd (CountAndMakeRun comparefn l)) =
            filter (fun a => key a =? k) l.
Proof.
  intros Pl. unfold CountAndMakeRun. destruct l as [| x0 [| x1 rest]]; cbn [fst snd].
  - split; [constructor | reflexivity].
  - split; [repeat constructor | reflexivity].
  - inversion Pl as [| ? ? P0 Pl']; subst. inversion Pl' as [| ? ? P1 Prest]; subst.
    rewrite (before_key x1 x0 P1 P0).
    set (d := key x0 <? key x1).
    pose proof (run_rest_sorted d x1 rest P1 Prest) as Hs.
    assert (Hrun : Sorted (follows d)
                     (x0 :: x1 :: firstn (run_rest comparefn d x1 rest) rest)).
    { constructor; [exact Hs |]. constructor. unfold d.
      destruct (Z.ltb_spec (key x0) (key x1)); lia. }
    change (firstn (2 + run_rest comparefn d x1 rest) (x0 :: x1 :: rest))
      with (x0 :: x1 :: firstn (run_rest comparefn d x1 rest) rest).
    set (run := x0 :: x1 :: firstn (run_rest comparefn d x1 rest) rest) in *.
    assert (Hall : forall k,
               filter (fun a => key a =? k) (run ++ skipn (2 + run_rest comparefn d x1 rest)
                                                      (x0 :: x1 :: rest)) =
               filter (fun a => key a =? k) (x0 :: x1 :: rest)).
    { intros k. f_equal.
      change run with (firstn (2 + run_rest comparefn d x1 rest) (x0 :: x1 :: rest)).
      apply firstn_skipn. }
    destruct d.
    + apply Sorted_StronglySorted in Hrun; [| intros a b c; cbn; lia].
      split.
      * apply StronglySorted_strict. exact (rev_StronglySorted _ _ Hrun).
      * intros k. rewrite <- Hall, !filter_app. f_equal.
        apply filter_rev_singleton, ascending_filter. exact Hrun.
    + apply Sorted_StronglySorted in Hrun; [| intros a b c; cbn; lia].
      split; [exact Hrun | exact Hall].
Qed.

(** *** The binary insertion *)

Lemma StronglySorted_app_split (R : A -> A -> Prop) (l1 l2 : list A) :
  StronglySorted R (l1 ++ l2) ->
  StronglySorted R l1 /\ StronglySorted R l2 /\
  forall x y, In x l1 -> In y l2 -> R x y.
Proof.
  induction l1 as [| a l1 IH]; cbn [app]; intros Hs.
  - split; [constructor |]. split; [exact Hs |]. intros x y [].
  - inversion Hs as [| ? ? Hs' Ha]; subst.
    destruct (IH Hs') as (H1 & H2 & H12).
    apply Forall_app in Ha as [Ha1 Ha2].
    split; [now constructor |]. split; [exact H2 |].
    intros x y [<- | Hx] Hy; [| now apply H12].
    rewrite Forall_forall in Ha2. now apply Ha2.
Qed.

(** The place the search returns: what is before it is no smaller than
    the pivot, in the order of the keys, and what is after it is smaller. *)
Lemma search_spec (pivot : A) (l : list A) (steps left right : nat) :
  P pivot -> Forall P l -> StronglySorted descending l ->
  (left <= right <= List.length l)%nat -> (right - left <= steps)%nat ->
  Forall (fun x => key pivot <= key x) (firstn left l) ->
  Forall (fun x => key x < key pivot) (skipn right l) ->
  let r := search comparefn steps pivot l left right in
  Forall (fun x => key pivot <= key x) (firstn r l) /\
  Forall (fun x => key x < key pivot) (skipn r l).
Proof.
  intros Pp Pl Hs. revert left right.
  induction steps as [| steps IH]; intros left right Hlr Hsteps Hleft Hright; cbn [search].
  - replace left with right at 2 by lia. now split.
  - destruct (Nat.ltb_spec left right) as [Hlt | Hge].
    + set (mid := (left + (right - left) / 2)%nat).
      assert (Hhalf : ((right - left) / 2 < right - left)%nat)
        by (apply Nat.div_lt; lia).
      assert (Hmid : (left <= mid < right)%nat) by (unfold mid; lia).
      destruct (nth_error l mid) as [x |] eqn:Ex.
      2:{ apply nth_error_None in Ex. lia. }
      destruct (nth_error_split l mid Ex) as (l1 & l2 & El & Hl1).
      assert (Px : P x).
      { rewrite Forall_forall in Pl. apply Pl. rewrite El. apply in_or_app. right. now left. }
      pose proof Hs as Hs'. rewrite El in Hs'.
      destruct (StronglySorted_app_split _ _ _ Hs') as (_ & Hx2 & H12).
      apply StronglySorted_inv in Hx2 as [_ Hl2].
      rewrite (before_key pivot x Pp Px).
      destruct (Z.ltb_spec (key x) (key pivot)) as [Hk | Hk].
      * apply IH; try lia; [exact Hleft |].
        rewrite El, skipn_app, Hl1, Nat.sub_diag, skipn_all2 by lia. cbn [skipn app].
        constructor; [exact Hk |].
        eapply Forall_impl; [| exact Hl2]. unfold Run.descending. intros; lia.
      * apply IH; try lia; [| exact Hright].
        rewrite El. replace (S mid) with (List.length (l1 ++ [x]))
          by (rewrite length_app, Hl1; cbn; lia).
        replace (l1 ++ x :: l2)%list with ((l1 ++ [x]) ++ l2)%list
          by (rewrite <- app_assoc; reflexivity).
        rewrite firstn_app, firstn_all, Nat.sub_diag. cbn [firstn]. rewrite app_nil_r.
        apply Forall_app. split; [| now repeat constructor].
        apply Forall_forall. intros y Hy.
        specialize (H12 y x Hy ltac:(now left)). unfold Run.descending in H12. lia.
    + replace left with right at 2 by lia. now split.
Qed.

Lemma BinaryInsert_spec (l : list A) (pivot : A) :
  P pivot -> Forall P l -> StronglySorted descending l ->
  StronglySorted descending (BinaryInsert comparefn l pivot) /\
  forall k, filter (fun a => key a =? k) (BinaryInsert comparefn l pivot) =
            (filter (fun a => key a =? k) l ++ filter (fun a => key a =? k) [pivot])%list.
Proof.
  intros Pp Pl Hs. unfold BinaryInsert.
  destruct (search_spec pivot l (List.length l) 0 (List.length l) Pp Pl Hs)
    as [Hbefore Hafter]; try lia.
  { cbn [firstn]. constructor. }
  { rewrite skipn_all. constructor. }
  set (r := search comparefn (List.length l) pivot l 0 (List.length l)) in *.
  split.
  - apply StronglySorted_middle.
    + now rewrite firstn_skipn.
    + eapply Forall_impl; [| exact Hbefore]. unfold Run.descending. intros; lia.
    + eapply Forall_impl; [| exact Hafter]. unfold Run.descending. intros; lia.
  - intros k. rewrite <- (firstn_skipn r l) at 3.
    rewrite !filter_app. cbn [filter].
    destruct (Z.eqb_spec (key pivot) k) as [E | E].
    + assert (Hnone : filter (fun a => key a =? k) (skipn r l) = []).
      { clear - Hafter E. induction Hafter as [| y t Hy _ IHt]; [reflexivity |].
        cbn [filter]. destruct (Z.eqb_spec (key y) k); [lia | exact IHt]. }
      rewrite Hnone, !app_nil_r. reflexivity.
    + now rewrite !app_nil_r.
Qed.

Lemma BinaryInsertionSort_spec (run rest : list A) :
  Forall P run -> Forall P rest -> StronglySorted descending run ->
  StronglySorted descending (BinaryInsertionSort comparefn run rest) /\
  forall k, filter (fun a => key a =? k) (BinaryInsertionSort comparefn run rest) =
            filter (fun a => key a =? k) (run ++ rest).
Proof.
  unfold BinaryInsertionSort. revert run.
  induction rest as [| x rest IH]; intros run Prun Prest Hs; cbn [fold_left].
  - split; [exact Hs | now rewrite app_nil_r].
  - inversion Prest as [| ? ? Px Prest']; subst.
    destruct (BinaryInsert_spec run x Px Prun Hs) as [Hs' Hf].
    destruct (IH (BinaryInsert comparefn run x)) as [Hs'' Hf'']; try assumption.
    { eapply Permutation_Forall; [symmetry; apply BinaryInsert_perm |]. now constructor. }
    split; [exact Hs'' |].
    intros k. rewrite Hf'', !filter_app, Hf. cbn [filter].
    destruct (key x =? k); now rewrite <- ?app_assoc.
Qed.

Lemma sort_spec (l : list A) :
  Forall P l ->
  StronglySorted descending (sort comparefn l) /\
  forall k, filter (fun a => key a =? k) (sort comparefn l) = filter (fun a => key a =? k) l.
Proof.
  intros Pl. unfold sort.
  destruct (run_made l Pl) as [Hrun Hfilter].
  pose proof (CountAndMakeRun_perm l) as Hperm.
  destruct (CountAndMakeRun comparefn l) as [run rest]. cbn [fst snd] in *.
  assert (Pall : Forall P (run ++ rest))
    by (eapply Permutation_Forall; [symmetry; exact Hperm | exact Pl]).
  apply Forall_app in Pall as [Prun Prest].
  destruct (BinaryInsertionSort_spec run rest Prun Prest Hrun) as [Hs Hf].
  split; [exact Hs |]. intros k. now rewrite Hf.
Qed.

Lemma sort_sorted (l : list A) :
  Forall P l -> StronglySorted descending (sort comparefn l).
Proof. intros Pl. apply sort_spec, Pl. Qed.

(** Stability: the elements of any one key keep their order. *)
Lemma sort_stable (k : Z) (l : list A) :
  Forall P l ->
  filter (fun a => key a =? k) (sort comparefn l) = filter (fun a => key a =? k) l.
Proof. intros Pl. apply sort_spec, Pl. Qed.

(** Two descending lists with the same elements of every key, in the same
    order, are equal. *)
Lemma descending_unique (l1 l2 : list A) :
  StronglySorted descending l1 ->
  StronglySorted descending l2 ->
  (forall k, filter (fun a => key a =? k) l1 = filter (fun a => key a =? k) l2) ->
  l1 = l2.
Proof.
  intros H1. revert l2. induction H1 as [| x l1 H1 IH Hx]; intros l2 H2 Hf.
  - destruct l2 as [| y l2]; [reflexivity |].
    specialize (Hf (key y)). cbn [filter] in Hf. rewrite Z.eqb_refl in Hf. discriminate.
  - destruct l2 as [| y l2].
    { specialize (Hf (key x)). cbn [filter] in Hf. rewrite Z.eqb_refl in Hf. discriminate. }
    inversion H2 as [| ? ? H2' Hy]; subst.
    assert (Hxy : key y <= key x).
    { pose proof (Hf (key y)) as Hk. cbn [filter] in Hk. rewrite Z.eqb_refl in Hk.
      destruct (Z.eqb_spec (key x) (key y)) as [E | E]; [lia |].
      assert (Hin : In y (filter (fun a => key a =? key y) l1))
        by (rewrite Hk; now left).
      apply filter_In in Hin as [Hin _].
      rewrite Forall_forall in Hx. apply (Hx y Hin). }
    assert (Hyx : key x <= key y).
    { pose proof (Hf (key x)) as Hk. cbn [filter] in Hk. rewrite Z.eqb_refl in Hk.
      destruct (Z.eqb_spec (key y) (key x)) as [E | E]; [lia |].
      assert (Hin : In x (filter (fun a => key a =? key x) l2))
        by (rewrite <- Hk; now left).
      apply filter_In in Hin as [Hin _].
      rewrite Forall_forall in Hy. apply (Hy x Hin). }
    assert (E : key x = key y) by lia.
    pose proof (Hf (key x)) as Hk. cbn [filter] in Hk.
    rewrite <- E, Z.eqb_refl in Hk. injection Hk as -> Hk.
    f_equal. apply IH; [assumption |].
    intros k. specialize (Hf k). cbn [filter] in Hf.
    destruct (key y =? k); [now injection Hf | assumption].
Qed.

(** Whatever stable sorting algorithm the engine runs, it returns what
    [sort] returns: the result of a stable sort is determined by being a
    descending arrangement that keeps the order within each key. *)
Theorem sort_unique (l l' : list A) :
  Forall P l ->
  StronglySorted descending l' ->
  (forall k, filter (fun a => key a =? k) l' = filter (fun a => key a =? k) l) ->
  l' = sort comparefn l.
Proof.
  intros Pl Hs Hf. apply descending_unique; [assumption | now apply sort_sorted |].
  intros k. now rewrite Hf, sort_stable.
Qed.

End Keyed.

End SortFacts.

(** ** Lists and slices *)

Module ListFacts.
Import JS.

Lemma StronglySorted_firstn {A : Type} (R : A -> A -> Prop) (n : nat) (l : list A) :
  StronglySorted R l -> StronglySorted R (firstn n l).
Proof.
  intros H. revert n. induction H as [| x l H IH Hx]; intros [| n]; cbn [firstn];
    try constructor.
  - apply IH.
  - rewrite Forall_forall in *. intros y Hy. apply Hx.
    rewrite <- (firstn_skipn n l). apply in_or_app. now left.
Qed.

Lemma StronglySorted_map {A B : Type} (R : B -> B -> Prop) (f : A -> B) (l : list A) :
  StronglySorted (fun x y => R (f x) (f y)) l -> StronglySorted R (map f l).
Proof.
  induction 1 as [| x l H IH Hx]; cbn [map]; constructor; [assumption |].
  rewrite Forall_map. exact Hx.
Qed.

(** The elements of a prefix that pass a test are a prefix of the elements
    of the list that pass it. *)
Lemma filter_firstn {A : Type} (f : A -> bool) (n : nat) (l : list A) :
  filter f (firstn n l) = firstn (List.length (filter f (firstn n l))) (filter f l).
Proof.
  revert n. induction l as [| x l IH]; intros [| n]; cbn [firstn filter List.length];
    try reflexivity.
  destruct (f x); cbn [List.length firstn]; [f_equal |]; apply IH.
Qed.

Lemma slice0_firstn {A : Type} (l : list A) (e : number) :
  exists n, slice0 l e = firstn n l.
Proof. unfold slice0. eexists. reflexivity. Qed.

Lemma slice0_nonneg {A : Type} (l : list A) (e : number) (k : Z) :
  ToIntegerOrInfinity e = Integer k -> 0 <= k ->
  slice0 l e = firstn (Z.to_nat k) l.
Proof.
  intros He Hk. unfold slice0. rewrite He.
  destruct (Z.ltb_spec k 0) as [Hlt | _]; [lia |].
  destruct (Z.le_gt_cases k (Z.of_nat (List.length l))) as [Hle | Hgt].
  - now rewrite Z.min_l.
  - rewrite Z.min_r, Nat2Z.id by lia.
    rewrite !firstn_all2; [reflexivity | lia | lia].
Qed.

Lemma slice0_negative {A : Type} (l : list A) (e : number) (k : Z) :
  ToIntegerOrInfinity e = Integer k -> k < 0 ->
  slice0 l e = firstn (List.length l - Z.to_nat (- k)) l.
Proof.
  intros He Hk. unfold slice0. rewrite He.
  destruct (Z.ltb_spec k 0) as [_ | Hge]; [| lia].
  f_equal. lia.
Qed.

(** Elements found in a filtered list are found, in the same order, in the
    list itself. *)
Lemma filter_split {A : Type} (f : A -> bool) (l : list A) (X : list A) (y : A) (Y : list A) :
  filter f l = (X ++ y :: Y)%list ->
  exists l1 l2, l = (l1 ++ y :: l2)%list /\ filter f l1 = X /\ filter f l2 = Y.
Proof.
  revert X. induction l as [| a l IH]; intros X H; cbn [filter] in H.
  - destruct X; discriminate.
  - destruct (f a) eqn:Fa.
    + destruct X as [| x X]; cbn [app] in H; injection H as -> H.
      * exists [], l. repeat split. exact H.
      * destruct (IH X H) as (l1 & l2 & -> & H1 & H2).
        exists (x :: l1), l2. repeat split; [| exact H2].
        cbn [filter]. now rewrite Fa, H1.
    + destruct (IH X H) as (l1 & l2 & -> & H1 & H2).
      exists (a :: l1), l2. repeat split; [| exact H2].
      cbn [filter]. now rewrite Fa.
Qed.

(** A prefix of a duplicate-free list that contains an element contains
    everything before it. *)
Lemma firstn_reaches {A : Type} (n : nat) (X : list A) (y : A) (Y : list A) :
  NoDup (X ++ y :: Y) ->
  In y (firstn n (X ++ y :: Y)) ->
  exists Y', firstn n (X ++ y :: Y) = (X ++ y :: Y')%list.
Proof.
  intros Hnd Hin.
  assert (HnX : ~ In y X).
  { apply NoDup_remove_2 in Hnd. intros H. apply Hnd. apply in_or_app. now left. }
  rewrite firstn_app in Hin |- *.
  destruct (Nat.le_gt_cases n (List.length X)) as [Hle | Hgt].
  - exfalso. replace (n - List.length X)%nat with 0%nat in Hin by lia.
    cbn [firstn] in Hin. rewrite app_nil_r in Hin.
    apply HnX. rewrite <- (firstn_skipn n X). apply in_or_app. now left.
  - rewrite firstn_all2 by lia.
    destruct (n - List.length X)%nat as [| k] eqn:Hk; [lia |].
    cbn [firstn]. eexists. reflexivity.
Qed.

Lemma append_empty (s : string) : (s ++ "")%string = s.
Proof. induction s as [| c s IH]; cbn; [reflexivity | now rewrite IH]. Qed.

End ListFacts.

(** ** Runs of the pipeline *)

Module RagFacts.
Import JS Eff Rag Run.

Section Pipeline.

Variable cosineSimilarity : list number -> list number -> number.

Abbreviation getRAGContext := (Rag.getRAGContext cosineSimilarity).
Abbreviation POST := (Rag.POST cosineSimilarity).
Abbreviation result_of := (Run.result_of cosineSimilarity).
Abbreviation retrieval := (Run.retrieval cosineSimilarity).

Lemma guard_false (question : value) :
  negb (ToBoolean question) || negb (typeof question =? "string")%string = false <->
  exists q, question = Str q /\ q <> ""%string.
Proof.
  split.
  - destruct question as [| | b | n | s |]; cbn; rewrite ?orb_true_r; try discriminate.
    rewrite orb_false_r, negb_involutive. intros H.
    exists s. split; [reflexivity |]. now apply String.eqb_neq.
  - intros (q & -> & Hq). cbn. apply String.eqb_neq in Hq. now rewrite Hq.
Qed.

Lemma guard_true (question : value) :
  question = Str ""%string \/ typeof question <> "string"%string ->
  negb (ToBoolean question) || negb (typeof question =? "string")%string = true.
Proof.
  intros [-> | H]; [reflexivity |].
  apply String.eqb_neq in H. rewrite H. apply orb_true_r.
Qed.

Lemma getRAGContext_success env question topK q qe chunks :
  reaches_ranking env question q qe chunks ->
  getRAGContext env question topK =
  (trace_of q qe chunks, Normal (result_of q qe chunks (topK_or_default topK))).
Proof.
  intros [-> Hq Hkey Hc He].
  unfold Rag.getRAGContext, attempt, bind, loadChunks, getEmbedding, perform, lift,
    scoreChunks, ret, bind.
  apply String.eqb_neq in Hq.
  cbn [ToBoolean typeof string_of]. rewrite Hq. cbn [negb orb String.eqb Ascii.eqb Bool.eqb andb].
  rewrite Hkey, Hc, He. cbn [negb app]. rewrite !app_nil_r.
  reflexivity.
Qed.

Lemma POST_success env question topK q qe chunks :
  reaches_ranking env question q qe chunks ->
  POST env {| json := Normal {| req_question := question; req_topK := topK |} |} =
  (trace_of q qe chunks,
   NextResponse_json (ResultBody (result_of q qe chunks (topK_or_default topK))) None).
Proof.
  intros [-> Hq Hkey Hc He].
  unfold Rag.POST, handle, attempt, bind, loadChunks, getEmbedding, perform, lift,
    scoreChunks, ret, bind.
  apply String.eqb_neq in Hq.
  cbn [json req_question req_topK ToBoolean typeof string_of]. rewrite Hq.
  cbn [negb orb String.eqb Ascii.eqb Bool.eqb andb].
  rewrite Hkey, Hc, He. cbn [negb app]. rewrite !app_nil_r.
  reflexivity.
Qed.


Ltac reach := constructor; first [reflexivity | assumption].

(** A run that ends before the ranking step yields no result. *)
Lemma getRAGContext_Normal env question topK t r :
  getRAGContext env question topK = (t, Normal r) ->
  exists q qe chunks,
    reaches_ranking env question q qe chunks /\
    r = result_of q qe chunks (topK_or_default topK).
Proof.
  intros H.
  destruct (negb (ToBoolean question) || negb (typeof question =? "string")%string) eqn:G.
  - unfold Rag.getRAGContext, attempt in H. rewrite G in H. cbn in H. discriminate.
  - pose proof G as G'. apply guard_false in G' as (q & -> & Hq).
    destruct (truthy_env (OPENAI_API_KEY env)) eqn:Hkey;
    destruct (corpus_file env) as [chunks | e1] eqn:Hc;
    try destruct (embeddings_create env q) as [qe | e2] eqn:He;
    try (exists q, qe, chunks; split; [reach |];
         rewrite (getRAGContext_success env (Str q) topK q qe chunks) in H by reach;
         now injection H as _ <-);
    exfalso; revert H;
    unfold Rag.getRAGContext, attempt, bind, loadChunks, getEmbedding, perform, lift,
      scoreChunks, ret, throw, bind;
    rewrite G; cbn [string_of]; rewrite ?Hkey, ?Hc, ?He; cbn; discriminate.
Qed.

Lemma POST_ResultBody env question topK t st r :
  POST env (request question topK) = (t, {| status := st; body := ResultBody r |}) ->
  exists q qe chunks,
    reaches_ranking env question q qe chunks /\
    r = result_of q qe chunks (topK_or_default topK).
Proof.
  intros H.
  destruct (negb (ToBoolean question) || negb (typeof question =? "string")%string) eqn:G.
  - unfold Rag.POST, handle, bind, lift, request in H. cbn [json req_question] in H.
    rewrite G in H. cbn in H. discriminate.
  - pose proof G as G'. apply guard_false in G' as (q & -> & Hq).
    destruct (truthy_env (OPENAI_API_KEY env)) eqn:Hkey;
    destruct (corpus_file env) as [chunks | e1] eqn:Hc;
    try destruct (embeddings_create env q) as [qe | e2] eqn:He;
    try (exists q, qe, chunks; split; [reach |];
         unfold request in H;
         rewrite (POST_success env (Str q) topK q qe chunks) in H by reach;
         now injection H as _ _ <-);
    exfalso; revert H;
    unfold Rag.POST, handle, attempt, bind, loadChunks, getEmbedding, perform, lift,
      scoreChunks, ret, throw, bind, request;
    cbn [json req_question req_topK]; rewrite G; cbn [string_of];
    rewrite ?Hkey, ?Hc, ?He; cbn; discriminate.
Qed.

Lemma retrieval_inv env question topK r :
  retrieval env question topK r ->
  exists q qe chunks,
    reaches_ranking env question q qe chunks /\
    r = result_of q qe chunks (topK_or_default topK).
Proof.
  intros [t H | t st H]; [eapply getRAGContext_Normal | eapply POST_ResultBody]; eassumption.
Qed.

(** The same, against the corpus and the embedding of the run. *)
Lemma retrieval_result env question topK r chunks qe :
  retrieval env question topK r ->
  corpus_file env = Normal chunks ->
  embeddings_create env (string_of question) = Normal qe ->
  r = result_of (string_of question) qe chunks (topK_or_default topK).
Proof.
  intros H Hc He. apply retrieval_inv in H as (q & qe' & chunks' & [-> _ _ Hc' He'] & ->).
  cbn [string_of] in He |- *. congruence.
Qed.

End Pipeline.

End RagFacts.

(** ** The ranking *)

Module Ranking.
Import JS Eff Rag Run RagFacts.

Lemma prec_pos : 0 < prec.
Proof. reflexivity. Qed.

Lemma prec_lt_emax : prec < emax.
Proof. reflexivity. Qed.

Lemma compareFn_key (x y : ScoredChunk) :
  score_ordered x -> score_ordered y ->
  SortCompare compareFn x y = (score_key y ?= score_key x).
Proof.
  intros Hx Hy. unfold SortCompare, compareFn, score_key.
  apply (FloatFacts.SFsub_sign prec emax prec_pos prec_lt_emax); assumption.
Qed.

Lemma ge_key (a b : number) :
  ordered a = true -> ordered b = true ->
  ge a b = (Float.scaled prec emax b <=? Float.scaled prec emax a).
Proof.
  intros Ha Hb. unfold ge.
  apply (FloatFacts.SFleb_scaled prec emax prec_pos prec_lt_emax); assumption.
Qed.

Lemma strict_eq_key (a b : number) :
  ordered a = true -> ordered b = true ->
  strict_eq a b = (Float.scaled prec emax a =? Float.scaled prec emax b).
Proof.
  intros Ha Hb. unfold strict_eq.
  apply (FloatFacts.SFeqb_scaled prec emax prec_pos prec_lt_emax); assumption.
Qed.

Lemma StronglySorted_weaken {A : Type} (R R' : A -> A -> Prop) (l : list A) :
  (forall x y, In x l -> In y l -> R x y -> R' x y) ->
  StronglySorted R l -> StronglySorted R' l.
Proof.
  intros H Hs. induction Hs as [| x l Hs IH Hx]; constructor.
  - apply IH. intros a b Ha Hb. apply H; now right.
  - rewrite Forall_forall in *. intros y Hy. apply H; [now left | now right | now apply Hx].
Qed.

Section Scores.

Variable cosineSimilarity : list number -> list number -> number.

Abbreviation scores_ordered := (Run.scores_ordered cosineSimilarity).

Lemma scored_ordered qe chunks :
  scores_ordered qe chunks -> Forall score_ordered (scored cosineSimilarity qe chunks).
Proof.
  intros H. unfold scored. rewrite Forall_map. exact H.
Qed.

Lemma ranked_ordered qe chunks topK :
  scores_ordered qe chunks ->
  Forall score_ordered (ranked cosineSimilarity qe chunks topK).
Proof.
  intros H. unfold ranked.
  destruct (ListFacts.slice0_firstn (sort compareFn (scored cosineSimilarity qe chunks)) topK)
    as [n ->].
  apply Forall_forall. intros x Hx.
  assert (Hin : In x (sort compareFn (scored cosineSimilarity qe chunks))).
  { rewrite <- (firstn_skipn n). apply in_or_app. now left. }
  pose proof (scored_ordered qe chunks H) as Hs. rewrite Forall_forall in Hs.
  apply Hs. apply (proj1 (SortFacts.sort_In compareFn x _)). exact Hin.
Qed.

Lemma ranked_non_increasing qe chunks topK :
  scores_ordered qe chunks ->
  non_increasing (map similarity (ranked cosineSimilarity qe chunks topK)).
Proof.
  intros H. unfold non_increasing. apply ListFacts.StronglySorted_map.
  pose proof (ranked_ordered qe chunks topK H) as Ho. rewrite Forall_forall in Ho.
  apply StronglySorted_weaken with (R := Run.descending score_key).
  - intros x y Hx Hy Hd. rewrite ge_key by (apply Ho; assumption).
    apply Z.leb_le. exact Hd.
  - unfold ranked.
    destruct (ListFacts.slice0_firstn (sort compareFn (scored cosineSimilarity qe chunks)) topK)
      as [n ->].
    apply ListFacts.StronglySorted_firstn.
    apply (SortFacts.sort_sorted compareFn score_key score_ordered compareFn_key).
    now apply scored_ordered.
Qed.

Lemma map_pick_similarity (l : list ScoredChunk) :
  map top_similarity (map pick l) = map similarity l.
Proof. rewrite map_map. reflexivity. Qed.

Lemma map_pick_text (l : list ScoredChunk) :
  map top_text (map pick l) = map (fun c => text (chunk c)) l.
Proof. rewrite map_map. reflexivity. Qed.

End Scores.

End Ranking.

Import JS Eff Rag Run RagFacts Ranking.

(** C1 (as amended).  For a corpus of [N] chunks and a caller-supplied
    positive integer [topK = K], the [topChunks] of every retrieval result
    has length exactly [min K N]; and when no chunk scores NaN against the
    query, [topChunks] is sorted by similarity non-increasing. *)
Theorem topChunks_length_and_order
    (cosineSimilarity : list number -> list number -> number)
    (env : Env) (question : value) (topK : number) (K : Z) (r : RetrievalResult)
    (chunks : list SyllabusChunk) (questionEmbedding : list number) :
  retrieval cosineSimilarity env question (Some topK) r ->
  corpus_file env = Normal chunks ->
  embeddings_create env (string_of question) = Normal questionEmbedding ->
  ToIntegerOrInfinity topK = Integer K ->
  0 < K ->
  List.length (topChunks r) = Nat.min (Z.to_nat K) (List.length chunks) /\
  (scores_ordered cosineSimilarity questionEmbedding chunks ->
   non_increasing (map top_similarity (topChunks r))).
Proof.
  intros Hr Hc He HK Hpos.
  rewrite (retrieval_result _ _ _ _ _ _ _ Hr Hc He).
  unfold result_of. cbn [topChunks topK_or_default].
  split.
  - rewrite length_map. unfold ranked.
    rewrite (ListFacts.slice0_nonneg _ _ K HK) by lia.
    rewrite length_firstn, SortFacts.sort_length. unfold scored. now rewrite length_map.
  - intros Ho. rewrite map_pick_similarity. now apply ranked_non_increasing.
Qed.

Lemma topChunks_length_and_order_witness :
  List.length (topChunks Examples.result_top2) = 2%nat /\
  non_increasing (map top_similarity (topChunks Examples.result_top2)).
Proof.
  assert (Hr : retrieval Utils.cosineSimilarity Examples.env Examples.when
                 (Some Examples.two) Examples.result_top2).
  { eapply from_getRAGContext. vm_compute. reflexivity. }
  destruct (topChunks_length_and_order Utils.cosineSimilarity Examples.env Examples.when
              Examples.two 2 Examples.result_top2
              [Examples.chunk1; Examples.chunk2; Examples.chunk3] Examples.query
              Hr eq_refl eq_refl eq_refl eq_refl) as [Hlen Hsorted].
  split; [exact Hlen |].
  apply Hsorted. repeat constructor.
Defined.

(** Whatever order the engine leaves them in, numbers that include NaN
    are not sorted: NaN is [>=] nothing and nothing is [>=] NaN. *)
Remark NaN_never_sorted (l : list number) :
  In NaN l -> (2 <= List.length l)%nat ->
  ~ Sorted (fun a b => ge a b = true) l.
Proof.
  intros Hin Hlen Hs. induction Hs as [| x l Hs IH Hd]; [cbn in Hlen; lia |].
  destruct Hd as [| y l' Hxy]; [cbn in Hlen; lia |].
  destruct Hin as [-> | Hin].
  - unfold ge, SFleb, NaN in Hxy. destruct y; discriminate.
  - destruct l' as [| z l'].
    + destruct Hin as [-> | []]. unfold ge, SFleb, NaN in Hxy. destruct x; discriminate.
    + apply IH; [exact Hin | cbn; lia].
Qed.

(** C1, the claim as stated, fails: with a zero vector in the corpus the
    three scores are 0, NaN and 1, returned in that order. *)
Lemma order_fails_with_NaN_score :
  retrieval Utils.cosineSimilarity Examples.env_zero_vector Examples.when
    (Some Examples.three) Examples.result_zero_vector /\
  ToIntegerOrInfinity Examples.three = Integer 3 /\
  ~ non_increasing (map top_similarity (topChunks Examples.result_zero_vector)) /\
  (forall l, Permutation l (map top_similarity (topChunks Examples.result_zero_vector)) ->
             ~ Sorted (fun a b => ge a b = true) l).
Proof.
  split; [eapply from_getRAGContext; vm_compute; reflexivity |].
  split; [reflexivity |].
  split.
  - intros H. apply StronglySorted_Sorted in H. revert H.
    apply NaN_never_sorted; cbn; [tauto | lia].
  - intros l Hp. apply NaN_never_sorted.
    + eapply Permutation_in; [symmetry; exact Hp |]. cbn. tauto.
    + rewrite (Permutation_length Hp). cbn. lia.
Qed.



(** C8.  Every entry of [topChunks] is made of the [chunk_id] and the
    [text] of a chunk of the corpus and of that chunk's similarity to the
    question's embedding (an entry has these three fields and no
    embedding), and the result's [question] is the caller's string. *)
Theorem topChunks_entries_and_question
    (cosineSimilarity : list number -> list number -> number)
    (env : Env) (q : value) (topK : option number) (r : RetrievalResult)
    (chunks : list SyllabusChunk) (questionEmbedding : list number) :
  retrieval cosineSimilarity env q topK r ->
  corpus_file env = Normal chunks ->
  embeddings_create env (string_of q) = Normal questionEmbedding ->
  q = Str (question r) /\
  Forall (fun t =>
            exists c, In c chunks /\
              top_chunk_id t = chunk_id c /\
              top_text t = text c /\
              top_similarity t = cosineSimilarity questionEmbedding (embedding c))
         (topChunks r).
Proof.
  intros Hr Hc He.
  pose proof (retrieval_result _ _ _ _ _ _ _ Hr Hc He) as ->.
  apply retrieval_inv in Hr as (s & _ & _ & [-> _ _ _ _] & _).
  split; [reflexivity |].
  unfold result_of. cbn [topChunks string_of]. rewrite Forall_map, Forall_forall.
  intros x Hx. unfold ranked in Hx.
  destruct (ListFacts.slice0_firstn
              (sort compareFn (scored cosineSimilarity questionEmbedding chunks))
              (topK_or_default topK)) as [n Hn].
  rewrite Hn in Hx.
  assert (Hin : In x (sort compareFn (scored cosineSimilarity questionEmbedding chunks))).
  { rewrite <- (firstn_skipn n). apply in_or_app. now left. }
  apply (proj1 (SortFacts.sort_In compareFn x _)) in Hin.
  unfold scored in Hin. apply in_map_iff in Hin as (c & <- & Hin).
  exists c. repeat split. exact Hin.
Qed.

Lemma topChunks_entries_and_question_witness :
  Examples.when = Str (question Examples.result_top2) /\
  Forall (fun t =>
            exists c, In c [Examples.chunk1; Examples.chunk2; Examples.chunk3] /\
              top_chunk_id t = chunk_id c /\
              top_text t = text c /\
              top_similarity t = Utils.cosineSimilarity Examples.query (embedding c))
         (topChunks Examples.result_top2).
Proof.
  apply (topChunks_entries_and_question Utils.cosineSimilarity Examples.env Examples.when
           (Some Examples.two) Examples.result_top2); try reflexivity.
  eapply from_getRAGContext. vm_compute. reflexivity.
Defined.

(** C10.  [topK] is not validated.  For a question that reaches the
    ranking step, a caller-supplied [topK] of 0 or below is accepted by
    both implementations and the run succeeds.  For [topK = 0] the result
    has no chunk and the empty string for context; for a negative [topK]
    its [topChunks] is the sorted order without its last [|topK|] chunks. *)
Theorem nonpositive_topK_is_accepted
    (cosineSimilarity : list number -> list number -> number)
    (env : Env) (q : value) (s : string) (topK : number) (K : Z)
    (chunks : list SyllabusChunk) (questionEmbedding : list number) :
  reaches_ranking env q s questionEmbedding chunks ->
  ToIntegerOrInfinity topK = Integer K ->
  K <= 0 ->
  exists r,
    snd (Rag.getRAGContext cosineSimilarity env q (Some topK)) = Normal r /\
    snd (Rag.POST cosineSimilarity env (request q (Some topK))) =
      NextResponse_json (ResultBody r) None /\
    (K = 0 -> topChunks r = [] /\ context r = ""%string) /\
    (K < 0 ->
     exists kept dropped,
       sort compareFn (scored cosineSimilarity questionEmbedding chunks)
         = (kept ++ dropped)%list /\
       List.length dropped = Nat.min (Z.to_nat (- K)) (List.length chunks) /\
       topChunks r = map pick kept).
Proof.
  intros Hreach HK Hle.
  exists (result_of cosineSimilarity s questionEmbedding chunks topK).
  rewrite (getRAGContext_success cosineSimilarity env q (Some topK) s questionEmbedding chunks Hreach).
  unfold request.
  rewrite (POST_success cosineSimilarity env q (Some topK) s questionEmbedding chunks Hreach).
  cbn [snd topK_or_default]. unfold result_of. cbn [topChunks context].
  split; [reflexivity |]. split; [reflexivity |].
  set (sorted := sort compareFn (scored cosineSimilarity questionEmbedding chunks)).
  assert (Hlen : List.length sorted = List.length chunks).
  { unfold sorted, scored. now rewrite SortFacts.sort_length, length_map. }
  split.
  - intros ->. unfold ranked. fold sorted.
    rewrite (ListFacts.slice0_nonneg _ _ 0 HK) by lia.
    split; reflexivity.
  - intros Hneg. unfold ranked. fold sorted.
    rewrite (ListFacts.slice0_negative _ _ K HK Hneg).
    set (n := (List.length sorted - Z.to_nat (- K))%nat).
    exists (firstn n sorted), (skipn n sorted).
    split; [symmetry; apply firstn_skipn |].
    split; [| reflexivity].
    rewrite length_skipn. unfold n. lia.
Qed.

Lemma nonpositive_topK_is_accepted_witness :
  exists r,
    snd (Rag.getRAGContext Utils.cosineSimilarity Examples.env Examples.when
           (Some Examples.zero)) = Normal r /\
    topChunks r = [] /\ context r = ""%string.
Proof.
  destruct (nonpositive_topK_is_accepted Utils.cosineSimilarity Examples.env Examples.when
              "When is the midterm?" Examples.zero 0
              [Examples.chunk1; Examples.chunk2; Examples.chunk3] Examples.query)
    as (r & Hlib & _ & Hzero & _).
  - constructor; first [reflexivity | discriminate].
  - reflexivity.
  - lia.
  - exists r. split; [exact Hlib |]. apply Hzero. reflexivity.
Defined.

Example negative_topK_drops_the_last :
  snd (Rag.getRAGContext Utils.cosineSimilarity Examples.env Examples.when
         (Some (of_Z (-1)))) = Normal Examples.result_top2.
Proof. vm_compute. reflexivity. Qed.

Lemma filter_map_pick (f : TopChunk -> bool) (l : list ScoredChunk) :
  filter f (map pick l) = map pick (filter (fun c => f (pick c)) l).
Proof.
  induction l as [| x l IH]; cbn [map filter]; [reflexivity |].
  destruct (f (pick x)); cbn [map]; now rewrite IH.
Qed.

Lemma filter_similarity_key (s : number) (l : list ScoredChunk) :
  ordered s = true -> Forall score_ordered l ->
  filter (fun c => strict_eq (top_similarity (pick c)) s) l =
  filter (fun c => score_key c =? Float.scaled prec emax s) l.
Proof.
  intros Hs Hl. apply filter_ext_in. intros c Hc.
  rewrite Forall_forall in Hl. cbn [pick top_similarity].
  apply strict_eq_key; [now apply Hl | exact Hs].
Qed.

(** The entries of [topChunks] with a given score are the first chunks of
    the corpus with that score, in the order of the corpus file. *)
Lemma ties_are_a_prefix
    (cosineSimilarity : list number -> list number -> number)
    (qe : list number) (chunks : list SyllabusChunk) (topK : number) (s : number) :
  scores_ordered cosineSimilarity qe chunks ->
  ordered s = true ->
  exists n,
    with_similarity s (map pick (ranked cosineSimilarity qe chunks topK)) =
    firstn n (with_similarity s (corpus_entries cosineSimilarity qe chunks)).
Proof.
  intros Ho Hs.
  pose proof (scored_ordered cosineSimilarity qe chunks Ho) as Hsc.
  set (sc := scored cosineSimilarity qe chunks) in *.
  assert (Hentries : corpus_entries cosineSimilarity qe chunks = map pick sc).
  { unfold corpus_entries, sc, scored. rewrite map_map. reflexivity. }
  rewrite Hentries. unfold with_similarity, ranked. fold sc.
  destruct (ListFacts.slice0_firstn (sort compareFn sc) topK) as [m ->].
  rewrite !filter_map_pick, ListFacts.filter_firstn.
  rewrite (filter_similarity_key s (sort compareFn sc) Hs)
    by (apply SortFacts.sort_Forall; exact Hsc).
  rewrite (SortFacts.sort_stable compareFn score_key score_ordered compareFn_key _ sc Hsc).
  rewrite <- (filter_similarity_key s sc Hs Hsc).
  rewrite <- firstn_map. eexists. reflexivity.
Qed.

Lemma strict_eq_refl (s : number) : ordered s = true -> strict_eq s s = true.
Proof. intros Hs. rewrite strict_eq_key by assumption. apply Z.eqb_refl. Qed.

Lemma corpus_entries_NoDup
    (cosineSimilarity : list number -> list number -> number)
    (qe : list number) (chunks : list SyllabusChunk) :
  NoDup (map chunk_id chunks) -> NoDup (corpus_entries cosineSimilarity qe chunks).
Proof.
  intros H. apply (NoDup_map_inv top_chunk_id).
  unfold corpus_entries. rewrite map_map. exact H.
Qed.

(** C6.  When no chunk scores NaN, ties are broken by corpus order.  For
    every score [s] of the corpus, the entries of [topChunks] with
    similarity [s] are the first chunks of the corpus with that similarity,
    in the order of the corpus file.  In particular, when chunk identifiers
    are unique and two chunks have equal scores, the later one is among
    [topChunks] only after the earlier one. *)
Theorem ties_keep_corpus_order
    (cosineSimilarity : list number -> list number -> number)
    (env : Env) (q : value) (topK : option number) (r : RetrievalResult)
    (chunks : list SyllabusChunk) (questionEmbedding : list number) :
  retrieval cosineSimilarity env q topK r ->
  corpus_file env = Normal chunks ->
  embeddings_create env (string_of q) = Normal questionEmbedding ->
  scores_ordered cosineSimilarity questionEmbedding chunks ->
  (forall c, In c chunks ->
     let s := cosineSimilarity questionEmbedding (embedding c) in
     exists n,
       with_similarity s (topChunks r) =
       firstn n (with_similarity s (corpus_entries cosineSimilarity questionEmbedding chunks))) /\
  (NoDup (map chunk_id chunks) ->
   forall before earlier between later after,
     chunks = (before ++ earlier :: between ++ later :: after)%list ->
     strict_eq (cosineSimilarity questionEmbedding (embedding earlier))
               (cosineSimilarity questionEmbedding (embedding later)) = true ->
     In (entry cosineSimilarity questionEmbedding later) (topChunks r) ->
     exists a b c,
       topChunks r =
       (a ++ entry cosineSimilarity questionEmbedding earlier
          :: b ++ entry cosineSimilarity questionEmbedding later :: c)%list).
Proof.
  intros Hr Hc He Ho.
  rewrite (retrieval_result _ _ _ _ _ _ _ Hr Hc He).
  unfold result_of. cbn [topChunks].
  set (top := map pick (ranked cosineSimilarity questionEmbedding chunks (topK_or_default topK))).
  assert (Hord : forall c, In c chunks ->
                   ordered (cosineSimilarity questionEmbedding (embedding c)) = true).
  { unfold scores_ordered in Ho. rewrite Forall_forall in Ho. exact Ho. }
  split.
  - intros c Hin. apply ties_are_a_prefix; [exact Ho | now apply Hord].
  - intros Hnd before earlier between later after Hsplit Heq Hin.
    set (s := cosineSimilarity questionEmbedding (embedding later)) in *.
    set (ei := entry cosineSimilarity questionEmbedding earlier) in *.
    set (ej := entry cosineSimilarity questionEmbedding later) in *.
    assert (Hs : ordered s = true).
    { apply Hord. subst chunks. apply in_or_app. right. right. apply in_or_app. right. now left. }
    destruct (ties_are_a_prefix cosineSimilarity questionEmbedding chunks
                (topK_or_default topK) s Ho Hs) as [n Hn].
    fold top in Hn.
    pose proof (corpus_entries_NoDup cosineSimilarity questionEmbedding chunks Hnd) as Hnde.
    assert (HT : with_similarity s (corpus_entries cosineSimilarity questionEmbedding chunks) =
                 ((with_similarity s (map (entry cosineSimilarity questionEmbedding) before)
                   ++ ei :: with_similarity s (map (entry cosineSimilarity questionEmbedding) between))
                  ++ ej :: with_similarity s (map (entry cosineSimilarity questionEmbedding) after))%list).
    { unfold corpus_entries, with_similarity. rewrite Hsplit.
      rewrite map_app. cbn [map]. rewrite map_app. cbn [map].
      rewrite filter_app. cbn [filter]. rewrite filter_app. cbn [filter].
      fold ei ej. cbn [ei ej entry top_similarity].
      fold s. rewrite Heq, (strict_eq_refl s Hs).
      now rewrite <- app_assoc. }
    assert (HndT : NoDup (with_similarity s
                            (corpus_entries cosineSimilarity questionEmbedding chunks)))
      by (apply NoDup_filter; exact Hnde).
    assert (HinF : In ej (with_similarity s top)).
    { apply filter_In. split; [exact Hin |]. cbn. fold s. now apply strict_eq_refl. }
    rewrite Hn, HT in HinF. rewrite HT in HndT.
    destruct (ListFacts.firstn_reaches n _ ej _ HndT HinF) as [Y' HY].
    rewrite HT, HY in Hn.
    destruct (ListFacts.filter_split _ top _ ej _ Hn) as (l1 & l2 & Htop & Hl1 & _).
    destruct (ListFacts.filter_split _ l1 _ ei _ Hl1) as (a & b & -> & _ & _).
    exists a, b, l2. rewrite Htop. now rewrite <- app_assoc.
Qed.

Lemma ties_keep_corpus_order_witness :
  with_similarity Examples.one
    (corpus_entries Utils.cosineSimilarity Examples.query
       [Examples.chunk1; Examples.chunk4; Examples.chunk2; Examples.chunk3]) =
    [ entry Utils.cosineSimilarity Examples.query Examples.chunk4;
      entry Utils.cosineSimilarity Examples.query Examples.chunk3 ] /\
  with_similarity Examples.one (topChunks Examples.result_tie) =
    [ entry Utils.cosineSimilarity Examples.query Examples.chunk4 ] /\
  (exists n,
     with_similarity Examples.one (topChunks Examples.result_tie) =
     firstn n (with_similarity Examples.one
                 (corpus_entries Utils.cosineSimilarity Examples.query
                    [Examples.chunk1; Examples.chunk4; Examples.chunk2; Examples.chunk3]))) /\
  (exists a b c,
     topChunks Examples.result_tie2 =
     (a ++ entry Utils.cosineSimilarity Examples.query Examples.chunk4
        :: b ++ entry Utils.cosineSimilarity Examples.query Examples.chunk3 :: c)%list).
Proof.
  split; [vm_compute; reflexivity |].
  split; [vm_compute; reflexivity |].
  split.
  - destruct (ties_keep_corpus_order Utils.cosineSimilarity Examples.env_tie Examples.when
                (Some Examples.one) Examples.result_tie
                [Examples.chunk1; Examples.chunk4; Examples.chunk2; Examples.chunk3]
                Examples.query) as [Hprefix _].
    + eapply from_getRAGContext. vm_compute. reflexivity.
    + reflexivity.
    + reflexivity.
    + repeat constructor.
    + apply (Hprefix Examples.chunk4). cbn. tauto.
  - destruct (ties_keep_corpus_order Utils.cosineSimilarity Examples.env_tie Examples.when
                (Some Examples.two) Examples.result_tie2
                [Examples.chunk1; Examples.chunk4; Examples.chunk2; Examples.chunk3]
                Examples.query) as [_ Hpair].
    + eapply from_getRAGContext. vm_compute. reflexivity.
    + reflexivity.
    + reflexivity.
    + repeat constructor.
    + apply (Hpair ltac:(repeat constructor; cbn; intuition discriminate)
               [Examples.chunk1] Examples.chunk4 [Examples.chunk2] Examples.chunk3 []).
      * reflexivity.
      * vm_compute. reflexivity.
      * vm_compute. tauto.
Defined.

(** C6, the claim as stated, fails: beside a chunk that scores NaN the
    order of equal scores is not kept.  In [Examples.corpus_tie_NaN] the
    sixth and the seventh chunk both score 1, after a chunk that scores
    NaN; the binary insertion places the sixth after the NaN and the
    seventh before it.  For the default [topK] the seventh chunk is
    among [topChunks] and the sixth is not; for [topK = 7] both are, the
    seventh first. *)
Lemma ties_lose_corpus_order_beside_NaN :
  retrieval Utils.cosineSimilarity Examples.env_tie_NaN Examples.when
    None Examples.result_tie_NaN /\
  retrieval Utils.cosineSimilarity Examples.env_tie_NaN Examples.when
    (Some Examples.seven) Examples.result_tie_NaN_all /\
  NoDup (map chunk_id Examples.corpus_tie_NaN) /\
  Examples.corpus_tie_NaN =
    ([Examples.chunk1; Examples.chunk3; Examples.chunk4; Examples.chunk5;
      Examples.chunk_unembedded] ++ Examples.chunk6 :: [] ++ Examples.chunk7 :: [])%list /\
  strict_eq (Utils.cosineSimilarity Examples.query (embedding Examples.chunk6))
            (Utils.cosineSimilarity Examples.query (embedding Examples.chunk7)) = true /\
  In (entry Utils.cosineSimilarity Examples.query Examples.chunk7)
     (topChunks Examples.result_tie_NaN) /\
  ~ In (entry Utils.cosineSimilarity Examples.query Examples.chunk6)
       (topChunks Examples.result_tie_NaN) /\
  topChunks Examples.result_tie_NaN_all =
    (map (entry Utils.cosineSimilarity Examples.query)
         [Examples.chunk3; Examples.chunk4; Examples.chunk5]
     ++ entry Utils.cosineSimilarity Examples.query Examples.chunk7
     :: map (entry Utils.cosineSimilarity Examples.query)
            [Examples.chunk1; Examples.chunk_unembedded]
     ++ entry Utils.cosineSimilarity Examples.query Examples.chunk6 :: [])%list.
Proof.
  split; [eapply from_getRAGContext; vm_compute; reflexivity |].
  split; [eapply from_getRAGContext; vm_compute; reflexivity |].
  split; [repeat constructor; cbn; intuition discriminate |].
  split; [reflexivity |].
  split; [vm_compute; reflexivity |].
  split; [vm_compute; tauto |].
  split; [| vm_compute; reflexivity].
  intros H. vm_compute in H.
  repeat (destruct H as [H | H]; [discriminate H |]). exact H.
Qed.

(** C9.  The inline handler and [getRAGContext] agree on success: one
    returns a result exactly when the other does, after the same effects,
    and it is the same result. *)
Theorem POST_and_getRAGContext_agree
    (cosineSimilarity : list number -> list number -> number)
    (env : Env) (q : value) (topK : option number)
    (t : list Event) (r : RetrievalResult) :
  Rag.getRAGContext cosineSimilarity env q topK = (t, Normal r) <->
  Rag.POST cosineSimilarity env (request q topK) = (t, NextResponse_json (ResultBody r) None).
Proof.
  split; intros H.
  - pose proof (getRAGContext_Normal _ _ _ _ _ _ H) as (s & qe & chunks & Hreach & ->).
    rewrite (getRAGContext_success cosineSimilarity env q topK s qe chunks Hreach) in H.
    injection H as <-.
    apply (POST_success cosineSimilarity env q topK s qe chunks Hreach).
  - pose proof (POST_ResultBody _ _ _ _ _ _ _ H) as (s & qe & chunks & Hreach & ->).
    unfold request in H.
    rewrite (POST_success cosineSimilarity env q topK s qe chunks Hreach) in H.
    injection H as <-.
    apply (getRAGContext_success cosineSimilarity env q topK s qe chunks Hreach).
Qed.

(** C3.  An empty-string question, like a question that is not a string,
    is rejected before anything else happens: the handler answers 400 and
    [getRAGContext] throws, and neither has read the corpus, called the
    embedding service or computed a similarity. *)
Theorem invalid_question_is_rejected_first
    (cosineSimilarity : list number -> list number -> number)
    (env : Env) (q : value) (topK : option number) :
  q = Str ""%string \/ typeof q <> "string"%string ->
  Rag.POST cosineSimilarity env (request q topK) =
    ([], {| status := 400; body := ErrorBody "Missing or invalid question" |}) /\
  Rag.getRAGContext cosineSimilarity env q topK =
    ([], Throw {| message := "RAG processing failed: Missing or invalid question" |}).
Proof.
  intros H. apply guard_true in H.
  unfold Rag.POST, Rag.getRAGContext, request, handle, attempt, bind, lift, ret, throw.
  cbn [json req_question req_topK]. rewrite H. split; reflexivity.
Qed.

Lemma invalid_question_is_rejected_first_witness :
  OPENAI_API_KEY Examples.env = Some "sk-test"%string /\
  corpus_file Examples.env
    = Normal [Examples.chunk1; Examples.chunk2; Examples.chunk3] /\
  (Rag.POST Utils.cosineSimilarity Examples.env (request (Str "") None) =
     ([], {| status := 400; body := ErrorBody "Missing or invalid question" |}) /\
   Rag.getRAGContext Utils.cosineSimilarity Examples.env (Str "") None =
     ([], Throw {| message := "RAG processing failed: Missing or invalid question" |})) /\
  (Rag.POST Utils.cosineSimilarity Examples.env (request (Num Examples.three) None) =
     ([], {| status := 400; body := ErrorBody "Missing or invalid question" |}) /\
   Rag.getRAGContext Utils.cosineSimilarity Examples.env (Num Examples.three) None =
     ([], Throw {| message := "RAG processing failed: Missing or invalid question" |})).
Proof.
  split; [reflexivity |]. split; [reflexivity |]. split.
  - apply invalid_question_is_rejected_first. left. reflexivity.
  - apply invalid_question_is_rejected_first. right. discriminate.
Defined.

(** The second version of the route hands the question to [getRAGContext]
    and answers 500 for whatever it throws, an invalid question included. *)
Remark POST_delegating_invalid_question
    (cosineSimilarity : list number -> list number -> number)
    (env : Env) (q : value) (topK : option number) :
  q = Str ""%string \/ typeof q <> "string"%string ->
  Rag.POST_delegating cosineSimilarity env (request q topK) =
    ([], {| status := 500;
            body := ErrorBody "RAG processing failed: Missing or invalid question" |}).
Proof.
  intros H. apply guard_true in H.
  unfold Rag.POST_delegating, Rag.getRAGContext, request, handle, attempt, bind, lift, throw.
  cbn [json req_question req_topK]. rewrite H. reflexivity.
Qed.

(** C5 (as amended).  Once the question is valid and the corpus has
    loaded, a missing credential and a failing embedding request both fail
    the pipeline, and with the same error: the handler answers 500 with
    ['Embedding API not implemented'], [getRAGContext] throws
    ['RAG processing failed: Failed to get embedding for question'].  A
    corpus that fails to load surfaces the loader's own message. *)
Theorem embedding_failures_surface_alike
    (cosineSimilarity : list number -> list number -> number)
    (env : Env) (s : string) (topK : option number) :
  s <> ""%string ->
  (forall chunks,
     corpus_file env = Normal chunks ->
     truthy_env (OPENAI_API_KEY env) = false \/
     (exists e, embeddings_create env s = Throw e) ->
     snd (Rag.POST cosineSimilarity env (request (Str s) topK)) =
       {| status := 500; body := ErrorBody "Embedding API not implemented" |} /\
     snd (Rag.getRAGContext cosineSimilarity env (Str s) topK) =
       Throw {| message := "RAG processing failed: Failed to get embedding for question" |}) /\
  (forall e,
     corpus_file env = Throw e ->
     snd (Rag.POST cosineSimilarity env (request (Str s) topK)) =
       {| status := 500; body := ErrorBody (message e) |} /\
     snd (Rag.getRAGContext cosineSimilarity env (Str s) topK) =
       Throw {| message := "RAG processing failed: " ++ message e |}).
Proof.
  intros Hs.
  assert (G : negb (ToBoolean (Str s)) || negb (typeof (Str s) =? "string")%string = false).
  { apply guard_false. now exists s. }
  split.
  - intros chunks Hc Hfail.
    unfold Rag.POST, Rag.getRAGContext, request, handle, attempt, bind, loadChunks,
      getEmbedding, perform, lift, ret, throw, bind.
    cbn [json req_question req_topK]. rewrite G. cbn [string_of]. rewrite Hc.
    destruct Hfail as [Hkey | [e He]].
    + rewrite Hkey. cbn. split; reflexivity.
    + rewrite He. destruct (truthy_env (OPENAI_API_KEY env)); cbn; split; reflexivity.
  - intros e Hc.
    unfold Rag.POST, Rag.getRAGContext, request, handle, attempt, bind, loadChunks,
      getEmbedding, perform, lift, ret, throw, bind.
    cbn [json req_question req_topK]. rewrite G. cbn [string_of]. rewrite Hc.
    cbn. split; reflexivity.
Qed.

Lemma embedding_failures_surface_alike_witness :
  (snd (Rag.POST Utils.cosineSimilarity Examples.env_no_key (request Examples.when None)) =
     {| status := 500; body := ErrorBody "Embedding API not implemented" |} /\
   snd (Rag.getRAGContext Utils.cosineSimilarity Examples.env_no_key Examples.when None) =
     Throw {| message := "RAG processing failed: Failed to get embedding for question" |}) /\
  (snd (Rag.POST Utils.cosineSimilarity Examples.env_service_down (request Examples.when None)) =
     {| status := 500; body := ErrorBody "Embedding API not implemented" |} /\
   snd (Rag.getRAGContext Utils.cosineSimilarity Examples.env_service_down Examples.when None) =
     Throw {| message := "RAG processing failed: Failed to get embedding for question" |}).
Proof.
  split.
  - apply (embedding_failures_surface_alike Utils.cosineSimilarity Examples.env_no_key
             "When is the midterm?" None ltac:(discriminate))
      with (chunks := [Examples.chunk1; Examples.chunk2; Examples.chunk3]).
    + reflexivity.
    + left. reflexivity.
  - apply (embedding_failures_surface_alike Utils.cosineSimilarity Examples.env_service_down
             "When is the midterm?" None ltac:(discriminate))
      with (chunks := [Examples.chunk1; Examples.chunk2; Examples.chunk3]).
    + reflexivity.
    + right. eexists. reflexivity.
Defined.

(** C5, the claim as stated, fails: a run without credential and a run
    whose embedding request is refused surface the same error, from the
    handler and from [getRAGContext] alike, although [getEmbedding] threw
    different ones. *)
Lemma embedding_errors_not_distinguishable :
  snd (getEmbedding Examples.env_no_key "When is the midterm?") <>
    snd (getEmbedding Examples.env_service_down "When is the midterm?") /\
  snd (Rag.POST Utils.cosineSimilarity Examples.env_no_key (request Examples.when None)) =
    snd (Rag.POST Utils.cosineSimilarity Examples.env_service_down (request Examples.when None)) /\
  snd (Rag.getRAGContext Utils.cosineSimilarity Examples.env_no_key Examples.when None) =
    snd (Rag.getRAGContext Utils.cosineSimilarity Examples.env_service_down Examples.when None).
Proof.
  split; [vm_compute; discriminate |].
  split; vm_compute; reflexivity.
Qed.

(** ** The chat endpoint *)

(** If the retrieval call fails (the fetch rejects, the response status
    is not ok, or reading the response throws), the retrieval block of the
    chat handler completes normally with [ragContext] still [''], and the
    [system] argument built from it is the system prompt unchanged. *)
Lemma retrieval_block_swallows_failures
    (fetch_rag : string -> Chat.FetchOutcome) (systemPrompt : string)
    (parts : list Chat.Part) :
  Chat.failed (fetch_rag (Chat.userMessageText parts)) = true ->
  Chat.ragBlock fetch_rag parts = Normal ""%string /\
  Chat.streamText_system fetch_rag systemPrompt parts = Normal systemPrompt.
Proof.
  intros Hfail.
  assert (Hblock : Chat.ragBlock fetch_rag parts = Normal ""%string).
  { unfold Chat.ragBlock, Chat.tryRag.
    destruct (negb (Chat.blank (Chat.userMessageText parts))); [| reflexivity].
    destruct (fetch_rag (Chat.userMessageText parts)) as [e | res]; [reflexivity |].
    cbn [Chat.failed] in Hfail.
    destruct (Chat.ok res).
    - destruct (Chat.res_json res); [discriminate | reflexivity].
    - destruct (Chat.res_text res); reflexivity. }
  split; [exact Hblock |].
  unfold Chat.streamText_system. rewrite Hblock.
  now rewrite ListFacts.append_empty.
Qed.

(** Whenever the handler of [/api/rag] answers with an error status, the
    block leaves the system prompt as it was. *)
Remark chat_survives_route_errors
    (cosineSimilarity : list number -> list number -> number)
    (JSON_stringify : ResponseBody -> string)
    (env : Env) (systemPrompt : string) (parts : list Chat.Part) :
  status (snd (Rag.POST cosineSimilarity env
                 (request (Str (Chat.userMessageText parts)) None))) >= 400 ->
  Chat.streamText_system (Chat.fetch_route cosineSimilarity JSON_stringify env)
    systemPrompt parts = Normal systemPrompt.
Proof.
  intros Hst.
  unfold Chat.streamText_system, Chat.ragBlock, Chat.tryRag.
  destruct (negb (Chat.blank _)); [| now rewrite ListFacts.append_empty].
  unfold Chat.fetch_route. fold (request (Str (Chat.userMessageText parts)) None).
  unfold Chat.ok. cbn [Chat.res_status Chat.res_text].
  destruct (Z.leb_spec (status (snd (Rag.POST cosineSimilarity env
              (request (Str (Chat.userMessageText parts)) None)))) 299)
    as [Hle | Hgt]; [lia |].
  rewrite andb_false_r. now rewrite ListFacts.append_empty.
Qed.

(** ** Rounding

    For the three operations of the cosine formula on normal numbers, away
    from underflow and overflow, the rounded result is within a relative
    error of [2^(1-prec)] of the exact one.  (Rounding to nearest even
    gives half of that; the coarser bound needs no account of the rounding
    direction.) *)

Module RoundingFacts.
Import Reals Lra FloatR FloatFacts.
Local Open Scope Z_scope.

Lemma pow2_pos (e : Z) : (0 < pow2 e)%R.
Proof. apply powerRZ_lt. lra. Qed.

Lemma pow2_add (a b : Z) : pow2 (a + b) = (pow2 a * pow2 b)%R.
Proof. apply powerRZ_add. lra. Qed.

Lemma pow2_IZR (n : Z) : 0 <= n -> pow2 n = IZR (2 ^ n).
Proof.
  intros Hn. unfold pow2.
  rewrite <- (Z2Nat.id n Hn) at 1. rewrite <- pow_powerRZ.
  rewrite pow_IZR. now rewrite Z2Nat.id.
Qed.

Lemma pow2_succ (e : Z) : pow2 (e + 1) = (2 * pow2 e)%R.
Proof.
  rewrite pow2_add. replace (pow2 1) with 2%R by (symmetry; apply (powerRZ_1 2)). lra.
Qed.

Lemma pow2_le (a b : Z) : a <= b -> (pow2 a <= pow2 b)%R.
Proof.
  intros H. replace b with (a + (b - a)) by lia. rewrite pow2_add.
  rewrite (pow2_IZR (b - a)) by lia.
  assert (1 <= 2 ^ (b - a)) by (apply Z.le_trans with (2 ^ 0); [cbn; lia | apply Z.pow_le_mono_r; lia]).
  apply IZR_le in H0. pose proof (pow2_pos a). nra.
Qed.

Section Format.

Variables prec emax : Z.
Hypothesis prec_gt_1 : 1 < prec.
Hypothesis prec_lt_emax : prec < emax.

Local Abbreviation emin := (SpecFloat.emin prec emax).
Local Abbreviation fexp := (SpecFloat.fexp prec emax).
Local Abbreviation eps := (FloatR.eps prec).

Lemma digits_unique (m : positive) (k : Z) :
  2 ^ (k - 1) <= Zpos m < 2 ^ k -> Zpos (digits2_pos m) = k.
Proof.
  intros [Hlo Hhi].
  pose proof (digits2_pos_bounds m) as [Dlo Dhi].
  assert (Hk : 0 < k).
  { destruct (Z.le_gt_cases k 0) as [H | H]; [| exact H]. exfalso.
    assert (2 ^ k <= 1).
    { destruct (Z.eq_dec k 0) as [-> | Hne]; [cbn; lia | rewrite Z.pow_neg_r by lia; lia]. }
    lia. }
  assert (H1 : k - 1 < Zpos (digits2_pos m)).
  { apply (Z.pow_lt_mono_r_iff 2); [lia | lia | lia]. }
  assert (H2 : Zpos (digits2_pos m) - 1 < k).
  { apply (Z.pow_lt_mono_r_iff 2); [lia | lia | lia]. }
  lia.
Qed.

Lemma round_nearest_even_le (m : Z) (l : location) :
  round_nearest_even m l <= m + 1.
Proof.
  destruct l as [| []]; cbn [round_nearest_even]; try lia.
  destruct (Z.even m); lia.
Qed.

Lemma shr_fexp_wide (m : positive) (e : Z) (l : location) :
  prec <= Zpos (digits2_pos m) -> emin <= e ->
  shr_m (fst (shr_fexp prec emax (Zpos m) e l)) = Zpos m / 2 ^ (Zpos (digits2_pos m) - prec) /\
  snd (shr_fexp prec emax (Zpos m) e l) = e + (Zpos (digits2_pos m) - prec).
Proof.
  intros Hd He. unfold shr_fexp, shr. cbn [Zdigits2].
  set (d := Zpos (digits2_pos m)) in *.
  assert (Hf : fexp (d + e) - e = d - prec) by (unfold SpecFloat.fexp; lia).
  rewrite Hf.
  destruct (d - prec) as [| n | n] eqn:Hn; cbn [fst snd]; try lia.
  - rewrite shr_record_of_loc_m. cbn. rewrite Z.div_1_r. lia.
  - rewrite iter_pos_shr_m by (rewrite shr_record_of_loc_m; lia).
    rewrite shr_record_of_loc_m. lia.
Qed.

Lemma truncated_bounds (m : positive) :
  prec <= Zpos (digits2_pos m) ->
  2 ^ (prec - 1) <= Zpos m / 2 ^ (Zpos (digits2_pos m) - prec) < 2 ^ prec.
Proof.
  intros Hd. pose proof (digits2_pos_bounds m) as [Hlo Hhi].
  set (d := Zpos (digits2_pos m)) in *.
  assert (Hp : 0 < 2 ^ (d - prec)) by (apply Z.pow_pos_nonneg; lia).
  split.
  - apply Z.div_le_lower_bound; [exact Hp |].
    rewrite <- Z.pow_add_r by lia. replace (d - prec + (prec - 1)) with (d - 1) by lia.
    exact Hlo.
  - apply Z.div_lt_upper_bound; [exact Hp |].
    rewrite <- Z.pow_add_r by lia. replace (d - prec + prec) with d by lia.
    exact Hhi.
Qed.

(** Rounding a mantissa of at least [prec] digits, away from underflow and
    overflow: the result is a normal number whose value is the truncated
    mantissa or the next one, at the exponent of the truncation. *)
Lemma binary_round_aux_wide (s : bool) (m : positive) (e : Z) (l : location) :
  prec <= Zpos (digits2_pos m) -> emin <= e ->
  Zpos (digits2_pos m) + e <= emax - 1 ->
  exists m3 e3 k,
    binary_round_aux prec emax s (Zpos m) e l = S754_finite s m3 e3 /\
    Zpos (digits2_pos m3) = prec /\
    emin <= e3 <= emax - prec /\
    e + (Zpos (digits2_pos m) - prec) <= e3 /\
    (k = Zpos m / 2 ^ (Zpos (digits2_pos m) - prec) \/
     k = Zpos m / 2 ^ (Zpos (digits2_pos m) - prec) + 1) /\
    Zpos m3 * 2 ^ (e3 - (e + (Zpos (digits2_pos m) - prec))) = k.
Proof.
  intros Hd He Hmax. unfold binary_round_aux.
  pose proof (shr_fexp_wide m e l Hd He) as [H1 H2].
  pose proof (truncated_bounds m Hd) as [B1 B2].
  destruct (shr_fexp prec emax (Zpos m) e l) as [mrs' e'] eqn:E1. cbn [fst snd] in H1, H2.
  set (d := Zpos (digits2_pos m)) in *.
  set (m1 := Zpos m / 2 ^ (d - prec)) in *.
  pose proof (round_nearest_even_ge (shr_m mrs') (loc_of_shr_record mrs')) as R1.
  pose proof (round_nearest_even_le (shr_m mrs') (loc_of_shr_record mrs')) as R2.
  set (m2 := round_nearest_even (shr_m mrs') (loc_of_shr_record mrs')) in *.
  rewrite H1 in R1, R2.
  assert (Hpow : 0 < 2 ^ (prec - 1)) by (apply Z.pow_pos_nonneg; lia).
  assert (Hpp : 2 ^ prec = 2 * 2 ^ (prec - 1)).
  { rewrite <- Z.pow_succ_r by lia. f_equal. lia. }
  destruct m2 as [| p2 | p2] eqn:Em2; try lia.
  assert (He' : emin <= e') by lia.
  destruct (Z.eq_dec (Zpos p2) (2 ^ prec)) as [Hc | Hc].
  - (* the mantissa carried into one more digit *)
    assert (Hd2 : Zpos (digits2_pos p2) = prec + 1).
    { apply digits_unique. replace (prec + 1 - 1) with prec by lia.
      rewrite Z.pow_add_r, Z.pow_1_r by lia. lia. }
    pose proof (shr_fexp_wide p2 e' loc_Exact ltac:(lia) He') as [H3 H4].
    destruct (shr_fexp prec emax (Zpos p2) e' loc_Exact) as [mrs'' e''] eqn:E2.
    cbn [fst snd] in H3, H4. rewrite Hd2 in H3, H4.
    replace (prec + 1 - prec) with 1 in H3, H4 by lia.
    rewrite Z.pow_1_r, Hc, Hpp in H3.
    rewrite Z.mul_comm, Z.div_mul in H3 by lia.
    rewrite H3.
    destruct (2 ^ (prec - 1)) as [| q | q] eqn:Eq; try lia.
    assert (Hle : (e'' <=? emax - prec) = true) by (apply Z.leb_le; lia).
    rewrite Hle. exists q, e'', (m1 + 1).
    split; [reflexivity |].
    split; [apply digits_unique; rewrite Eq, Hpp; lia |].
    split; [lia |]. split; [lia |]. split; [now right |].
    replace (e'' - (e + (d - prec))) with 1 by lia. rewrite Z.pow_1_r. lia.
  - assert (Hd2 : Zpos (digits2_pos p2) = prec) by (apply digits_unique; lia).
    pose proof (shr_fexp_wide p2 e' loc_Exact ltac:(lia) He') as [H3 H4].
    destruct (shr_fexp prec emax (Zpos p2) e' loc_Exact) as [mrs'' e''] eqn:E2.
    cbn [fst snd] in H3, H4. rewrite Hd2 in H3, H4.
    replace (prec - prec) with 0 in H3, H4 by lia.
    rewrite Z.pow_0_r, Z.div_1_r in H3. rewrite H3.
    assert (Hle : (e'' <=? emax - prec) = true) by (apply Z.leb_le; lia).
    rewrite Hle. exists p2, e'', (Zpos p2).
    split; [reflexivity |]. split; [exact Hd2 |].
    split; [lia |]. split; [lia |]. split; [lia |].
    replace (e'' - (e + (d - prec))) with 0 by lia. rewrite Z.pow_0_r. lia.
Qed.

(** The same with values: rounding a real [x] given by the mantissa it
    truncates to stays within a relative error of [2^(1-prec)]. *)
Lemma binary_round_aux_value (s : bool) (m : positive) (e : Z) (l : location) (x : R) :
  prec <= Zpos (digits2_pos m) -> emin <= e ->
  Zpos (digits2_pos m) + e <= emax - 1 ->
  (IZR (Zpos m) * pow2 e <= x < (IZR (Zpos m) + 1) * pow2 e)%R ->
  exists m3 e3,
    binary_round_aux prec emax s (Zpos m) e l = S754_finite s m3 e3 /\
    Zpos (digits2_pos m3) = prec /\
    emin <= e3 <= emax - prec /\
    e + (Zpos (digits2_pos m) - prec) <= e3 <= e + (Zpos (digits2_pos m) - prec) + 1 /\
    (Rabs (IZR (Zpos m3) * pow2 e3 - x) <= pow2 (1 - prec) * (IZR (Zpos m3) * pow2 e3))%R.
Proof.
  intros Hd He Hmax Hx.
  destruct (binary_round_aux_wide s m e l Hd He Hmax)
    as (m3 & e3 & k & Hr & Hd3 & He3 & Hlow & Hk & Hval).
  pose proof (truncated_bounds m Hd) as [B1 B2].
  set (n := Zpos (digits2_pos m) - prec) in *.
  set (m1 := Zpos m / 2 ^ n) in *.
  assert (Hn : 0 <= n) by (unfold n; lia).
  assert (Hpn : 0 < 2 ^ n) by (apply Z.pow_pos_nonneg; lia).
  assert (Hup : e3 <= e + n + 1).
  { destruct (Z.le_gt_cases e3 (e + n + 1)) as [H | H]; [exact H | exfalso].
    assert (4 <= 2 ^ (e3 - (e + n))).
    { apply Z.le_trans with (2 ^ 2); [cbn; lia | apply Z.pow_le_mono_r; lia]. }
    pose proof (digits2_pos_bounds m3) as [D1 _]. rewrite Hd3 in D1.
    assert (Hpp : 2 ^ prec = 2 * 2 ^ (prec - 1)).
    { rewrite <- Z.pow_succ_r by lia. f_equal. lia. }
    nia. }
  exists m3, e3. split; [exact Hr |]. split; [exact Hd3 |]. split; [exact He3 |].
  split; [lia |].
  (* the value of the result is [k * 2^(e+n)] *)
  assert (HV : (IZR (Zpos m3) * pow2 e3 = IZR k * pow2 (e + n))%R).
  { rewrite <- Hval, mult_IZR, <- pow2_IZR by lia.
    replace e3 with ((e3 - (e + n)) + (e + n)) at 1 by lia.
    rewrite pow2_add. ring. }
  (* [x] lies between [m1] and [m1 + 1] at that exponent *)
  assert (Hm1 : m1 * 2 ^ n <= Zpos m < (m1 + 1) * 2 ^ n).
  { unfold m1. pose proof (Z.mul_div_le (Zpos m) (2 ^ n) Hpn).
    pose proof (Z.mul_succ_div_gt (Zpos m) (2 ^ n) Hpn). lia. }
  assert (Hpe : pow2 (e + n) = (pow2 e * IZR (2 ^ n))%R).
  { rewrite pow2_add, (pow2_IZR n) by lia. reflexivity. }
  pose proof (pow2_pos e) as Pe. pose proof (pow2_pos (e + n)) as Pen.
  assert (Hxlo : (IZR m1 * pow2 (e + n) <= x)%R).
  { apply Rle_trans with (IZR (Zpos m) * pow2 e)%R; [| apply Hx].
    rewrite Hpe. destruct Hm1 as [Hm1 _]. apply IZR_le in Hm1. rewrite mult_IZR in Hm1. nra. }
  assert (Hxhi : (x <= (IZR m1 + 1) * pow2 (e + n))%R).
  { apply Rle_trans with ((IZR (Zpos m) + 1) * pow2 e)%R; [apply Rlt_le, Hx |].
    rewrite Hpe. destruct Hm1 as [_ Hm1].
    assert (Hm1' : Zpos m + 1 <= (m1 + 1) * 2 ^ n) by lia.
    apply IZR_le in Hm1'. rewrite mult_IZR, !plus_IZR in Hm1'. nra. }
  (* one unit at that exponent is at most [2^(1-prec)] of the result *)
  assert (Hunit : (pow2 (e + n) <= pow2 (1 - prec) * (IZR k * pow2 (e + n)))%R).
  { assert (Hk1 : 2 ^ (prec - 1) <= k) by lia.
    apply IZR_le in Hk1. rewrite <- pow2_IZR in Hk1 by lia.
    assert (Hone : (pow2 (1 - prec) * pow2 (prec - 1) = 1)%R).
    { rewrite <- pow2_add. replace (1 - prec + (prec - 1)) with 0 by lia. reflexivity. }
    pose proof (pow2_pos (1 - prec)) as P1.
    replace (pow2 (e + n)) with (pow2 (1 - prec) * (pow2 (prec - 1) * pow2 (e + n)))%R at 1
      by (rewrite <- Rmult_assoc, Hone; ring).
    apply Rmult_le_compat_l; [lra |].
    apply Rmult_le_compat_r; [lra | exact Hk1]. }
  rewrite HV. apply Rle_trans with (pow2 (e + n)); [| exact Hunit].
  apply Rabs_le.
  destruct Hk as [-> | ->]; rewrite ?plus_IZR; split; nra.
Qed.

Lemma value_finite_pos (m : positive) (e : Z) :
  value (S754_finite false m e) = (IZR (Zpos m) * pow2 e)%R.
Proof. cbn [value]. ring. Qed.

Lemma value_pos (m : positive) (e : Z) : (0 < value (S754_finite false m e))%R.
Proof.
  rewrite value_finite_pos. apply Rmult_lt_0_compat; [| apply pow2_pos].
  apply IZR_lt. lia.
Qed.

(** The product of two normal numbers, away from underflow and overflow. *)
Lemma SFmul_normal (mx my : positive) (ex ey : Z) :
  Zpos (digits2_pos mx) = prec -> Zpos (digits2_pos my) = prec ->
  emin <= ex + ey -> 2 * prec + ex + ey <= emax - 1 ->
  exists m3 e3,
    SFmul prec emax (S754_finite false mx ex) (S754_finite false my ey)
      = S754_finite false m3 e3 /\
    Zpos (digits2_pos m3) = prec /\
    ex + ey + prec - 1 <= e3 <= ex + ey + prec + 1 /\
    (Rabs (value (S754_finite false m3 e3)
           - value (S754_finite false mx ex) * value (S754_finite false my ey))
     <= eps * value (S754_finite false m3 e3))%R.
Proof.
  intros Hdx Hdy Hlo Hhi. cbn [SFmul xorb].
  pose proof (digits2_pos_bounds mx) as [X1 X2]. rewrite Hdx in X1, X2.
  pose proof (digits2_pos_bounds my) as [Y1 Y2]. rewrite Hdy in Y1, Y2.
  pose proof (digits2_pos_bounds (mx * my)) as [P1 P2].
  set (d := Zpos (digits2_pos (mx * my))) in *.
  assert (Hpow : 0 < 2 ^ (prec - 1)) by (apply Z.pow_pos_nonneg; lia).
  assert (Hpp : 2 ^ prec = 2 * 2 ^ (prec - 1)).
  { rewrite <- Z.pow_succ_r by lia. f_equal. lia. }
  assert (Hd : 2 * prec - 1 <= d <= 2 * prec).
  { rewrite Pos2Z.inj_mul in P1, P2. split.
    - assert (H : 2 ^ (2 * prec - 2) < 2 ^ d).
      { replace (2 * prec - 2) with ((prec - 1) + (prec - 1)) by lia.
        rewrite Z.pow_add_r by lia. nia. }
      apply (Z.pow_lt_mono_r_iff 2) in H; lia.
    - assert (H : 2 ^ (d - 1) < 2 ^ (2 * prec)).
      { replace (2 * prec) with (prec + prec) by lia.
        rewrite Z.pow_add_r by lia. nia. }
      apply (Z.pow_lt_mono_r_iff 2) in H; lia. }
  destruct (binary_round_aux_value false (mx * my) (ex + ey) loc_Exact
              (IZR (Zpos (mx * my)) * pow2 (ex + ey))%R)
    as (m3 & e3 & Hr & Hd3 & He3 & Hrange & Hval); fold d; try lia.
  { pose proof (pow2_pos (ex + ey)). split; [lra | nra]. }
  exists m3, e3. split; [exact Hr |]. split; [exact Hd3 |]. split; [fold d in Hrange; lia |].
  rewrite !value_finite_pos.
  replace (IZR (Zpos mx) * pow2 ex * (IZR (Zpos my) * pow2 ey))%R
    with (IZR (Zpos (mx * my)) * pow2 (ex + ey))%R
    by (rewrite Pos2Z.inj_mul, mult_IZR, pow2_add; ring).
  exact Hval.
Qed.

Lemma div_eucl_pair (a b : Z) : Z.div_eucl a b = (a / b, a mod b).
Proof. unfold Z.div, Z.modulo. destruct (Z.div_eucl a b). reflexivity. Qed.

Lemma SFdiv_core_normal (mx my : positive) (ex ey : Z) :
  Zpos (digits2_pos mx) = prec -> Zpos (digits2_pos my) = prec ->
  emin <= ex - ey - prec ->
  SFdiv_core_binary prec emax (Zpos mx) ex (Zpos my) ey =
  (Zpos mx * 2 ^ prec / Zpos my, ex - ey - prec,
   new_location (Zpos my) ((Zpos mx * 2 ^ prec) mod Zpos my)).
Proof.
  intros Hdx Hdy Hlo. unfold SFdiv_core_binary. cbn [Zdigits2]. rewrite Hdx, Hdy.
  assert (He : Z.min (fexp (prec + ex - (prec + ey))) (ex - ey) = ex - ey - prec)
    by (unfold SpecFloat.fexp; lia).
  rewrite He.
  replace (ex - ey - (ex - ey - prec)) with prec by lia.
  destruct prec as [| p | p] eqn:Ep; try lia.
  rewrite Z.shiftl_mul_pow2 by lia. rewrite div_eucl_pair. reflexivity.
Qed.

(** The quotient of two normal numbers, away from underflow and overflow. *)
Lemma SFdiv_normal (mx my : positive) (ex ey : Z) :
  Zpos (digits2_pos mx) = prec -> Zpos (digits2_pos my) = prec ->
  emin <= ex - ey - prec -> ex - ey <= emax - 2 ->
  exists m3 e3,
    SFdiv prec emax (S754_finite false mx ex) (S754_finite false my ey)
      = S754_finite false m3 e3 /\
    Zpos (digits2_pos m3) = prec /\
    (Rabs (value (S754_finite false m3 e3)
           - value (S754_finite false mx ex) / value (S754_finite false my ey))
     <= eps * value (S754_finite false m3 e3))%R.
Proof.
  intros Hdx Hdy Hlo Hhi. cbn [SFdiv xorb].
  rewrite (SFdiv_core_normal mx my ex ey Hdx Hdy Hlo).
  pose proof (digits2_pos_bounds mx) as [X1 X2]. rewrite Hdx in X1, X2.
  pose proof (digits2_pos_bounds my) as [Y1 Y2]. rewrite Hdy in Y1, Y2.
  assert (Hpow : 0 < 2 ^ (prec - 1)) by (apply Z.pow_pos_nonneg; lia).
  assert (Hpp : 2 ^ prec = 2 * 2 ^ (prec - 1)).
  { rewrite <- Z.pow_succ_r by lia. f_equal. lia. }
  set (q := Zpos mx * 2 ^ prec / Zpos my).
  assert (Hq1 : 2 ^ (prec - 1) <= q).
  { unfold q. apply Z.div_le_lower_bound; [lia | nia]. }
  assert (Hq2 : q < 2 ^ (prec + 1)).
  { unfold q. apply Z.div_lt_upper_bound; [lia |].
    rewrite Z.pow_add_r, Z.pow_1_r by lia. nia. }
  assert (Hqm : q * Zpos my <= Zpos mx * 2 ^ prec < (q + 1) * Zpos my).
  { unfold q. pose proof (Z.mul_div_le (Zpos mx * 2 ^ prec) (Zpos my) ltac:(lia)).
    pose proof (Z.mul_succ_div_gt (Zpos mx * 2 ^ prec) (Zpos my) ltac:(lia)). lia. }
  destruct q as [| pq | pq] eqn:Eq; try lia.
  pose proof (digits2_pos_bounds pq) as [Q1 Q2].
  assert (Hdq : prec <= Zpos (digits2_pos pq) <= prec + 1).
  { split.
    - assert (H : 2 ^ (prec - 1) < 2 ^ Zpos (digits2_pos pq)) by lia.
      apply (Z.pow_lt_mono_r_iff 2) in H; lia.
    - assert (H : 2 ^ (Zpos (digits2_pos pq) - 1) < 2 ^ (prec + 1)) by lia.
      apply (Z.pow_lt_mono_r_iff 2) in H; lia. }
  destruct (binary_round_aux_value false pq (ex - ey - prec)
              (new_location (Zpos my) ((Zpos mx * 2 ^ prec) mod Zpos my))
              (value (S754_finite false mx ex) / value (S754_finite false my ey))%R)
    as (m3 & e3 & Hr & Hd3 & He3 & Hrange & Hval); try lia.
  { rewrite !value_finite_pos.
    pose proof (pow2_pos ex) as Pex. pose proof (pow2_pos ey) as Pey.
    pose proof (pow2_pos (ex - ey - prec)) as Pe.
    assert (Hmy : (0 < IZR (Zpos my))%R) by (apply IZR_lt; lia).
    assert (Hsplit : (pow2 ex = pow2 (ex - ey - prec) * IZR (2 ^ prec) * pow2 ey)%R).
    { rewrite <- pow2_IZR, <- !pow2_add by lia. f_equal. lia. }
    destruct Hqm as [Hq_lo Hq_hi].
    apply IZR_le in Hq_lo. apply IZR_lt in Hq_hi.
    rewrite !mult_IZR in Hq_lo, Hq_hi. rewrite plus_IZR in Hq_hi.
    assert (Hdiv : (IZR (Zpos mx) * pow2 ex / (IZR (Zpos my) * pow2 ey)
                    = IZR (Zpos mx) * IZR (2 ^ prec) / IZR (Zpos my) * pow2 (ex - ey - prec))%R).
    { rewrite Hsplit. field. lra. }
    rewrite Hdiv.
    assert (Ht : (IZR (Zpos mx) * IZR (2 ^ prec) / IZR (Zpos my) * IZR (Zpos my)
                  = IZR (Zpos mx) * IZR (2 ^ prec))%R) by (field; lra).
    set (t := (IZR (Zpos mx) * IZR (2 ^ prec) / IZR (Zpos my))%R) in *.
    split.
    - apply Rmult_le_compat_r; [lra | nra].
    - apply Rmult_lt_compat_r; [lra | nra]. }
  exists m3, e3. split; [exact Hr |]. split; [exact Hd3 |].
  rewrite (value_finite_pos m3 e3). exact Hval.
Qed.

Lemma SFsqrt_core_normal (mx : positive) (ex : Z) :
  Zpos (digits2_pos mx) = prec ->
  2 * emin <= ex + 1 - prec ->
  let e' := (ex + 1 - prec) / 2 in
  let s := ex - 2 * e' in
  exists l,
    SFsqrt_core_binary prec emax (Zpos mx) ex =
      (Z.sqrt (Zpos mx * 2 ^ s), e', l) /\
    prec - 1 <= s <= prec.
Proof.
  intros Hdx Hlo e' s. unfold SFsqrt_core_binary. cbn [Zdigits2]. rewrite Hdx.
  rewrite !Z.div2_div.
  assert (Hh : (prec + ex + 1) / 2 - prec = e').
  { unfold e'. replace (prec + ex + 1) with (ex + 1 - prec + prec * 2) by lia.
    rewrite Z.div_add by lia. lia. }
  assert (Hex : e' <= ex / 2).
  { unfold e'. apply Z.div_le_mono; lia. }
  assert (He : Z.min (fexp ((prec + ex + 1) / 2)) (ex / 2) = e').
  { unfold SpecFloat.fexp. rewrite Hh.
    assert (emin <= e') by (unfold e'; apply Z.div_le_lower_bound; lia). lia. }
  rewrite He. fold s.
  assert (Hs : prec - 1 <= s <= prec).
  { unfold s, e'. pose proof (Z.mul_div_le (ex + 1 - prec) 2 ltac:(lia)).
    pose proof (Z.mul_succ_div_gt (ex + 1 - prec) 2 ltac:(lia)). lia. }
  destruct s as [| ps | ps] eqn:Es; try lia.
  rewrite Z.shiftl_mul_pow2 by lia.
  pose proof (Z.sqrtrem_sqrt (Zpos mx * 2 ^ Zpos ps)) as Hsq.
  destruct (Z.sqrtrem (Zpos mx * 2 ^ Zpos ps)) as [q r]. cbn [fst] in Hsq. subst q.
  eexists. split; [reflexivity | exact Hs].
Qed.

(** The square root of a normal number. *)
Lemma SFsqrt_normal (mx : positive) (ex : Z) :
  Zpos (digits2_pos mx) = prec ->
  2 * emin <= ex + 1 - prec ->
  prec + (ex + 1 - prec) / 2 <= emax - 1 ->
  exists m3 e3,
    SFsqrt prec emax (S754_finite false mx ex) = S754_finite false m3 e3 /\
    Zpos (digits2_pos m3) = prec /\
    (ex + 1 - prec) / 2 <= e3 <= (ex + 1 - prec) / 2 + 1 /\
    (Rabs (value (S754_finite false m3 e3) - sqrt (value (S754_finite false mx ex)))
     <= eps * value (S754_finite false m3 e3))%R.
Proof.
  intros Hdx Hlo Hhi. cbn [SFsqrt].
  destruct (SFsqrt_core_normal mx ex Hdx Hlo) as (l & Hcore & Hs).
  rewrite Hcore. clear Hcore.
  set (e' := (ex + 1 - prec) / 2) in *.
  set (s := ex - 2 * e') in *.
  set (M := Zpos mx * 2 ^ s) in *.
  pose proof (digits2_pos_bounds mx) as [X1 X2]. rewrite Hdx in X1, X2.
  assert (Hpow : 0 < 2 ^ (prec - 1)) by (apply Z.pow_pos_nonneg; lia).
  assert (Hpp : 2 ^ prec = 2 * 2 ^ (prec - 1)).
  { rewrite <- Z.pow_succ_r by lia. f_equal. lia. }
  assert (Hps : 2 ^ (prec - 1) <= 2 ^ s <= 2 ^ prec).
  { split; apply Z.pow_le_mono_r; lia. }
  assert (HM : 2 ^ (prec - 1) * 2 ^ (prec - 1) <= M < 2 ^ prec * 2 ^ prec).
  { unfold M. nia. }
  pose proof (Z.sqrt_spec M ltac:(lia)) as [S1 S2].
  pose proof (Z.sqrt_nonneg M) as S0.
  set (q := Z.sqrt M) in *.
  assert (Hq : 2 ^ (prec - 1) <= q < 2 ^ prec).
  { unfold Z.succ in S2. split; nia. }
  destruct q as [| pq | pq] eqn:Eq; try lia.
  assert (Hdq : Zpos (digits2_pos pq) = prec) by (apply digits_unique; lia).
  assert (He' : emin <= e').
  { unfold e'. apply Z.div_le_lower_bound; lia. }
  destruct (binary_round_aux_value false pq e' l (sqrt (value (S754_finite false mx ex))))
    as (m3 & e3 & Hr & Hd3 & He3 & Hrange & Hval); try lia.
  { rewrite value_finite_pos.
    pose proof (pow2_pos e') as Pe.
    assert (Hv : (IZR (Zpos mx) * pow2 ex = IZR M * (pow2 e' * pow2 e'))%R).
    { unfold M. rewrite mult_IZR, <- pow2_IZR, <- pow2_add by lia.
      rewrite Rmult_assoc, <- pow2_add. do 2 f_equal. unfold s. lia. }
    rewrite Hv, sqrt_mult, sqrt_square by (try apply Rmult_le_pos; try apply IZR_le; lra || lia).
    assert (HqR : (IZR (Zpos pq) <= sqrt (IZR M) < IZR (Zpos pq) + 1)%R).
    { split.
      - rewrite <- (sqrt_square (IZR (Zpos pq))) by (apply IZR_le; lia).
        apply sqrt_le_1_alt. rewrite <- mult_IZR. apply IZR_le. exact S1.
      - rewrite <- (sqrt_square (IZR (Zpos pq) + 1)) by (rewrite <- plus_IZR; apply IZR_le; lia).
        apply sqrt_lt_1_alt. split; [apply IZR_le; lia |].
        rewrite <- plus_IZR, <- mult_IZR. apply IZR_lt. unfold Z.succ in S2. exact S2. }
    split; [apply Rmult_le_compat_r | apply Rmult_lt_compat_r]; lra. }
  exists m3, e3. split; [exact Hr |]. split; [exact Hd3 |]. split; [lia |].
  rewrite (value_finite_pos m3 e3). exact Hval.
Qed.

Lemma Rabs_le_inv (a b : R) : (Rabs a <= b -> - b <= a <= b)%R.
Proof. unfold Rabs. destruct (Rcase_abs a); lra. Qed.

Lemma eps_small : 5 <= prec -> (0 < eps <= / 16)%R.
Proof.
  intros H. unfold FloatR.eps. split; [apply pow2_pos |].
  apply Rle_trans with (pow2 (-4)); [apply pow2_le; lia |].
  assert (H4 : (pow2 (-4) * pow2 4 = 1)%R) by (rewrite <- pow2_add; reflexivity).
  rewrite (pow2_IZR 4) in H4 by lia. change (IZR (2 ^ 4)) with 16%R in H4. lra.
Qed.

(** Dividing a number by the square of its square root, all three
    operations rounded: the result is within [5 * 2^(1-prec)] of 1. *)
Theorem self_quotient (md : positive) (ed : Z) :
  5 <= prec -> 7 <= emax ->
  Zpos (digits2_pos md) = prec ->
  emin + prec <= ed <= emax - prec - 4 ->
  let d := S754_finite false md ed in
  let m := SFsqrt prec emax d in
  exists mr er,
    SFdiv prec emax d (SFmul prec emax m m) = S754_finite false mr er /\
    (Rabs (value (S754_finite false mr er) - 1) <= 5 * eps)%R.
Proof.
  intros Hprec Hemax Hd Hed d m.
  assert (Hemin : emin = 3 - emax - prec) by reflexivity.
  pose proof (Z.mul_div_le (ed + 1 - prec) 2 ltac:(lia)) as D1.
  pose proof (Z.mul_succ_div_gt (ed + 1 - prec) 2 ltac:(lia)) as D2.
  destruct (SFsqrt_normal md ed Hd) as (mm & em & Hm & Hdm & Hem & Vm); try lia.
  subst m. fold d in Hm, Vm. rewrite Hm.
  destruct (SFmul_normal mm mm em em Hdm Hdm) as (mp & ep & Hp & Hdp & Hep & Vp); try lia.
  rewrite Hp.
  destruct (SFdiv_normal md mp ed ep Hd Hdp) as (mr & er & Hr & Hdr & Vr); try lia.
  fold d in Hr, Vr.
  exists mr, er. split; [exact Hr |].
  pose proof (eps_small Hprec) as [E0 E1].
  pose proof (value_pos md ed) as Px. fold d in Px.
  pose proof (value_pos mm em) as Pm.
  pose proof (value_pos mp ep) as Pp.
  pose proof (value_pos mr er) as Pr.
  set (x := value d) in *.
  set (vm := value (S754_finite false mm em)) in *.
  set (vp := value (S754_finite false mp ep)) in *.
  set (vr := value (S754_finite false mr er)) in *.
  set (e := eps) in *.
  assert (Hy : (sqrt x * sqrt x = x)%R) by (apply sqrt_sqrt; lra).
  assert (Py : (0 < sqrt x)%R) by (apply sqrt_lt_R0; exact Px).
  set (y := sqrt x) in *.
  assert (Ht : (x / vp * vp = x)%R) by (field; lra).
  set (t := (x / vp)%R) in *.
  apply Rabs_le_inv in Vm, Vp, Vr.
  (* the square root *)
  assert (Y1 : ((1 - e) * vm <= y <= (1 + e) * vm)%R) by (split; lra).
  assert (X1 : ((1 - e) * (1 - e) * (vm * vm) <= x)%R).
  { rewrite <- Hy. replace ((1 - e) * (1 - e) * (vm * vm))%R
      with (((1 - e) * vm) * ((1 - e) * vm))%R by ring.
    apply Rmult_le_compat; nra. }
  assert (X2 : (x <= (1 + e) * (1 + e) * (vm * vm))%R).
  { rewrite <- Hy. replace ((1 + e) * (1 + e) * (vm * vm))%R
      with (((1 + e) * vm) * ((1 + e) * vm))%R by ring.
    apply Rmult_le_compat; nra. }
  (* the product *)
  assert (P1 : ((1 - e) * vp <= vm * vm <= (1 + e) * vp)%R) by (split; lra).
  assert (T1 : ((1 - e) * (1 - e) * (1 - e) * vp <= x)%R).
  { apply Rle_trans with ((1 - e) * (1 - e) * (vm * vm))%R; [| exact X1].
    rewrite (Rmult_assoc ((1 - e) * (1 - e))). apply Rmult_le_compat_l; nra. }
  assert (T2 : (x <= (1 + e) * (1 + e) * (1 + e) * vp)%R).
  { apply Rle_trans with ((1 + e) * (1 + e) * (vm * vm))%R; [exact X2 |].
    rewrite (Rmult_assoc ((1 + e) * (1 + e))). apply Rmult_le_compat_l; nra. }
  assert (T3 : ((1 - e) * (1 - e) * (1 - e) <= t <= (1 + e) * (1 + e) * (1 + e))%R).
  { rewrite <- Ht in T1, T2. split.
    - apply Rmult_le_reg_r with vp; lra.
    - apply Rmult_le_reg_r with vp; lra. }
  (* the quotient *)
  assert (Q1 : ((1 - e) * vr <= t <= (1 + e) * vr)%R) by (split; lra).
  assert (C1 : ((1 + e) * (1 + e) * (1 + e) <= (1 + 5 * e) * (1 - e))%R) by nra.
  assert (C2 : ((1 - 5 * e) * (1 + e) <= (1 - e) * (1 - e) * (1 - e))%R) by nra.
  apply Rabs_le. split.
  - assert (H : ((1 - 5 * e) * (1 + e) <= vr * (1 + e))%R) by lra.
    apply Rmult_le_reg_r in H; lra.
  - assert (H : (vr * (1 - e) <= (1 + 5 * e) * (1 - e))%R) by lra.
    apply Rmult_le_reg_r in H; lra.
Qed.

End Format.

End RoundingFacts.

(** ** Cosine similarity *)

Module CosineFacts.
Import Reals Lra JS.
Local Open Scope R_scope.

Lemma sum_of_squares_nonneg (l : list (R * R)) (acc : R) :
  0 <= acc ->
  (forall xy, In xy l -> fst xy = snd xy) ->
  0 <= fold_left (fun sum xy => sum + fst xy * snd xy) l acc.
Proof.
  revert acc. induction l as [| [x y] l IH]; intros acc Hacc Heq; cbn [fold_left].
  - exact Hacc.
  - apply IH.
    + assert (E : x = y) by (apply (Heq (x, y)); now left).
      subst y. cbn [fst snd]. pose proof (Rle_0_sqr x) as H. unfold Rsqr in H. lra.
    + intros xy Hin. apply Heq. now right.
Qed.

Lemma combine_diag {A : Type} (v : list A) (xy : A * A) :
  In xy (combine v v) -> fst xy = snd xy.
Proof.
  induction v as [| a v IH]; cbn [combine]; [intros [] |].
  intros [<- | H]; [reflexivity | now apply IH].
Qed.

Lemma dot_self_nonneg (v : list R) : 0 <= UtilsR.dot v v.
Proof.
  unfold UtilsR.dot. apply sum_of_squares_nonneg; [lra |].
  intros xy. apply combine_diag.
Qed.

(** In exact arithmetic the cosine similarity of a vector of nonzero
    magnitude with itself is 1. *)
Remark cosineSimilarity_self_exact (v : list R) :
  UtilsR.magnitude v <> 0 -> UtilsR.cosineSimilarity v v = 1.
Proof.
  intros Hm. unfold UtilsR.cosineSimilarity. unfold UtilsR.magnitude in *.
  rewrite sqrt_sqrt by apply dot_self_nonneg.
  apply Rdiv_diag. intros E. apply Hm. rewrite E. apply sqrt_0.
Qed.




(** At a vector whose magnitude is itself a binary64 number the score is
    exactly 1.0. *)
Example cosineSimilarity_self_3_4 :
  Utils.cosineSimilarity [Examples.three; of_Z 4] [Examples.three; of_Z 4] = Examples.one.
Proof. vm_compute. reflexivity. Qed.

End CosineFacts.

(** * Further properties of the code *)

(** ** The retrieval pipeline, on every input *)

Module PipelineFacts.
Import Effects.

Local Open Scope string_scope.

Local Abbreviation ada := "text-embedding-ada-002".
Local Abbreviation failed_prefix := "RAG processing failed: ".

Lemma guard_cases (q : value) :
  ((q = Str "" \/ typeof q <> "string") /\
   negb (ToBoolean q) || negb (typeof q =? "string") = true) \/
  (exists s, q = Str s /\ s <> "" /\
             negb (ToBoolean q) || negb (typeof q =? "string") = false).
Proof.
  destruct q as [| | b | n | s |];
    try (left; split; [right; discriminate | cbn; now rewrite ?orb_true_r]).
  destruct (String.eqb_spec s "") as [-> | Hs].
  - left. split; [now left | reflexivity].
  - right. exists s. repeat split; [exact Hs |].
    apply guard_false. now exists s.
Qed.

Ltac reaching := constructor; first [reflexivity | assumption].

Ltac run :=
  unfold Rag.POST, Rag.POST_delegating, Rag.getRAGContext, request, handle, attempt, bind,
    loadChunks, getEmbedding, scoreChunks, perform, lift, ret, throw;
  cbn [json req_question req_topK].

(** The delegating handler is [getRAGContext] with its outcome made a response. *)
Lemma POST_delegating_unfold
    (cosineSimilarity : list number -> list number -> number)
    (env : Env) (q : value) (topK : option number) :
  Rag.POST_delegating cosineSimilarity env (request q topK) =
  (fst (Rag.getRAGContext cosineSimilarity env q topK),
   match snd (Rag.getRAGContext cosineSimilarity env q topK) with
   | Normal r => {| status := 200; body := ResultBody r |}
   | Throw e => {| status := 500; body := ErrorBody (message e) |}
   end).
Proof.
  unfold Rag.POST_delegating, request, handle, bind, lift, ret. cbn [json req_question req_topK].
  destruct (Rag.getRAGContext cosineSimilarity env q topK) as [t [r | e]]; cbn;
    rewrite ?app_nil_r; reflexivity.
Qed.

(** The five ways a run can go, for [getRAGContext] and for the inline
    handler given a body that parsed. *)
Lemma pipeline_cases
    (cosineSimilarity : list number -> list number -> number)
    (env : Env) (q : value) (topK : option number) :
  ((q = Str "" \/ typeof q <> "string") /\
   Rag.getRAGContext cosineSimilarity env q topK =
     ([], Throw {| message := failed_prefix ++ "Missing or invalid question" |}) /\
   Rag.POST cosineSimilarity env (request q topK) =
     ([], {| status := 400; body := ErrorBody "Missing or invalid question" |})) \/
  (exists s, q = Str s /\ s <> "" /\
     ((exists e, corpus_file env = Throw e /\
         Rag.getRAGContext cosineSimilarity env q topK =
           ([ReadFile corpus_path], Throw {| message := failed_prefix ++ message e |}) /\
         Rag.POST cosineSimilarity env (request q topK) =
           ([ReadFile corpus_path], {| status := 500; body := ErrorBody (message e) |})) \/
      (exists chunks, corpus_file env = Normal chunks /\
         (truthy_env (OPENAI_API_KEY env) = false /\
          Rag.getRAGContext cosineSimilarity env q topK =
            ([ReadFile corpus_path],
             Throw {| message := failed_prefix ++ "Failed to get embedding for question" |}) /\
          Rag.POST cosineSimilarity env (request q topK) =
            ([ReadFile corpus_path],
             {| status := 500; body := ErrorBody "Embedding API not implemented" |}) \/
          truthy_env (OPENAI_API_KEY env) = true /\
          ((exists e, embeddings_create env s = Throw e /\
              Rag.getRAGContext cosineSimilarity env q topK =
                ([ReadFile corpus_path; EmbeddingsCreate ada s],
                 Throw {| message := failed_prefix ++ "Failed to get embedding for question" |}) /\
              Rag.POST cosineSimilarity env (request q topK) =
                ([ReadFile corpus_path; EmbeddingsCreate ada s],
                 {| status := 500; body := ErrorBody "Embedding API not implemented" |})) \/
           (exists qe, embeddings_create env s = Normal qe /\
              reaches_ranking env q s qe chunks /\
              Rag.getRAGContext cosineSimilarity env q topK =
                (trace_of s qe chunks,
                 Normal (result_of cosineSimilarity s qe chunks (topK_or_default topK))) /\
              Rag.POST cosineSimilarity env (request q topK) =
                (trace_of s qe chunks,
                 {| status := 200;
                    body := ResultBody
                              (result_of cosineSimilarity s qe chunks
                                 (topK_or_default topK)) |}))))))).
Proof.
  destruct (guard_cases q) as [[Hq G] | (s & -> & Hs & G)].
  - left. split; [exact Hq |]. split; run; rewrite G; reflexivity.
  - right. exists s. split; [reflexivity |]. split; [exact Hs |].
    destruct (corpus_file env) as [chunks | e] eqn:Hc.
    + right. exists chunks. split; [reflexivity |].
      destruct (truthy_env (OPENAI_API_KEY env)) eqn:Hkey.
      * right. split; [reflexivity |].
        destruct (embeddings_create env s) as [qe | e] eqn:He.
        -- right. exists qe. split; [reflexivity |].
           assert (Hreach : reaches_ranking env (Str s) s qe chunks) by reaching.
           split; [exact Hreach |].
           split; [now apply getRAGContext_success |].
           unfold request. now rewrite (POST_success _ _ _ _ _ _ _ Hreach).
        -- left. exists e. split; [reflexivity |].
           split; run; rewrite G; cbn [string_of]; rewrite Hc, Hkey, He; reflexivity.
      * left. split; [reflexivity |].
        split; run; rewrite G; cbn [string_of]; rewrite Hc, Hkey; reflexivity.
    + left. exists e. split; [reflexivity |].
      split; run; rewrite G; cbn [string_of]; rewrite Hc; reflexivity.
Qed.

Lemma same_effects
    (cosineSimilarity : list number -> list number -> number)
    (env : Env) (q : value) (topK : option number) :
  fst (Rag.POST cosineSimilarity env (request q topK)) =
  fst (Rag.getRAGContext cosineSimilarity env q topK).
Proof.
  destruct (pipeline_cases cosineSimilarity env q topK)
    as [(_ & -> & ->) | (s & _ & _ & [(e & _ & -> & ->) | (chunks & _ &
         [(_ & -> & ->) | (_ & [(e & _ & -> & ->) | (qe & _ & _ & -> & ->)])])])];
    reflexivity.
Qed.

Lemma effects_inv
    (cosineSimilarity : list number -> list number -> number)
    (env : Env) (q : value) (topK : option number) (t : list Event) :
  effects cosineSimilarity env q topK t ->
  t = fst (Rag.getRAGContext cosineSimilarity env q topK).
Proof.
  intros [| |]; [reflexivity | apply same_effects |].
  now rewrite POST_delegating_unfold.
Qed.

(** X1.  The three implementations perform the same effects on every
    input, successful or not: the inline handler, the delegating handler
    and [getRAGContext] read the corpus, call the embedding service and
    compute similarities in exactly the same way. *)
Theorem implementations_perform_the_same_effects
    (cosineSimilarity : list number -> list number -> number)
    (env : Env) (q : value) (topK : option number) :
  fst (Rag.POST cosineSimilarity env (request q topK)) =
    fst (Rag.getRAGContext cosineSimilarity env q topK) /\
  fst (Rag.POST_delegating cosineSimilarity env (request q topK)) =
    fst (Rag.getRAGContext cosineSimilarity env q topK).
Proof.
  split; [apply same_effects |]. now rewrite POST_delegating_unfold.
Qed.

(** X2.  A run either does nothing at all, which happens exactly when the
    question is empty or not a string, or starts by reading the corpus
    file, at its fixed path, and reads no file again. *)
Theorem corpus_is_read_first_and_once
    (cosineSimilarity : list number -> list number -> number)
    (env : Env) (q : value) (topK : option number) (t : list Event) :
  effects cosineSimilarity env q topK t ->
  (t = [] <-> (q = Str "" \/ typeof q <> "string")) /\
  (t <> [] ->
   exists rest, t = ReadFile "data/cs61a_syllabus_embeddings.json" :: rest /\
                forallb (fun ev => negb (is_read ev)) rest = true).
Proof.
  intros Ht. apply effects_inv in Ht. subst t.
  destruct (pipeline_cases cosineSimilarity env q topK)
    as [(Hq & -> & _) | (s & -> & Hs & [(e & _ & -> & _) | (chunks & _ &
         [(_ & -> & _) | (_ & [(e & _ & -> & _) | (qe & _ & _ & -> & _)])])])];
    cbn [fst].
  - split; [tauto |]. intros H. now contradiction H.
  - split.
    + split; [discriminate |]. intros [H | H]; [injection H as H; now contradiction Hs |].
      now contradiction H.
    + intros _. eexists. split; reflexivity.
  - split.
    + split; [discriminate |]. intros [H | H]; [injection H as H; now contradiction Hs |].
      now contradiction H.
    + intros _. eexists. split; reflexivity.
  - split.
    + split; [discriminate |]. intros [H | H]; [injection H as H; now contradiction Hs |].
      now contradiction H.
    + intros _. eexists. split; reflexivity.
  - split.
    + split; [discriminate |]. intros [H | H]; [injection H as H; now contradiction Hs |].
      now contradiction H.
    + intros _. unfold trace_of. eexists. split; [reflexivity |].
      cbn [forallb is_read negb andb]. apply forallb_forall.
      intros ev Hev. apply in_map_iff in Hev as (c & <- & _). reflexivity.
Qed.

Lemma corpus_is_read_first_and_once_witness :
  fst (Rag.getRAGContext Utils.cosineSimilarity Examples.env_service_down Examples.when None)
    = [ReadFile "data/cs61a_syllabus_embeddings.json";
       EmbeddingsCreate ada "When is the midterm?"] /\
  fst (Rag.POST Utils.cosineSimilarity Examples.env (request (Str "") None)) = [].
Proof.
  split; [reflexivity |].
  apply (corpus_is_read_first_and_once Utils.cosineSimilarity Examples.env (Str "") None).
  - apply of_POST.
  - now left.
Defined.

(** X3.  The embedding service is called only for a non-empty string
    question, with the credential set to a non-empty value, after the
    corpus has loaded; it is called once, for the question itself with the
    model [text-embedding-ada-002], and only similarities follow, one per
    chunk when the service answers and none when it fails. *)
Theorem embedding_request_needs_corpus_and_credential
    (cosineSimilarity : list number -> list number -> number)
    (env : Env) (q : value) (topK : option number) (t : list Event)
    (model input : string) :
  effects cosineSimilarity env q topK t ->
  In (EmbeddingsCreate model input) t ->
  model = "text-embedding-ada-002" /\
  q = Str input /\ input <> "" /\
  (exists key, OPENAI_API_KEY env = Some key /\ key <> "") /\
  exists chunks rest,
    corpus_file env = Normal chunks /\
    t = ReadFile corpus_path :: EmbeddingsCreate model input :: rest /\
    ((exists e, embeddings_create env input = Throw e /\ rest = []) \/
     (exists qe, embeddings_create env input = Normal qe /\
                 rest = map (fun c => CosineSimilarity qe (embedding c)) chunks)).
Proof.
  intros Ht Hin. apply effects_inv in Ht. subst t.
  assert (Hkey : truthy_env (OPENAI_API_KEY env) = true ->
                 exists key, OPENAI_API_KEY env = Some key /\ key <> "").
  { unfold truthy_env. destruct (OPENAI_API_KEY env) as [key |]; [| discriminate].
    intros H. exists key. split; [reflexivity |].
    apply String.eqb_neq. now apply negb_true_iff. }
  destruct (pipeline_cases cosineSimilarity env q topK)
    as [(Hq & E & _) | (s & -> & Hs & [(e & _ & E & _) | (chunks & Hc &
         [(_ & E & _) | (Hk & [(e & He & E & _) | (qe & He & _ & E & _)])])])];
    rewrite E in Hin |- *; cbn [fst] in Hin |- *.
  - destruct Hin.
  - destruct Hin as [H | []]. discriminate.
  - destruct Hin as [H | []]. discriminate.
  - destruct Hin as [H | [H | []]]; [discriminate |]. injection H as <- <-.
    repeat split; [exact Hs | now apply Hkey |].
    exists chunks, []. split; [exact Hc |]. split; [reflexivity |]. left. now exists e.
  - unfold trace_of in Hin |- *.
    destruct Hin as [H | [H | H]]; [discriminate | |].
    + injection H as <- <-.
      repeat split; [exact Hs | now apply Hkey |].
      eexists chunks, _. split; [exact Hc |]. split; [reflexivity |]. right. now exists qe.
    + apply in_map_iff in H as (c & H & _). discriminate.
Qed.

Lemma embedding_request_needs_corpus_and_credential_witness :
  exists chunks rest,
    corpus_file Examples.env = Normal chunks /\
    fst (Rag.POST Utils.cosineSimilarity Examples.env (request Examples.when None)) =
      ReadFile corpus_path :: EmbeddingsCreate ada "When is the midterm?" :: rest /\
    List.length rest = List.length chunks.
Proof.
  destruct (embedding_request_needs_corpus_and_credential Utils.cosineSimilarity Examples.env
              Examples.when None _ ada "When is the midterm?"
              (of_POST Utils.cosineSimilarity Examples.env Examples.when None))
    as (_ & _ & _ & _ & chunks & rest & Hc & Ht & Hrest).
  - cbn. tauto.
  - exists chunks, rest. repeat split; [exact Hc | exact Ht |].
    destruct Hrest as [(e & He & _) | (qe & _ & ->)]; [discriminate |].
    apply length_map.
Defined.

(** X4.  The status of the inline handler's response tells the outcome:
    it is 200, 400 or 500; 200 exactly when the body is a retrieval
    result; 400 exactly when the body parsed and its question is empty or
    not a string; and a body that fails to parse is answered 500 with the
    parser's message, nothing having been read or requested. *)
Theorem POST_status_tells_the_outcome
    (cosineSimilarity : list number -> list number -> number)
    (env : Env) (req : Rag.Request) :
  (status (snd (Rag.POST cosineSimilarity env req)) = 200 \/
   status (snd (Rag.POST cosineSimilarity env req)) = 400 \/
   status (snd (Rag.POST cosineSimilarity env req)) = 500) /\
  (status (snd (Rag.POST cosineSimilarity env req)) = 200 <->
   exists r, body (snd (Rag.POST cosineSimilarity env req)) = ResultBody r) /\
  (status (snd (Rag.POST cosineSimilarity env req)) = 400 <->
   exists b, json req = Normal b /\
             (req_question b = Str "" \/ typeof (req_question b) <> "string")) /\
  (forall e, json req = Throw e ->
     Rag.POST cosineSimilarity env req =
       ([], {| status := 500; body := ErrorBody (message e) |})).
Proof.
  destruct req as [[[q topK] | e0]].
  - fold (request q topK). cbn [json].
    assert (Hvalid : forall s, q = Str s -> s <> "" ->
                     ~ (exists b, Normal {| req_question := q; req_topK := topK |} = Normal b /\
                                  (req_question b = Str "" \/
                                   typeof (req_question b) <> "string"))).
    { intros s -> Hs (b & Hb & H). injection Hb as <-. cbn in H.
      destruct H as [H | H]; [injection H as H; now contradiction Hs | now contradiction H]. }
    destruct (pipeline_cases cosineSimilarity env q topK)
      as [(Hq & _ & E) | (s & Eq & Hs & [(e & _ & _ & E) | (chunks & _ &
           [(_ & _ & E) | (_ & [(e & _ & _ & E) | (qe & _ & _ & _ & E)])])])];
      rewrite E; cbn [snd status body];
      try specialize (Hvalid s Eq Hs);
      (split; [tauto |]);
      (split; [split; [try discriminate; try (intros _; eexists; reflexivity)
                      | try (intros [r H]; discriminate); try reflexivity] |]);
      (split; [| intros e' H; discriminate]).
    + split; [| reflexivity]. intros _. eexists. split; [reflexivity | exact Hq].
    + split; [discriminate | intros H; now contradiction Hvalid].
    + split; [discriminate | intros H; now contradiction Hvalid].
    + split; [discriminate | intros H; now contradiction Hvalid].
    + split; [discriminate | intros H; now contradiction Hvalid].
  - cbn.
    split; [tauto |].
    split; [split; [discriminate | intros [r H]; discriminate] |].
    split; [split; [discriminate | intros (b & H & _); discriminate] |].
    intros e H. injection H as <-. reflexivity.
Qed.

(** X5.  The delegating handler returns the successful responses of the
    inline handler, after the same effects, and no others; its failures
    are all answered 500, an invalid question included, and when the body
    parsed the error carries the prefix ['RAG processing failed: ']. *)
Theorem POST_delegating_agrees_on_success
    (cosineSimilarity : list number -> list number -> number)
    (env : Env) (req : Rag.Request) :
  (forall t r,
     Rag.POST_delegating cosineSimilarity env req = (t, NextResponse_json (ResultBody r) None) <->
     Rag.POST cosineSimilarity env req = (t, NextResponse_json (ResultBody r) None)) /\
  (status (snd (Rag.POST_delegating cosineSimilarity env req)) = 200 \/
   status (snd (Rag.POST_delegating cosineSimilarity env req)) = 500) /\
  (forall b, json req = Normal b ->
     status (snd (Rag.POST_delegating cosineSimilarity env req)) = 500 ->
     exists m, body (snd (Rag.POST_delegating cosineSimilarity env req)) =
               ErrorBody ("RAG processing failed: " ++ m)).
Proof.
  destruct req as [[[q topK] | e0]].
  - fold (request q topK). cbn [json]. rewrite POST_delegating_unfold.
    destruct (pipeline_cases cosineSimilarity env q topK)
      as [(Hq & E & E') | (s & Eq & Hs & [(e & _ & E & E') | (chunks & _ &
           [(_ & E & E') | (_ & [(e & _ & E & E') | (qe & _ & _ & E & E')])])])];
      rewrite E, E'; cbn [fst snd status body message];
      (split; [intros t r; split; intros H; try discriminate H |]);
      try (split; [tauto |]; intros b _ _; eexists; reflexivity).
    + exact H.
    + exact H.
    + split; [tauto |]. intros b _ H. discriminate.
  - cbn. split; [intros t r; split; discriminate |].
    split; [tauto |]. intros b H. discriminate.
Qed.



End PipelineFacts.

(** ** The ranking, beyond its order *)

Module RankingFacts.

Local Open Scope string_scope.

Lemma StronglySorted_app_inv {A : Type} (R : A -> A -> Prop) (l1 l2 : list A) :
  StronglySorted R (l1 ++ l2) -> forall x y, In x l1 -> In y l2 -> R x y.
Proof.
  induction l1 as [| a l1 IH]; cbn [app]; intros Hs x y Hx Hy; [destruct Hx |].
  inversion Hs as [| ? ? Hs' Ha]; subst.
  destruct Hx as [<- | Hx].
  - rewrite Forall_forall in Ha. apply Ha. apply in_or_app. now right.
  - now apply IH.
Qed.

(** [slice(0, topK)] keeps the whole array when [topK] is at least its
    length, or infinite. *)
Lemma slice0_all {A : Type} (l : list A) (e : number) :
  ToIntegerOrInfinity e = PosInfinity \/
  (exists K, ToIntegerOrInfinity e = Integer K /\ (Z.of_nat (List.length l) <= K)%Z) ->
  slice0 l e = l.
Proof.
  intros [H | (K & H & HK)]; unfold slice0; rewrite H.
  - rewrite Nat2Z.id. apply firstn_all.
  - destruct (Z.ltb_spec K 0) as [Hlt | _]; [lia |].
    rewrite Z.min_r, Nat2Z.id by lia. apply firstn_all.
Qed.

(** The entries returned and the entries left out, from the sorted corpus. *)
Lemma topChunks_split
    (cosineSimilarity : list number -> list number -> number)
    (qe : list number) (chunks : list SyllabusChunk) (topK : number) :
  exists kept dropped,
    sort compareFn (scored cosineSimilarity qe chunks) = (kept ++ dropped)%list /\
    ranked cosineSimilarity qe chunks topK = kept /\
    Permutation (map pick kept ++ map pick dropped)
                (corpus_entries cosineSimilarity qe chunks).
Proof.
  unfold ranked.
  destruct (ListFacts.slice0_firstn (sort compareFn (scored cosineSimilarity qe chunks)) topK)
    as [n Hn].
  exists (firstn n (sort compareFn (scored cosineSimilarity qe chunks))),
         (skipn n (sort compareFn (scored cosineSimilarity qe chunks))).
  split; [symmetry; apply firstn_skipn |]. split; [exact Hn |].
  rewrite <- map_app, firstn_skipn.
  replace (corpus_entries cosineSimilarity qe chunks)
    with (map pick (scored cosineSimilarity qe chunks))
    by (unfold corpus_entries, scored; rewrite map_map; reflexivity).
  apply Permutation_map, SortFacts.sort_perm.
Qed.

(** X7.  When no score is NaN, the chunks returned are the best ones:
    [topChunks] together with the chunks left out is the corpus, each chunk
    once, and every chunk returned scores at least as high as every chunk
    left out. *)
Theorem topChunks_are_the_best
    (cosineSimilarity : list number -> list number -> number)
    (env : Env) (q : value) (topK : option number) (r : RetrievalResult)
    (chunks : list SyllabusChunk) (questionEmbedding : list number) :
  retrieval cosineSimilarity env q topK r ->
  corpus_file env = Normal chunks ->
  embeddings_create env (string_of q) = Normal questionEmbedding ->
  scores_ordered cosineSimilarity questionEmbedding chunks ->
  exists left_out,
    Permutation (topChunks r ++ left_out)
                (corpus_entries cosineSimilarity questionEmbedding chunks) /\
    forall t u, In t (topChunks r) -> In u left_out ->
                ge (top_similarity t) (top_similarity u) = true.
Proof.
  intros Hr Hc He Ho.
  rewrite (retrieval_result _ _ _ _ _ _ _ Hr Hc He).
  unfold result_of. cbn [topChunks].
  destruct (topChunks_split cosineSimilarity questionEmbedding chunks (topK_or_default topK))
    as (kept & dropped & Hsplit & -> & Hperm).
  exists (map pick dropped). split; [exact Hperm |].
  intros t u Ht Hu.
  apply in_map_iff in Ht as (x & <- & Hx). apply in_map_iff in Hu as (y & <- & Hy).
  cbn [pick top_similarity].
  pose proof (scored_ordered cosineSimilarity questionEmbedding chunks Ho) as Hsc.
  pose proof (SortFacts.sort_Forall compareFn _ _ Hsc) as Hall.
  pose proof (SortFacts.sort_sorted compareFn score_key score_ordered compareFn_key _ Hsc)
    as Hsorted.
  rewrite Hsplit in Hall, Hsorted. rewrite Forall_forall in Hall.
  rewrite ge_key.
  - apply Z.leb_le. exact (StronglySorted_app_inv _ _ _ Hsorted x y Hx Hy).
  - apply Hall. apply in_or_app. now left.
  - apply Hall. apply in_or_app. now right.
Qed.

Lemma topChunks_are_the_best_witness :
  exists left_out,
    Permutation (topChunks Examples.result_top2 ++ left_out)
      (corpus_entries Utils.cosineSimilarity Examples.query
         [Examples.chunk1; Examples.chunk2; Examples.chunk3]) /\
    forall t u, In t (topChunks Examples.result_top2) -> In u left_out ->
                ge (top_similarity t) (top_similarity u) = true.
Proof.
  apply (topChunks_are_the_best Utils.cosineSimilarity Examples.env Examples.when
           (Some Examples.two) Examples.result_top2).
  - eapply from_getRAGContext. vm_compute. reflexivity.
  - reflexivity.
  - reflexivity.
  - repeat constructor.
Defined.

(** X8.  Sorting and slicing neither lose, repeat nor invent a chunk:
    [topChunks] is part of the corpus, each chunk at most once, whatever
    the scores; and with [topK] at least the size of the corpus, or
    [Infinity], it is the whole corpus. *)
Theorem topChunks_are_chunks_of_the_corpus
    (cosineSimilarity : list number -> list number -> number)
    (env : Env) (q : value) (topK : option number) (r : RetrievalResult)
    (chunks : list SyllabusChunk) (questionEmbedding : list number) :
  retrieval cosineSimilarity env q topK r ->
  corpus_file env = Normal chunks ->
  embeddings_create env (string_of q) = Normal questionEmbedding ->
  (exists left_out,
     Permutation (topChunks r ++ left_out)
                 (corpus_entries cosineSimilarity questionEmbedding chunks)) /\
  (ToIntegerOrInfinity (topK_or_default topK) = PosInfinity \/
   (exists K, ToIntegerOrInfinity (topK_or_default topK) = Integer K /\
              (Z.of_nat (List.length chunks) <= K)%Z) ->
   Permutation (topChunks r) (corpus_entries cosineSimilarity questionEmbedding chunks)).
Proof.
  intros Hr Hc He.
  rewrite (retrieval_result _ _ _ _ _ _ _ Hr Hc He).
  unfold result_of. cbn [topChunks].
  split.
  - destruct (topChunks_split cosineSimilarity questionEmbedding chunks (topK_or_default topK))
      as (kept & dropped & _ & -> & Hperm).
    now exists (map pick dropped).
  - intros Hall. unfold ranked. rewrite slice0_all.
    + replace (corpus_entries cosineSimilarity questionEmbedding chunks)
        with (map pick (scored cosineSimilarity questionEmbedding chunks))
        by (unfold corpus_entries, scored; rewrite map_map; reflexivity).
      apply Permutation_map, SortFacts.sort_perm.
    + rewrite SortFacts.sort_length. unfold scored. rewrite length_map. exact Hall.
Qed.

Lemma topChunks_are_chunks_of_the_corpus_witness :
  exists left_out,
    Permutation (topChunks Examples.result_top2 ++ left_out)
      (corpus_entries Utils.cosineSimilarity Examples.query
         [Examples.chunk1; Examples.chunk2; Examples.chunk3]).
Proof.
  apply (topChunks_are_chunks_of_the_corpus Utils.cosineSimilarity Examples.env Examples.when
           (Some Examples.two) Examples.result_top2).
  - eapply from_getRAGContext. vm_compute. reflexivity.
  - reflexivity.
  - reflexivity.
Defined.

(** X9.  The comparator [b.similarity - a.similarity] is exact on numbers:
    when neither score is NaN, the sign of the rounded difference is the
    IEEE comparison of the two scores, so it is never zero for different
    scores and never of the wrong sign; when either score is NaN, the
    comparator reports a tie. *)
Theorem compareFn_orders_by_score (a b : ScoredChunk) :
  (score_ordered a -> score_ordered b ->
   SFcompare (similarity b) (similarity a) = Some (SortCompare compareFn a b)) /\
  (similarity a = NaN \/ similarity b = NaN -> SortCompare compareFn a b = Eq).
Proof.
  split.
  - intros Ha Hb. rewrite (compareFn_key a b Ha Hb). unfold score_key.
    apply (FloatFacts.SFcompare_scaled prec emax prec_pos prec_lt_emax); assumption.
  - unfold SortCompare, compareFn. intros [-> | ->].
    + destruct (similarity b); reflexivity.
    + reflexivity.
Qed.

Lemma compareFn_orders_by_score_witness :
  SFcompare Examples.one Examples.zero =
    Some (SortCompare compareFn {| chunk := Examples.chunk1; similarity := Examples.zero |}
                                {| chunk := Examples.chunk3; similarity := Examples.one |}) /\
  SortCompare compareFn {| chunk := Examples.chunk_zero; similarity := NaN |}
                        {| chunk := Examples.chunk3; similarity := Examples.one |} = Eq.
Proof.
  split.
  - apply (proj1 (compareFn_orders_by_score
                    {| chunk := Examples.chunk1; similarity := Examples.zero |}
                    {| chunk := Examples.chunk3; similarity := Examples.one |}));
      reflexivity.
  - apply (proj2 (compareFn_orders_by_score
                    {| chunk := Examples.chunk_zero; similarity := NaN |}
                    {| chunk := Examples.chunk3; similarity := Examples.one |})).
    now left.
Defined.

(** X10.  With an empty corpus a run still succeeds: it has no chunk and
    the empty context, whatever [topK] is. *)
Theorem empty_corpus_gives_empty_result
    (cosineSimilarity : list number -> list number -> number)
    (env : Env) (s : string) (topK : option number) (questionEmbedding : list number) :
  s <> "" ->
  truthy_env (OPENAI_API_KEY env) = true ->
  corpus_file env = Normal [] ->
  embeddings_create env s = Normal questionEmbedding ->
  Rag.getRAGContext cosineSimilarity env (Str s) topK =
    ([ReadFile corpus_path; EmbeddingsCreate "text-embedding-ada-002" s],
     Normal {| topChunks := []; context := ""; question := s |}) /\
  Rag.POST cosineSimilarity env (request (Str s) topK) =
    ([ReadFile corpus_path; EmbeddingsCreate "text-embedding-ada-002" s],
     {| status := 200;
        body := ResultBody {| topChunks := []; context := ""; question := s |} |}).
Proof.
  intros Hs Hk Hc He.
  assert (Hreach : reaches_ranking env (Str s) s questionEmbedding [])
    by (constructor; first [reflexivity | assumption]).
  rewrite (getRAGContext_success cosineSimilarity env (Str s) topK s questionEmbedding [] Hreach).
  unfold request.
  rewrite (POST_success cosineSimilarity env (Str s) topK s questionEmbedding [] Hreach).
  unfold result_of, ranked, scored, slice0, trace_of. cbn [map sort].
  rewrite firstn_nil. split; reflexivity.
Qed.

Lemma empty_corpus_gives_empty_result_witness :
  snd (Rag.getRAGContext Utils.cosineSimilarity
         (Examples.env_of (Some "sk-test") (Normal []) (Normal Examples.query))
         Examples.when (Some Examples.two)) =
    Normal {| topChunks := []; context := ""; question := "When is the midterm?" |}.
Proof.
  destruct (empty_corpus_gives_empty_result Utils.cosineSimilarity
              (Examples.env_of (Some "sk-test") (Normal []) (Normal Examples.query))
              "When is the midterm?" (Some Examples.two) Examples.query
              ltac:(discriminate) eq_refl eq_refl eq_refl) as [H _].
  exact (f_equal snd H).
Defined.

End RankingFacts.

(** ** The retrieval block of the chat endpoint, with the route behind it *)

Module ChatFacts.

Local Open Scope string_scope.

Lemma blank_nonempty (s : string) : Chat.blank s = false -> s <> "".
Proof. intros H ->. discriminate. Qed.

(** X11.  The retrieval block leaves [ragContext] empty, or holding the
    context of a retrieval result between the two framing texts; the
    latter only when the message has text that is not blank, the route
    answered with an ok status and a body read as JSON, and the context in
    it is not empty. *)
Theorem context_is_injected_only_when_served
    (fetch_rag : string -> Chat.FetchOutcome) (parts : list Chat.Part) :
  Chat.ragBlock fetch_rag parts = Normal "" \/
  exists res r,
    Chat.blank (Chat.userMessageText parts) = false /\
    fetch_rag (Chat.userMessageText parts) = Chat.Resolved res /\
    Chat.ok res = true /\
    Chat.res_json res = Normal (ResultBody r) /\
    context r <> "" /\
    Chat.ragBlock fetch_rag parts =
      Normal (Chat.framing_before ++ context r ++ Chat.framing_after).
Proof.
  unfold Chat.ragBlock, Chat.tryRag.
  destruct (Chat.blank (Chat.userMessageText parts)) eqn:Hb; cbn [negb]; [now left |].
  destruct (fetch_rag (Chat.userMessageText parts)) as [e | res] eqn:Hf; [now left |].
  destruct (Chat.ok res) eqn:Hok.
  - destruct (Chat.res_json res) as [[err | r] | e] eqn:Hj; [now left | | now left].
    cbn [Chat.ragData_context ToBoolean string_of].
    destruct (String.eqb_spec (context r) "") as [E | E]; cbn [negb]; [now left |].
    right. exists res, r. repeat split; assumption.
  - destruct (Chat.res_text res); now left.
Qed.

(** X12.  The chat endpoint against the inline route.  A message whose
    text is not blank is never answered 400 by the route; and when the
    credential is set, the corpus loads and the service embeds the text,
    the system prompt of the chat is followed by the retrieved context
    (the default four chunks) between the framing texts, or by nothing
    when that context is empty. *)
Theorem chat_injects_the_retrieved_context
    (cosineSimilarity : list number -> list number -> number)
    (JSON_stringify : ResponseBody -> string)
    (env : Env) (systemPrompt : string) (parts : list Chat.Part) :
  Chat.blank (Chat.userMessageText parts) = false ->
  status (snd (Rag.POST cosineSimilarity env
                 (request (Str (Chat.userMessageText parts)) None))) <> 400 /\
  forall qe chunks,
    truthy_env (OPENAI_API_KEY env) = true ->
    corpus_file env = Normal chunks ->
    embeddings_create env (Chat.userMessageText parts) = Normal qe ->
    Chat.streamText_system (Chat.fetch_route cosineSimilarity JSON_stringify env)
      systemPrompt parts =
    Normal (systemPrompt ++
            if context (result_of cosineSimilarity (Chat.userMessageText parts) qe chunks
                          default_topK) =? ""
            then ""
            else Chat.framing_before
                   ++ context (result_of cosineSimilarity (Chat.userMessageText parts) qe chunks
                                 default_topK)
                   ++ Chat.framing_after).
Proof.
  intros Hb. pose proof (blank_nonempty _ Hb) as Hne.
  split.
  - destruct (PipelineFacts.pipeline_cases cosineSimilarity env
                (Str (Chat.userMessageText parts)) None)
      as [([H | H] & _) | (s & _ & _ & [(e & _ & _ & E) | (chunks & _ &
           [(_ & _ & E) | (_ & [(e & _ & _ & E) | (qe & _ & _ & _ & E)])])])];
      try (rewrite E; cbn; discriminate).
    + injection H as H. now contradiction Hne.
    + now contradiction H.
  - intros qe chunks Hk Hc He.
    assert (Hreach : reaches_ranking env (Str (Chat.userMessageText parts))
                       (Chat.userMessageText parts) qe chunks)
      by (constructor; first [reflexivity | assumption]).
    unfold Chat.streamText_system, Chat.ragBlock, Chat.tryRag. rewrite Hb. cbn [negb].
    unfold Chat.fetch_route.
    rewrite (POST_success cosineSimilarity env _ None _ qe chunks Hreach).
    cbn [snd NextResponse_json status body Chat.ok Chat.res_status Chat.res_json
         Chat.ragData_context ToBoolean string_of topK_or_default].
    change ((200 <=? 200)%Z && (200 <=? 299)%Z) with true. cbn iota.
    destruct (context (result_of cosineSimilarity (Chat.userMessageText parts) qe chunks
                         default_topK) =? ""); reflexivity.
Qed.

Lemma chat_injects_the_retrieved_context_witness :
  Chat.streamText_system
    (Chat.fetch_route Utils.cosineSimilarity (fun _ => "") Examples.env)
    "You are a friendly assistant!" [Chat.TextPart "When is the midterm?"] =
  Normal ("You are a friendly assistant!" ++ Chat.framing_before
          ++ ("The midterm is in week 7." ++ LF ++ "---" ++ LF
              ++ "Homework is due on Friday." ++ LF ++ "---" ++ LF
              ++ "Lectures are on Monday.")
          ++ Chat.framing_after).
Proof.
  destruct (chat_injects_the_retrieved_context Utils.cosineSimilarity (fun _ => "") Examples.env
              "You are a friendly assistant!" [Chat.TextPart "When is the midterm?"] eq_refl)
    as [_ H].
  rewrite (H Examples.query [Examples.chunk1; Examples.chunk2; Examples.chunk3]
             eq_refl eq_refl eq_refl).
  vm_compute. reflexivity.
Defined.

End ChatFacts.

(** ** The chat endpoint: checks, writes and responses *)

Module ChatRouteFacts.
Import ChatRoute.

Local Open Scope string_scope.

(** The retrieval block, run: at most one request, no failure, the state
    untouched, and the value the block leaves in [ragContext]. *)
Lemma ragContext_of_run (env : Env) (parts : list Chat.Part) (g : State) :
  exists s,
    Chat.ragBlock (fetch env (rag_url env)) parts = Normal s /\
    ragContext_of env parts g =
      ((if Chat.blank (Chat.userMessageText parts) then []
        else [Fetch (rag_url env) (Chat.userMessageText parts)]), g, Returned s).
Proof.
  unfold ragContext_of, Chat.ragBlock, Chat.tryRag, catch, fetch_rag, bind, call, lift, ret.
  destruct (Chat.blank (Chat.userMessageText parts)); cbn [negb]; [now exists "" |].
  destruct (fetch env (rag_url env) (Chat.userMessageText parts)) as [e | res];
    [now exists "" |].
  destruct (Chat.ok res).
  - destruct (Chat.res_json res) as [ragData | e]; [| now exists ""].
    destruct (ToBoolean (Chat.ragData_context ragData)); eexists; split; reflexivity.
  - destruct (Chat.res_text res); now exists "".
Qed.

(** Every path through a handler: each call is split by its outcome. *)
Ltac explore :=
  repeat first
    [ progress cbn [app fst snd]
    | match goal with
      | |- context [ragContext_of ?e ?p ?g] =>
          let s := fresh "ragContext" in
          let H := fresh "Hrag" in
          let E := fresh "E" in
          destruct (ragContext_of_run e p g) as (s & H & E); rewrite E; clear E
      | |- context [match ?x with _ => _ end] =>
          lazymatch x with
          | context [match _ with _ => _ end] => fail
          | _ => destruct x eqn:?
          end
      end ].

Ltac use_in H :=
  repeat match goal with
         | Heq : ?o = _ |- _ =>
             lazymatch Heq with
             | H => fail
             | _ => rewrite Heq in H
             end
         end.

Ltac use_all := repeat match goal with Heq : ?o = _ |- context [?o] => rewrite Heq end.

Ltac unfold_handlers :=
  unfold process, respond, DELETE, getStreamContext, bind, call, ret, throw.

Lemma last_of_snoc {A : Type} (t t0 : list A) (ev d : A) :
  t = (t0 ++ [ev])%list -> ev = last t d.
Proof. intros ->. now rewrite last_last. Qed.

Lemma POST_of_process (env : Env) (request : Request) (body : PostRequestBody) (g : State) :
  requestBody_of request = Normal body ->
  POST env request g =
    (fst (fst (process env request body g)), snd (fst (process env request body g)),
     match snd (process env request body g) with
     | Returned response => Some response
     | Threw (ChatSDKError code) => Some (ErrorResponse code)
     | Threw _ => None
     end).
Proof.
  intros H. unfold POST. rewrite H.
  destruct (process env request body g) as [[t g'] [r | [c | | e]]]; reflexivity.
Qed.

Lemma POST_unparsed (env : Env) (request : Request) (g : State) (e : Error) :
  requestBody_of request = Throw e ->
  POST env request g = ([], g, Some (ErrorResponse "bad_request:api")).
Proof. intros H. unfold POST. now rewrite H. Qed.

(** A call that throws is the last one made, and what it throws the second
    [try] block throws. *)
Lemma process_throws (env : Env) (request : Request) (body : PostRequestBody) (g : State)
    (x : Thrown) :
  snd (process env request body g) = Threw x <->
  exists t0 ev,
    fst (fst (process env request body g)) = (t0 ++ [ev])%list /\ thrown_by env ev = Some x.
Proof.
  unfold_handlers.
  explore; (split; [intros H; try discriminate H | intros (t0 & ev & HT & Hx)]).
  all: try (injection H as <-;
            match goal with
            | |- exists t0 ev, ?T = _ /\ _ => exists (removelast T), (last T Auth)
            end;
            cbn [removelast last app]; split; [reflexivity |];
            cbn [thrown_by]; use_all; reflexivity).
  all: apply (last_of_snoc _ _ _ Auth) in HT; subst ev; cbn [last] in Hx;
       cbn [thrown_by] in Hx; use_in Hx; cbn [thrown] in Hx;
       first [discriminate Hx | injection Hx as <-; reflexivity].
Qed.

(** The error responses the second [try] block returns by itself. *)
Lemma process_refuses (env : Env) (request : Request) (body : PostRequestBody) (g : State)
    (code : string) :
  snd (process env request body g) = Returned (ErrorResponse code) ->
  In code ["unauthorized:chat"; "rate_limit:chat"; "forbidden:chat"].
Proof.
  unfold_handlers.
  explore; intros H; try discriminate H; injection H as <-; cbn [In]; tauto.
Qed.

Ltac not_above :=
  match goal with
  | Hgt : (?n >? ?m)%Z = false |- _ =>
      let Hc := fresh in
      pose proof (Zgt_cases n m) as Hc; rewrite Hgt in Hc; exact Hc
  end.

Ltac own_chat :=
  let c := fresh "c" in
  let Hc := fresh "Hc" in
  intros c Hc;
  first
    [ discriminate Hc
    | injection Hc as <-;
      match goal with
      | Hne : negb (?a =? ?b) = false |- _ =>
          apply negb_false_iff in Hne; apply String.eqb_eq in Hne; exact Hne
      end ].

Ltac build_cleared :=
  constructor;
  [ eassumption
  | eexists; split; eassumption
  | eexists; split; [eassumption | not_above]
  | eassumption
  | own_chat ].

(** The events before and after the retrieval request of a trace. *)
Ltac split_at_fetch T acc :=
  lazymatch T with
  | Fetch _ _ :: ?rest => exists (rev acc), rest
  | ?ev :: ?rest => split_at_fetch rest (ev :: acc)
  end.

Ltac trace_cases H :=
  cbn [In] in H;
  repeat (destruct H as [H | H]; [try discriminate H |]);
  try solve [destruct H].

(** X13.  A request to the chat endpoint asks the retrieval route at most
    once, at [NEXTAUTH_URL] (or [http://localhost:3000]) followed by
    [/api/rag], with the text of the user's message as the question, never
    for a text that is blank, and only after the user's message has been
    saved and the stream identifier registered. *)
Theorem POST_asks_the_route_at_most_once (env : Env) (request : Request) (g : State) :
  (List.length (filter is_fetch (fst (fst (POST env request g)))) <= 1)%nat /\
  forall url question,
    In (Fetch url question) (fst (fst (POST env request g))) ->
    exists body before after,
      requestBody_of request = Normal body /\
      url = rag_url env /\
      question = Chat.userMessageText (message_parts (message body)) /\
      Chat.blank question = false /\
      fst (fst (POST env request g)) = (before ++ Fetch url question :: after)%list /\
      In (SaveMessages [user_message env body]) before /\
      In (CreateStreamId (generateUUID env) (id body)) before.
Proof.
  destruct (requestBody_of request) as [body | e] eqn:Hb.
  - rewrite (POST_of_process env request body g Hb). cbn [fst snd].
    unfold_handlers.
    explore; (split; [cbn [filter is_fetch List.length]; lia |]);
      intros url question Hin; trace_cases Hin;
      injection Hin as <- <-; exists body;
      match goal with
      | |- exists before after, _ /\ _ /\ _ /\ _ /\ ?T = _ /\ _ => split_at_fetch T (@nil Event)
      end;
      cbn [rev app];
      (split; [reflexivity |]); (split; [reflexivity |]); (split; [reflexivity |]);
      (split; [assumption |]); (split; [reflexivity |]);
      unfold user_message; cbn [In]; tauto.
  - rewrite (POST_unparsed env request g e Hb). cbn [fst].
    split; [cbn; lia |]. intros url question [].
Qed.

(** X14.  Apart from looking up the session, the chat endpoint makes a
    call only for a signed-in user; and it writes to the database,
    generates a title or asks the retrieval route only for a request that
    cleared every check: the body parsed, the session has a user, the user
    has not sent more messages in the last 24 hours than the daily limit,
    and the chat is new or the user's own. *)
Theorem POST_writes_only_when_cleared
    (env : Env) (request : Request) (g : State) (ev : Event) :
  In ev (fst (fst (POST env request g))) ->
  (ev <> Auth ->
   exists body session u,
     requestBody_of request = Normal body /\
     auth env = Returned session /\ user_of session = Some u) /\
  (writes ev = true \/ creates ev = true \/ is_fetch ev = true ->
   exists body u chat, cleared env request body u chat).
Proof.
  destruct (requestBody_of request) as [body | e] eqn:Hb.
  - rewrite (POST_of_process env request body g Hb). cbn [fst snd].
    unfold_handlers.
    explore; intros Hin; (split; [intros Hne | intros Hw]).
    all: try solve [ trace_cases Hin; subst ev;
                     first [ now contradiction Hne
                           | exists body; eexists _, _; repeat split;
                             first [reflexivity | eassumption] ] ].
    all: first
           [ solve [ trace_cases Hin; subst ev; cbn in Hw;
                     destruct Hw as [Hw | [Hw | Hw]]; discriminate Hw ]
           | exists body; eexists _, _; build_cleared ].
  - rewrite (POST_unparsed env request g e Hb). intros [].
Qed.

Lemma POST_writes_only_when_cleared_witness :
  exists body u chat, cleared RouteExamples.env RouteExamples.request body u chat.
Proof.
  refine (proj2 (POST_writes_only_when_cleared RouteExamples.env RouteExamples.request None
                   (SaveMessages [user_message RouteExamples.env RouteExamples.body]) _) _).
  - vm_compute. tauto.
  - left. reflexivity.
Defined.

(** X15.  The daily limit is inclusive: a user who has sent more messages
    than the limit is refused with [rate_limit:chat] before the chat is
    looked up and nothing is written, and a user who has sent exactly as
    many as the limit is let through to the next step. *)
Theorem daily_limit_is_inclusive
    (env : Env) (request : Request) (g : State) (body : PostRequestBody)
    (session : option Session) (u : User) (sent : Z) :
  requestBody_of request = Normal body ->
  auth env = Returned session ->
  user_of session = Some u ->
  getMessageCountByUserId env (user_id u) 24 = Returned sent ->
  ((maxMessagesPerDay env (user_type u) < sent)%Z ->
   POST env request g =
     ([Auth; GetMessageCountByUserId (user_id u) 24], g,
      Some (ErrorResponse "rate_limit:chat"))) /\
  ((sent <= maxMessagesPerDay env (user_type u))%Z ->
   exists rest,
     fst (fst (POST env request g)) =
       Auth :: GetMessageCountByUserId (user_id u) 24 :: GetChatById (id body) :: rest).
Proof.
  intros Hb Ha Hu Hn.
  rewrite (POST_of_process env request body g Hb).
  unfold process, bind, call, ret. rewrite Ha. cbn [app fst snd]. rewrite Hu, Hn. cbn [app fst snd].
  split; intros Hlim.
  - assert (E : (sent >? maxMessagesPerDay env (user_type u))%Z = true)
      by (apply Z.gtb_lt; lia).
    rewrite E. reflexivity.
  - assert (E : (sent >? maxMessagesPerDay env (user_type u))%Z = false)
      by (rewrite Z.gtb_ltb; apply Z.ltb_ge; lia).
    rewrite E. unfold respond, getStreamContext, bind, call, ret.
    explore; eexists; reflexivity.
Qed.

Lemma daily_limit_is_inclusive_witness :
  POST (RouteExamples.env_of 101 None RouteExamples.no_redis) RouteExamples.request None =
    ([Auth; GetMessageCountByUserId "alice" 24], None,
     Some (ErrorResponse "rate_limit:chat")) /\
  exists rest,
    fst (fst (POST (RouteExamples.env_of 100 None RouteExamples.no_redis)
                RouteExamples.request None)) =
      Auth :: GetMessageCountByUserId "alice" 24 :: GetChatById "chat-1" :: rest.
Proof.
  split.
  - apply (daily_limit_is_inclusive (RouteExamples.env_of 101 None RouteExamples.no_redis)
             RouteExamples.request None RouteExamples.body
             (Some {| user := Some RouteExamples.alice |}) RouteExamples.alice 101
             eq_refl eq_refl eq_refl eq_refl).
    reflexivity.
  - apply (daily_limit_is_inclusive (RouteExamples.env_of 100 None RouteExamples.no_redis)
             RouteExamples.request None RouteExamples.body
             (Some {| user := Some RouteExamples.alice |}) RouteExamples.alice 100
             eq_refl eq_refl eq_refl eq_refl).
    discriminate.
Defined.

(** X16.  A chat is made only when it does not exist yet.  For a request
    that cleared the checks: when the chat exists, no title is generated
    and no chat is saved; when it does not, the chat that is saved has the
    identifier of the request, the session's user as its owner, the
    generated title and the requested visibility, and it is saved before
    anything else is written. *)
Theorem POST_creates_a_chat_only_when_new
    (env : Env) (request : Request) (g : State) (body : PostRequestBody)
    (u : User) (chat : option ChatRow) :
  cleared env request body u chat ->
  (forall c, chat = Some c ->
     forallb (fun ev => negb (creates ev)) (fst (fst (POST env request g))) = true) /\
  (chat = None ->
   forall row, In (SaveChat row) (fst (fst (POST env request g))) ->
     exists generated rest,
       generateTitleFromUserMessage env (message body) = Returned generated /\
       row = {| chat_id := id body; userId := user_id u; title := generated;
                visibility := selectedVisibilityType body |} /\
       fst (fst (POST env request g)) =
         ([Auth; GetMessageCountByUserId (user_id u) 24; GetChatById (id body);
           GenerateTitleFromUserMessage (message body); SaveChat row] ++ rest)%list /\
       forallb (fun ev => negb (writes ev) && negb (creates ev))
               [Auth; GetMessageCountByUserId (user_id u) 24; GetChatById (id body)] = true /\
       forallb (fun ev => negb (creates ev)) rest = true).
Proof.
  intros [Hb (session & Ha & Hu) (sent & Hn & Hle) Hchat Hown].
  rewrite (POST_of_process env request body g Hb). cbn [fst].
  assert (E : (sent >? maxMessagesPerDay env (user_type u))%Z = false)
    by (rewrite Z.gtb_ltb; apply Z.ltb_ge; lia).
  unfold process, bind, call, ret. rewrite Ha. cbn [app fst snd].
  rewrite Hu, Hn. cbn [app fst snd]. rewrite E, Hchat. cbn [app fst snd].
  split.
  - intros c ->. rewrite (Hown c eq_refl), String.eqb_refl. cbn [negb].
    unfold respond, getStreamContext, bind, call, ret.
    explore; reflexivity.
  - intros ->. unfold respond, getStreamContext, bind, call, ret.
    explore; intros row Hin; trace_cases Hin; injection Hin as <-;
      eexists _, _; (split; [reflexivity |]); (split; [reflexivity |]);
      (split; [reflexivity |]); split; reflexivity.
Qed.

Lemma POST_creates_a_chat_only_when_new_witness :
  forallb (fun ev => negb (creates ev))
    (fst (fst (POST (RouteExamples.env_of 3 (Some (RouteExamples.chat_of "alice"))
                       RouteExamples.no_redis)
                 RouteExamples.request None))) = true.
Proof.
  refine (proj1 (POST_creates_a_chat_only_when_new
                   (RouteExamples.env_of 3 (Some (RouteExamples.chat_of "alice"))
                      RouteExamples.no_redis)
                   RouteExamples.request None RouteExamples.body RouteExamples.alice
                   (Some (RouteExamples.chat_of "alice")) _)
                (RouteExamples.chat_of "alice") eq_refl).
  constructor.
  - reflexivity.
  - eexists. split; reflexivity.
  - exists 3%Z. split; [reflexivity | vm_compute; discriminate].
  - reflexivity.
  - intros c Hc. injection Hc as <-. reflexivity.
Defined.

(** X17.  When the chat endpoint answers with a stream, the request
    cleared the checks, the user's message was saved (as a row with role
    ['user'] and no attachment) and the stream registered under a fresh
    identifier, and the [streamText] call gets: the selected model; the
    system prompt followed by what the retrieval block left in
    [ragContext]; the messages of the chat followed by the new message;
    no tool for the reasoning model and the four tools otherwise.  The
    stream is resumable exactly when a stream context exists afterwards. *)
Theorem POST_streams_after_saving
    (env : Env) (request : Request) (g g' : State) (t : list Event)
    (resumable : option (StreamContext * string)) (stream : StreamText) :
  POST env request g = (t, g', Some (StreamResponse resumable stream)) ->
  exists body u chat history ragContext,
    cleared env request body u chat /\
    getMessagesByChatId env (id body) = Returned history /\
    Chat.ragBlock (fetch env (rag_url env)) (message_parts (message body)) =
      Normal ragContext /\
    stream =
      {| model := selectedChatModel body;
         system := systemPrompt env (selectedChatModel body) (geolocation request)
                     ++ ragContext;
         messages := (convertToUIMessages env history ++ [message body])%list;
         experimental_activeTools :=
           if selectedChatModel body =? "chat-model-reasoning" then []
           else ["getWeather"; "createDocument"; "updateDocument"; "requestSuggestions"] |} /\
    resumable = option_map (fun context => (context, generateUUID env)) g' /\
    In (SaveMessages [user_message env body]) t /\
    In (CreateStreamId (generateUUID env) (id body)) t.
Proof.
  destruct (requestBody_of request) as [body | e] eqn:Hb.
  - rewrite (POST_of_process env request body g Hb).
    unfold_handlers.
    explore; intros H; try discriminate H; injection H as <- <- <- <-;
      exists body; eexists _, _, _, _;
      (split; [build_cleared |]);
      (split; [eassumption |]); (split; [eassumption |]);
      (split; [reflexivity |]); (split; [reflexivity |]);
      unfold user_message; cbn [In]; tauto.
  - rewrite (POST_unparsed env request g e Hb). discriminate.
Qed.

Lemma POST_streams_after_saving_witness :
  exists ragContext,
    Chat.ragBlock (fetch RouteExamples.env (rag_url RouteExamples.env))
      [Chat.TextPart "When is the midterm?"] = Normal ragContext /\
    system RouteExamples.streamed = "You are a friendly assistant!" ++ ragContext /\
    In (SaveMessages [user_message RouteExamples.env RouteExamples.body])
       (fst (fst (POST RouteExamples.env RouteExamples.request None))).
Proof.
  assert (E : POST RouteExamples.env RouteExamples.request None =
              (fst (fst (POST RouteExamples.env RouteExamples.request None)), None,
               Some (StreamResponse None RouteExamples.streamed)))
    by (vm_compute; reflexivity).
  destruct (POST_streams_after_saving RouteExamples.env RouteExamples.request None None _
              None RouteExamples.streamed E)
    as (body & u & chat & history & ragContext & [Hb _ _ _ _] & _ & Hrag & Hs & _ & Hin & _).
  injection Hb as <-.
  exists ragContext. split; [exact Hrag |]. split; [| exact Hin].
  rewrite Hs. reflexivity.
Defined.

(** X18.  The chat endpoint returns without a response exactly when a
    call it made threw something other than a [ChatSDKError]; that call is
    the last one made.  A failure of the retrieval request or of the
    creation of the stream context never has this effect.  And an error
    response other than the four the handler builds itself is that of a
    [ChatSDKError] thrown by the last call. *)
Theorem POST_gives_no_response_when_a_call_fails
    (env : Env) (request : Request) (g : State) :
  (snd (POST env request g) = None <->
   exists t0 ev x,
     fst (fst (POST env request g)) = (t0 ++ [ev])%list /\
     thrown_by env ev = Some x /\
     forall code, x <> ChatSDKError code) /\
  (forall code,
     snd (POST env request g) = Some (ErrorResponse code) ->
     In code ["bad_request:api"; "unauthorized:chat"; "rate_limit:chat"; "forbidden:chat"] \/
     exists t0 ev,
       fst (fst (POST env request g)) = (t0 ++ [ev])%list /\
       thrown_by env ev = Some (ChatSDKError code)).
Proof.
  destruct (requestBody_of request) as [body | e] eqn:Hb.
  - rewrite (POST_of_process env request body g Hb). cbn [fst snd].
    split.
    + split.
      * intros H.
        destruct (snd (process env request body g)) as [r | x] eqn:E; [discriminate H |].
        apply process_throws in E as (t0 & ev & HT & Hx).
        exists t0, ev, x. split; [exact HT |]. split; [exact Hx |].
        intros code ->. discriminate H.
      * intros (t0 & ev & x & HT & Hx & Hne).
        assert (E : snd (process env request body g) = Threw x)
          by (apply process_throws; now exists t0, ev).
        rewrite E. destruct x as [code | | e]; [now contradiction (Hne code) | |]; reflexivity.
    + intros code H.
      destruct (snd (process env request body g)) as [r | x] eqn:E.
      * injection H as ->. left.
        pose proof (process_refuses env request body g code E) as Hin.
        cbn [In] in Hin |- *. tauto.
      * destruct x as [code' | | e]; try discriminate H. injection H as ->.
        right. now apply process_throws.
  - rewrite (POST_unparsed env request g e Hb). cbn [fst snd].
    split.
    + split; [discriminate |].
      intros (t0 & ev & x & HT & _). destruct t0; discriminate HT.
    + intros code H. injection H as <-. left. cbn. tauto.
Qed.

Lemma POST_gives_no_response_when_a_call_fails_witness :
  snd (POST RouteExamples.env_db_down RouteExamples.request None) = None /\
  In (SaveChat {| chat_id := "chat-1"; userId := "alice"; title := "Midterm";
                  visibility := "private" |})
     (fst (fst (POST RouteExamples.env_db_down RouteExamples.request None))).
Proof.
  split.
  - apply (proj1 (POST_gives_no_response_when_a_call_fails RouteExamples.env_db_down
                    RouteExamples.request None)).
    exists [Auth; GetMessageCountByUserId "alice" 24; GetChatById "chat-1";
            GenerateTitleFromUserMessage RouteExamples.asked;
            SaveChat {| chat_id := "chat-1"; userId := "alice"; title := "Midterm";
                        visibility := "private" |}],
           (GetMessagesByChatId "chat-1"),
           (OtherError {| JS.message := "connection refused" |}).
    split; [reflexivity |]. split; [reflexivity |]. discriminate.
  - vm_compute. tauto.
Defined.

(** X19.  [DELETE] deletes only the chat named by the [id] parameter, only
    for a signed-in user and only when that chat is the user's own; it
    writes nothing else, and the chat it answers with (status 200) is the
    one the deletion returned. *)
Theorem DELETE_deletes_only_the_users_own_chat
    (env : Env) (request : Request) (g : State) :
  (forall ev,
     In ev (fst (fst (DELETE env request g))) ->
     writes ev = true \/ creates ev = true \/ is_fetch ev = true ->
     exists id session u c,
       ev = DeleteChatById id /\
       searchParams_id request = Some id /\ id <> "" /\
       auth env = Returned session /\ user_of session = Some u /\
       getChatById env id = Returned (Some c) /\ userId c = user_id u) /\
  (forall deleted code,
     snd (DELETE env request g) = Returned (JsonResponse deleted code) ->
     code = 200%Z /\
     exists id, searchParams_id request = Some id /\
                deleteChatById env id = Returned deleted /\
                In (DeleteChatById id) (fst (fst (DELETE env request g)))).
Proof.
  split.
  - unfold_handlers.
    explore; intros ev Hin Hw; trace_cases Hin; subst ev; cbn in Hw;
      try solve [destruct Hw as [Hw | [Hw | Hw]]; discriminate Hw];
      eexists _, _, _, _; (split; [reflexivity |]); (split; [reflexivity |]);
      (split; [now apply String.eqb_neq |]);
      (split; [first [reflexivity | eassumption] |]);
      (split; [first [reflexivity | eassumption] |]);
      (split; [first [reflexivity | eassumption] |]);
      match goal with
      | Hne : negb (?a =? ?b) = false |- _ =>
          apply negb_false_iff in Hne; apply String.eqb_eq in Hne; exact Hne
      end.
  - unfold_handlers.
    explore; intros deleted code H; try discriminate H.
    injection H as <- <-. split; [reflexivity |].
    eexists. split; [reflexivity |]. split; [assumption |]. cbn [In]. tauto.
Qed.

(** X20.  [DELETE] has no [try]: it throws exactly when a call it made
    throws, that call being the last one, or when the user is signed in
    and the chat does not exist, in which case reading the owner of the
    missing chat is a [TypeError] and nothing is deleted. *)
Theorem DELETE_throws_when_a_call_fails_or_the_chat_is_missing
    (env : Env) (request : Request) (g : State) (x : Thrown) :
  snd (DELETE env request g) = Threw x <->
  (exists t0 ev,
     fst (fst (DELETE env request g)) = (t0 ++ [ev])%list /\ thrown_by env ev = Some x) \/
  (x = TypeError /\
   fst (fst (DELETE env request g)) =
     match searchParams_id request with
     | Some id => [Auth; GetChatById id]
     | None => []
     end /\
   exists id session u,
     searchParams_id request = Some id /\ id <> "" /\
     auth env = Returned session /\ user_of session = Some u /\
     getChatById env id = Returned None).
Proof.
  unfold_handlers.
  explore;
    (split;
     [ intros H; try discriminate H
     | intros [(t0 & ev & HT & Hx)
              | (-> & _ & id1 & session1 & u1 & Hid & Hne & Ha & Hu & Hc)] ]).
  all: try (injection H as <-;
            first
              [ left;
                match goal with
                | |- exists t0 ev, ?T = _ /\ _ => exists (removelast T), (last T Auth)
                end;
                cbn [removelast last app]; split; [reflexivity |];
                cbn [thrown_by]; use_all; reflexivity
              | right; split; [reflexivity |]; split; [reflexivity |];
                eexists _, _, _; split; [reflexivity |];
                split; [now apply String.eqb_neq |];
                split; [first [reflexivity | eassumption] |];
                split; first [reflexivity | eassumption] ]).
  all: try (destruct t0; discriminate HT).
  all: try (apply (last_of_snoc _ _ _ Auth) in HT; subst ev; cbn [last] in Hx;
            cbn [thrown_by] in Hx; use_in Hx; cbn [thrown] in Hx;
            first [discriminate Hx | injection Hx as <-; reflexivity]).
  all: try reflexivity.
  all: try congruence.
  all: try (injection Hid as <-;
            match goal with
            | Heq : (_ =? "") = true |- _ => apply String.eqb_eq in Heq; congruence
            end).
Qed.

Lemma DELETE_throws_when_a_call_fails_or_the_chat_is_missing_witness :
  DELETE RouteExamples.env RouteExamples.request None =
    ([Auth; GetChatById "chat-1"], None, Threw TypeError).
Proof.
  assert (H : snd (DELETE RouteExamples.env RouteExamples.request None) = Threw TypeError).
  { apply (proj2 (DELETE_throws_when_a_call_fails_or_the_chat_is_missing RouteExamples.env
                    RouteExamples.request None TypeError)).
    right. split; [reflexivity |]. split; [reflexivity |].
    exists "chat-1", (Some {| user := Some RouteExamples.alice |}), RouteExamples.alice.
    repeat split. discriminate. }
  reflexivity.
Defined.

(** X21.  [getStreamContext] never throws and returns the global context
    as it is after the call.  It tries to create a context only when there
    is none; once one exists, every later call returns that same context
    without creating another; and a creation that failed is not remembered,
    so that the next call tries again. *)
Theorem getStreamContext_is_memoised
    (env : Env) (g g' : State) (t : list Event) (o : outcome (option StreamContext)) :
  getStreamContext env g = (t, g', o) ->
  o = Returned g' /\
  (t = [] /\ g' = g /\ g <> None \/
   t = [CreateResumableStreamContext] /\ g = None /\
   g' = match createResumableStreamContext env with
        | Normal c => Some c
        | Throw _ => None
        end) /\
  (forall c, g' = Some c ->
     forall env', getStreamContext env' g' = ([], g', Returned (Some c))) /\
  (g' = None ->
   forall env' c, createResumableStreamContext env' = Normal c ->
     getStreamContext env' g' = ([CreateResumableStreamContext], Some c, Returned (Some c))).
Proof.
  unfold getStreamContext. intros H.
  destruct g as [c |].
  - injection H as <- <- <-. split; [reflexivity |].
    split; [left; repeat split; discriminate |].
    split; [intros c' Hc env'; injection Hc as <-; reflexivity | discriminate].
  - destruct (createResumableStreamContext env) as [c | e]; injection H as <- <- <-.
    + split; [reflexivity |]. split; [right; repeat split |].
      split; [intros c' Hc env'; injection Hc as <-; reflexivity | discriminate].
    + split; [reflexivity |]. split; [right; repeat split |].
      split; [discriminate |]. intros _ env' c Hc. rewrite Hc. reflexivity.
Qed.

Lemma getStreamContext_is_memoised_witness :
  getStreamContext (RouteExamples.env_of 3 None (Normal (Context 1))) None =
    ([CreateResumableStreamContext], Some (Context 1), Returned (Some (Context 1))) /\
  getStreamContext (RouteExamples.env_of 3 None (Normal (Context 2))) (Some (Context 1)) =
    ([], Some (Context 1), Returned (Some (Context 1))).
Proof.
  split; [reflexivity |].
  destruct (getStreamContext_is_memoised
              (RouteExamples.env_of 3 None (Normal (Context 1))) None (Some (Context 1))
              [CreateResumableStreamContext] (Returned (Some (Context 1))) eq_refl)
    as (_ & _ & H & _).
  exact (H (Context 1) eq_refl (RouteExamples.env_of 3 None (Normal (Context 2)))).
Defined.

(** X22.  Neither handler drops or replaces a stream context: [DELETE]
    leaves the global as it is, and [POST] either leaves it as it is or,
    there being none, sets it to the context it has just created. *)
Theorem handlers_keep_the_stream_context (env : Env) (request : Request) (g : State) :
  snd (fst (DELETE env request g)) = g /\
  (snd (fst (POST env request g)) = g \/
   g = None /\
   exists c, createResumableStreamContext env = Normal c /\
             snd (fst (POST env request g)) = Some c /\
             In CreateResumableStreamContext (fst (fst (POST env request g)))).
Proof.
  split.
  - unfold_handlers. explore; reflexivity.
  - destruct (requestBody_of request) as [body | e] eqn:Hb.
    + rewrite (POST_of_process env request body g Hb). cbn [fst snd].
      unfold_handlers.
      explore;
        first
          [ left; reflexivity
          | right; split; [reflexivity |]; eexists; split; [reflexivity |];
            split; [reflexivity |]; cbn [In]; tauto ].
    + rewrite (POST_unparsed env request g e Hb). now left.
Qed.

(** The handler from [getMessagesByChatId] on, when its calls succeed. *)
Lemma respond_answered (env : Env) (request : Request) (body : PostRequestBody)
    (u : User) (chat : option ChatRow) (history : list DBMessage) (g : State) :
  answered env body u chat history g ->
  exists ragContext,
    Chat.ragBlock (fetch env (rag_url env)) (message_parts (message body)) = Normal ragContext /\
    exists t g',
      snd (getStreamContext env g) = Returned g' /\
      (Chat.blank (Chat.userMessageText (message_parts (message body))) = false ->
       In (Fetch (rag_url env) (Chat.userMessageText (message_parts (message body)))) t) /\
      respond env request body g =
        (t, g',
         Returned
           (StreamResponse (option_map (fun context => (context, generateUUID env)) g')
              {| model := selectedChatModel body;
                 system := systemPrompt env (selectedChatModel body) (geolocation request)
                             ++ ragContext;
                 messages := (convertToUIMessages env history ++ [message body])%list;
                 experimental_activeTools := activeTools (selectedChatModel body) |})).
Proof.
  intros [_ Hh Hm Hs Hr]. unfold user_message in Hm.
  destruct (ragContext_of_run env (message_parts (message body)) g) as (s & Hrag & E).
  exists s. split; [exact Hrag |].
  unfold respond, bind, call, ret. rewrite Hh. cbn [app fst snd].
  rewrite Hm. cbn [app fst snd]. rewrite Hs. cbn [app fst snd]. rewrite E.
  revert Hr. unfold getStreamContext.
  destruct g as [c |]; [| destruct (createResumableStreamContext env) as [c | e]];
    cbn [snd fst app]; intros Hr; try rewrite (Hr c eq_refl); cbn [app fst snd];
    eexists _, _; (split; [reflexivity |]); (split; [| reflexivity]);
    intros ->; cbn [In app]; tauto.
Qed.

(** C4.  If the retrieval call fails for the text of the user's message
    (the fetch rejects, the response status is not ok, or reading the
    response throws), then, for every request and whatever the stream
    context: the retrieval block of [POST] returns normally, having made
    its one request, with [ragContext] still ['']; whenever [POST] answers
    with a stream, the [system] argument of [streamText] is the system
    prompt, unmodified; and [POST] does answer with a stream: for a
    request that clears the checks and whose other calls succeed, the
    response carries the stream of the [streamText] call on the selected
    model, the unmodified system prompt and the messages of the chat
    followed by the user's message, resumable when there is a stream
    context, and the trace shows the retrieval request that failed. *)
Theorem chat_proceeds_without_context
    (env : Env) (request : Request) (g : State) (body : PostRequestBody) :
  requestBody_of request = Normal body ->
  Chat.failed (fetch env (rag_url env)
                 (Chat.userMessageText (message_parts (message body)))) = true ->
  ragContext_of env (message_parts (message body)) g =
    ((if Chat.blank (Chat.userMessageText (message_parts (message body))) then []
      else [Fetch (rag_url env) (Chat.userMessageText (message_parts (message body)))]),
     g, Returned "") /\
  (forall t g' resumable stream,
     POST env request g = (t, g', Some (StreamResponse resumable stream)) ->
     system stream = systemPrompt env (selectedChatModel body) (geolocation request)) /\
  (forall u chat history,
     cleared env request body u chat ->
     answered env body u chat history g ->
     exists t g',
       POST env request g =
         (t, g',
          Some (StreamResponse
                  (option_map (fun context => (context, generateUUID env)) g')
                  {| model := selectedChatModel body;
                     system := systemPrompt env (selectedChatModel body) (geolocation request);
                     messages := (convertToUIMessages env history ++ [message body])%list;
                     experimental_activeTools := activeTools (selectedChatModel body) |})) /\
       snd (getStreamContext env g) = Returned g' /\
       (Chat.blank (Chat.userMessageText (message_parts (message body))) = false ->
        In (Fetch (rag_url env) (Chat.userMessageText (message_parts (message body)))) t)).
Proof.
  intros Hb Hfail.
  destruct (retrieval_block_swallows_failures (fetch env (rag_url env)) ""
              (message_parts (message body)) Hfail) as [Hblock _].
  split; [| split].
  - destruct (ragContext_of_run env (message_parts (message body)) g) as (s & Hrag & E).
    rewrite Hblock in Hrag. injection Hrag as <-. exact E.
  - rewrite (POST_of_process env request body g Hb).
    unfold_handlers.
    explore; intros ? ? ? ? H; try discriminate H;
      injection H as <- <- <- <-; cbn [system];
      match goal with
      | Hrag : Chat.ragBlock _ _ = Normal _ |- _ =>
          rewrite Hblock in Hrag; injection Hrag as <-
      end;
      apply ListFacts.append_empty.
  - intros u chat history [_ (session & Ha & Hu) (sent & Hn & Hle) Hchat Hown] Hans.
    destruct (respond_answered env request body u chat history g Hans)
      as (s & Hrag & t & g' & Hg & Hin & E).
    rewrite Hblock in Hrag. injection Hrag as <-.
    rewrite ListFacts.append_empty in E.
    rewrite (POST_of_process env request body g Hb).
    assert (Hgt : (sent >? maxMessagesPerDay env (user_type u))%Z = false)
      by (rewrite Z.gtb_ltb; apply Z.ltb_ge; lia).
    unfold process, bind, call, ret. rewrite Ha. cbn [app fst snd].
    rewrite Hu, Hn. cbn [app fst snd]. rewrite Hgt, Hchat. cbn [app fst snd].
    destruct chat as [c |].
    + rewrite (Hown c eq_refl), String.eqb_refl. cbn [negb]. rewrite E. cbn [app fst snd].
      eexists _, g'. split; [reflexivity |]. split; [exact Hg |].
      intros Hblank. cbn [In]. right. right. right. now apply Hin.
    + destruct (chat_made _ _ _ _ _ _ Hans eq_refl) as (generated & Ht & Hsave).
      rewrite Ht. cbn [app fst snd]. rewrite Hsave. cbn [app fst snd]. rewrite E.
      cbn [app fst snd].
      eexists _, g'. split; [reflexivity |]. split; [exact Hg |].
      intros Hblank. cbn [In]. do 5 right. now apply Hin.
Qed.

Lemma chat_proceeds_without_context_witness :
  snd (POST (RouteExamples.env_rag_down RouteExamples.no_redis true)
         RouteExamples.request None) =
    Some (StreamResponse None RouteExamples.streamed_without_context) /\
  In (Fetch "http://localhost:3000/api/rag" "When is the midterm?")
     (fst (fst (POST (RouteExamples.env_rag_down RouteExamples.no_redis true)
                  RouteExamples.request None))).
Proof.
  destruct (chat_proceeds_without_context
              (RouteExamples.env_rag_down RouteExamples.no_redis true)
              RouteExamples.request None RouteExamples.body eq_refl eq_refl)
    as (_ & _ & H).
  destruct (H RouteExamples.alice None []) as (t & g' & E & Hg & Hin).
  - constructor.
    + reflexivity.
    + eexists. split; reflexivity.
    + exists 3%Z. split; [reflexivity | vm_compute; discriminate].
    + reflexivity.
    + intros c Hc. discriminate Hc.
  - constructor.
    + intros _. exists "Midterm". split; reflexivity.
    + reflexivity.
    + reflexivity.
    + reflexivity.
    + intros context Hc. discriminate Hc.
  - rewrite E. cbn [fst snd]. vm_compute in Hg. injection Hg as <-.
    split; [reflexivity | apply Hin; reflexivity].
Defined.

(** The same when the route cannot be reached and the stream context
    exists: the stream is resumable and the system prompt as it was. *)
Example chat_proceeds_when_the_route_is_unreachable :
  POST (RouteExamples.env_rag_down RouteExamples.no_redis false)
       RouteExamples.request (Some (Context 1)) =
    ([Auth; GetMessageCountByUserId "alice" 24; GetChatById "chat-1";
      GenerateTitleFromUserMessage RouteExamples.asked;
      SaveChat (RouteExamples.chat_of "alice");
      GetMessagesByChatId "chat-1";
      SaveMessages [user_message RouteExamples.env RouteExamples.body];
      CreateStreamId "stream-1" "chat-1";
      Fetch "http://localhost:3000/api/rag" "When is the midterm?";
      ResumableStream (Context 1) "stream-1"],
     Some (Context 1),
     Some (StreamResponse (Some (Context 1, "stream-1"))
             RouteExamples.streamed_without_context)).
Proof. vm_compute. reflexivity. Qed.

End ChatRouteFacts.

(** ** The hook [useMessages] *)

Module UseMessagesFacts.
Import UseMessages.

Local Open Scope string_scope.

Lemma render_sent (h : Hook) (p : Props) :
  hasSentMessage (render h p) = true ->
  hasSentMessage h = true \/ status p = "submitted".
Proof.
  unfold render, onChatId, onStatus. cbn [hasSentMessage].
  destruct (changed chatId h p), (changed status h p),
    (String.eqb_spec (status p) "submitted"), (negb (chatId p =? ""));
    try tauto; try discriminate.
Qed.

(** X23.  [hasSentMessage] is never true without a submission: after any
    sequence of renders, the first being the mount, it is true only if the
    status was ['submitted'] at one of them. *)
Theorem hasSentMessage_needs_a_submission (renders : list Props) :
  hasSentMessage (useMessages renders) = true ->
  exists p, In p renders /\ status p = "submitted".
Proof.
  unfold useMessages.
  assert (H : forall h,
             hasSentMessage (fold_left render renders h) = true ->
             hasSentMessage h = true \/ exists p, In p renders /\ status p = "submitted").
  { induction renders as [| p renders IH]; intros h Hs; cbn [fold_left] in Hs.
    - now left.
    - destruct (IH _ Hs) as [H | (q & Hq & Hst)].
      + destruct (render_sent h p H) as [H' | H']; [now left |].
        right. exists p. split; [now left | exact H'].
      + right. exists q. split; [now right | exact Hst]. }
  intros Hs. destruct (H mount Hs) as [H' | H']; [discriminate H' | exact H'].
Qed.

Lemma hasSentMessage_needs_a_submission_witness :
  exists p,
    In p [ {| chatId := "chat-1"; status := "ready" |};
           {| chatId := "chat-1"; status := "submitted" |} ] /\
    status p = "submitted".
Proof.
  apply (hasSentMessage_needs_a_submission
           [ {| chatId := "chat-1"; status := "ready" |};
             {| chatId := "chat-1"; status := "submitted" |} ]).
  reflexivity.
Defined.

(** X24.  What a render does to [hasSentMessage]: it becomes true when the
    status has just become ['submitted'], whether or not the chat changed
    too; otherwise it becomes false when the chat has just changed to a
    non-empty identifier, even though the status may still be
    ['submitted']; otherwise it stays.  Rendering again with the same
    properties changes nothing. *)
Theorem render_sets_hasSentMessage (h : Hook) (p : Props) :
  (changed status h p = true -> status p = "submitted" ->
   hasSentMessage (render h p) = true) /\
  (changed chatId h p = true -> chatId p <> "" ->
   (changed status h p = false \/ status p <> "submitted") ->
   hasSentMessage (render h p) = false) /\
  ((changed status h p = false \/ status p <> "submitted") ->
   (changed chatId h p = false \/ chatId p = "") ->
   hasSentMessage (render h p) = hasSentMessage h) /\
  render (render h p) p = render h p.
Proof.
  unfold render, onChatId, onStatus, changed. cbn [hasSentMessage rendered].
  rewrite !String.eqb_refl. cbn [negb].
  destruct (rendered h) as [p0 |];
    try destruct (String.eqb_spec (chatId p0) (chatId p));
    try destruct (String.eqb_spec (status p0) (status p));
    destruct (String.eqb_spec (status p) "submitted");
    destruct (String.eqb_spec (chatId p) "");
    cbn [negb]; repeat split; intros;
    repeat match goal with H : _ \/ _ |- _ => destruct H end;
    try reflexivity; try congruence; try discriminate.
Qed.

Lemma render_sets_hasSentMessage_witness :
  hasSentMessage
    (render (useMessages [ {| chatId := "chat-1"; status := "submitted" |} ])
            {| chatId := "chat-2"; status := "submitted" |}) = false.
Proof.
  apply (proj1 (proj2 (render_sets_hasSentMessage
                         (useMessages [ {| chatId := "chat-1"; status := "submitted" |} ])
                         {| chatId := "chat-2"; status := "submitted" |}))).
  - reflexivity.
  - discriminate.
  - left. reflexivity.
Defined.

End UseMessagesFacts.
